(** * Mod manager: link-based activation of game mods

    A shallow embedding of [mod-manager.py]: the string helpers behind the
    extension filter, a POSIX-style filesystem with symbolic links, the two
    link primitives [mklink] and [unlink_path], the catalogue scan
    [discover_mods], the preset store and the batch operations on presets,
    followed by the properties established about them. *)

From Stdlib Require Import Ascii NArith.
From stdpp Require Import base option list sorting gmap strings pretty.

(** ** Strings

    Python [str] values are modelled by [string] over the ASCII alphabet:
    [str.lower] is the map A-Z to a-z, [str.strip] removes the ASCII
    characters for which [str.isspace] holds, comparison is by code point. *)

Module Str.

Definition lower_char (c : ascii) : ascii :=
  let n := N_of_ascii c in
  if ((65 <=? n) && (n <=? 90))%N then ascii_of_N (n + 32) else c.

Fixpoint lower (s : string) : string :=
  match s with
  | "" => ""
  | String c s' => String (lower_char c) (lower s')
  end.

(** [str.isspace] on the ASCII range: TAB, LF, VT, FF, CR, the four
    separators FS, GS, RS, US and the blank. *)
Definition isspace (c : ascii) : bool :=
  let n := N_of_ascii c in
  ((9 <=? n) && (n <=? 13) || (28 <=? n) && (n <=? 32))%N.

Fixpoint lstrip (s : string) : string :=
  match s with
  | "" => ""
  | String c s' => if isspace c then lstrip s' else s
  end.

Definition rstrip (s : string) : string :=
  String.rev (lstrip (String.rev s)).

Definition strip (s : string) : string := rstrip (lstrip s).

(** [s.split(sep)] for a one-character separator: [cur] holds the
    characters of the current piece, most recent first. *)
Fixpoint split_go (sep : ascii) (cur : string) (s : string) : list string :=
  match s with
  | "" => [String.rev cur]
  | String c s' =>
      if Ascii.eqb c sep then String.rev cur :: split_go sep "" s'
      else split_go sep (String c cur) s'
  end.

Definition split (sep : ascii) (s : string) : list string :=
  split_go sep "" s.

Definition startswith (pre s : string) : bool := String.prefix pre s.

(** [s.rfind(c)]: the index of the last occurrence of [c], if any. *)
Fixpoint rfind_go (c : ascii) (i : nat) (s : string) (last : option nat)
  : option nat :=
  match s with
  | "" => last
  | String d s' =>
      rfind_go c (S i) s' (if Ascii.eqb d c then Some i else last)
  end.

Definition rfind (c : ascii) (s : string) : option nat :=
  rfind_go c 0 s None.

(** [s[i:]] *)
Fixpoint drop (i : nat) (s : string) : string :=
  match i, s with
  | 0, _ => s
  | S i', String _ s' => drop i' s'
  | S _, "" => ""
  end.

(** [sep.join(l)] *)
Fixpoint join (sep : string) (l : list string) : string :=
  match l with
  | [] => ""
  | [x] => x
  | x :: l' => x +:+ sep +:+ join sep l'
  end.

(** [c.isdigit()] on the ASCII range: the ten decimal digits. *)
Definition isdigit_char (c : ascii) : bool :=
  let n := N_of_ascii c in
  ((48 <=? n) && (n <=? 57))%N.

Fixpoint all_digits (s : string) : bool :=
  match s with
  | "" => true
  | String c s' => isdigit_char c && all_digits s'
  end.

(** [s.isdigit()]: at least one character, and digits only. *)
Definition isdigit (s : string) : bool :=
  match s with
  | "" => false
  | _ => all_digits s
  end.

(** [int(s)] for a text of decimal digits: [acc] is the value of the digits
    read so far. *)
Fixpoint int_go (acc : N) (s : string) : N :=
  match s with
  | "" => acc
  | String c s' => int_go (10 * acc + (N_of_ascii c - 48))%N s'
  end.

Definition int (s : string) : nat := N.to_nat (int_go 0 s).

(** The longest text of digits that [int] converts unless the interpreter
    is set up otherwise; on a longer one [int] raises.  What is stated of
    [int] below keeps to texts within this length. *)
Definition int_max_str_digits : nat := 4300.

(** [q in s]: [q] occurs in [s] as a run of consecutive characters. *)
Fixpoint contains (q s : string) : bool :=
  String.prefix q s ||
  match s with
  | "" => false
  | String _ s' => contains q s'
  end.

End Str.

(** [PurePath.suffix] of a final path component: the text from the last
    dot on, provided that dot is neither the first nor the last character. *)
Definition suffix (name : string) : string :=
  match Str.rfind "."%char name with
  | Some i =>
      if bool_decide (0 < i ∧ i < String.length name - 1)
      then Str.drop i name else ""
  | None => ""
  end.

(** ** Filesystem

    A path is absolute and is the list of its components below the root;
    the components [.] and [..] do not occur.  The filesystem maps the
    resolved path of every entry to its node: a regular file, a directory
    or a symbolic link holding the path of its target.  The root itself is
    a directory and is not stored.  There are no permissions: a primitive
    fails only when the entries it needs are missing, present or of the
    wrong kind. *)

Definition path := list string.

Inductive node :=
  | File
  | Dir
  | Link (target : path).

Global Instance node_eq_dec : EqDecision node.
Proof. solve_decision. Defined.

Abbreviation FS := (gmap path node).

(** [str(p)] *)
Definition path_str (p : path) : string := "/" +:+ Str.join "/" p.

(** The exceptions the modelled primitives raise. *)
Inductive pyexn :=
  | FileNotFoundError
  | FileExistsError
  | NotADirectoryError
  | IsADirectoryError
  | DirectoryNotEmpty
  | PersistenceError
  | ToolError (msg : string).

Definition exn_str (e : pyexn) : string :=
  match e with
  | FileNotFoundError => "[Errno 2] No such file or directory"
  | FileExistsError => "[Errno 17] File exists"
  | NotADirectoryError => "[Errno 20] Not a directory"
  | IsADirectoryError => "[Errno 21] Is a directory"
  | DirectoryNotEmpty => "[Errno 39] Directory not empty"
  | PersistenceError => "[Errno 5] Input/output error"
  | ToolError msg => msg
  end.

(** How many symbolic links one resolution may traverse. *)
Definition MAXSYMLINKS : nat := 40.

(** Walk the components [rest] downwards from the resolved directory [cur].
    A link met on the way is handed, with the components still to come, to
    [jump]; a link in final position is returned as such unless [follow]. *)
Fixpoint walk_dir (fs : FS) (follow : bool)
    (jump : path → option (path * node))
    (cur : path) (rest : list string) : option (path * node) :=
  match rest with
  | [] => Some (cur, Dir)
  | c :: rest' =>
      let k := cur ++ [c] in
      match fs !! k with
      | None => None
      | Some Dir => walk_dir fs follow jump k rest'
      | Some File => match rest' with [] => Some (k, File) | _ => None end
      | Some (Link t) =>
          match rest', follow with
          | [], false => Some (k, Link t)
          | _, _ => jump (t ++ rest')
          end
      end
  end.

Fixpoint resolve (fs : FS) (fuel : nat) (follow : bool) (p : path)
  : option (path * node) :=
  match fuel with
  | 0 => walk_dir fs follow (λ _, None) [] p
  | S f => walk_dir fs follow (resolve fs f follow) [] p
  end.

(** [os.lstat] and [os.stat]: the resolved location and the node found. *)
Definition lstat (fs : FS) (p : path) : option (path * node) :=
  resolve fs MAXSYMLINKS false p.

Definition stat (fs : FS) (p : path) : option (path * node) :=
  resolve fs MAXSYMLINKS true p.

(** The [pathlib.Path] queries the program uses. *)
Module Path.

Definition exists_ (fs : FS) (p : path) : bool :=
  bool_decide (is_Some (stat fs p)).

Definition is_symlink (fs : FS) (p : path) : bool :=
  match lstat fs p with
  | Some (_, Link _) => true
  | _ => false
  end.

Definition is_file (fs : FS) (p : path) : bool :=
  match stat fs p with
  | Some (_, File) => true
  | _ => false
  end.

Definition is_dir (fs : FS) (p : path) : bool :=
  match stat fs p with
  | Some (_, Dir) => true
  | _ => false
  end.

(** [p.name]: the final component. *)
Definition name (p : path) : string := List.last p "".

(** [p.parent] *)
Definition parent (p : path) : path := removelast p.

End Path.

(** The component [n] for which [k] is [d / n], if there is one. *)
Definition child_name (d k : path) : option string :=
  match drop (length d) k with
  | [n] => if bool_decide (take (length d) k = d) then Some n else None
  | _ => None
  end.

(** The names of the entries of the resolved directory [d], in the order
    in which the map enumerates them; the program relies on no particular
    order of a listing. *)
Definition children (fs : FS) (d : path) : list string :=
  omap (λ kv, child_name d kv.1) (map_to_list fs).

(** [os.listdir] *)
Definition listdir (fs : FS) (p : path) : pyexn + list string :=
  match stat fs p with
  | None => inl FileNotFoundError
  | Some (d, Dir) => inr (children fs d)
  | Some _ => inl NotADirectoryError
  end.

(** [Path.iterdir]: one child path per listed name. *)
Definition iterdir (fs : FS) (p : path) : pyexn + list path :=
  match listdir fs p with
  | inl e => inl e
  | inr names => inr ((λ n, p ++ [n]) <$> names)
  end.

(** The resolved location at which a new entry named by [p] would be
    created: the parent must resolve to a directory. *)
Definition new_entry_key (fs : FS) (p : path) : option path :=
  match p with
  | [] => None
  | _ =>
      match stat fs (Path.parent p) with
      | Some (d, Dir) => Some (d ++ [Path.name p])
      | _ => None
      end
  end.

(** [os.symlink(src, dest)] *)
Definition os_symlink (src dest : path) (fs : FS) : pyexn + FS :=
  match lstat fs dest with
  | Some _ => inl FileExistsError
  | None =>
      match new_entry_key fs dest with
      | None => inl FileNotFoundError
      | Some k => inr (<[k := Link src]> fs)
      end
  end.

(** [os.rmdir(p)]: only an empty directory, never a link, is removed. *)
Definition os_rmdir (p : path) (fs : FS) : pyexn + FS :=
  match lstat fs p with
  | None => inl FileNotFoundError
  | Some (k, Dir) =>
      match k, children fs k with
      | _ :: _, [] => inr (delete k fs)
      | _, _ => inl DirectoryNotEmpty
      end
  | Some _ => inl NotADirectoryError
  end.

(** [Path.unlink()]: removes a file or a link, never a directory. *)
Definition os_unlink (p : path) (fs : FS) : pyexn + FS :=
  match lstat fs p with
  | None => inl FileNotFoundError
  | Some (_, Dir) => inl IsADirectoryError
  | Some (k, _) => inr (delete k fs)
  end.

(** ** Configuration and the extension filter *)

(** The configuration record.  The two directories are held as the
    absolute paths that [Path(...).expanduser()] stands for;
    [mod_extensions] is the raw, comma-separated text, [None] when the key
    holds no text. *)
Record Config := {
  mods_source_dir : path;
  game_mods_dir : path;
  mod_extensions : option string;
}.

(** One piece of the comma-separated filter text, as the comprehension of
    [parse_extensions] turns it into a list element. *)
Definition parse_extension (e : string) : string :=
  if Str.startswith "." e then Str.strip (Str.lower e)
  else "." +:+ Str.strip (Str.lower e).

Definition parse_extensions (cfg : Config) : bool * list string :=
  let exts_raw := Str.strip (default "" (mod_extensions cfg)) in
  if bool_decide (exts_raw = "") then (true, [])
  else
    (false,
     parse_extension <$>
       filter (λ e, Str.strip e ≠ "") (Str.split ","%char exts_raw)).

(** ** The catalogue *)

Record ModItem := {
  name : string;
  src : path;
  dest : path;
  is_dir : bool;
  installed : bool;
}.

Global Instance ModItem_eq_dec : EqDecision ModItem.
Proof. solve_decision. Defined.

(** [sorted(l, key=key)]: a stable sort that compares the keys with [<]. *)
Section sorted.
Context {A K : Type} (key : A → K) (lt : K → K → bool).

Fixpoint insert_sorted (x : A) (l : list A) : list A :=
  match l with
  | [] => [x]
  | y :: l' =>
      if lt (key y) (key x) then y :: insert_sorted x l' else x :: l
  end.

Definition sorted (l : list A) : list A := foldr insert_sorted [] l.
End sorted.

(** [<] on the pairs [(bool, str)]: the first components decide unless
    they are equal; [False < True]. *)
Definition key_lt (a b : bool * string) : bool :=
  if bool_decide (a.1 = b.1) then String.ltb a.2 b.2
  else negb a.1 && b.1.

(** The sort key of [discover_mods]. *)
Definition discover_key (fs : FS) (p : path) : bool * string :=
  (Path.is_file fs p, Str.lower (Path.name p)).

(** [dest.exists() or dest.is_symlink()] *)
Definition dest_present (fs : FS) (d : path) : bool :=
  Path.exists_ fs d || Path.is_symlink fs d.

(** The body of the loop of [discover_mods]. *)
Definition discover_step (fs : FS) (dst_dir : path) (show_all : bool)
    (exts : list string) (items : list ModItem) (p : path) : list ModItem :=
  if Path.is_file fs p then
    if show_all || bool_decide (Str.lower (suffix (Path.name p)) ∈ exts) then
      let dest := dst_dir ++ [Path.name p] in
      items ++ [{| name := Path.name p; src := p; dest := dest;
                   is_dir := false; installed := dest_present fs dest |}]
    else items
  else if Path.is_dir fs p then
    let dest := dst_dir ++ [Path.name p] in
    items ++ [{| name := Path.name p; src := p; dest := dest;
                 is_dir := true; installed := dest_present fs dest |}]
  else items.

Definition discover_mods (cfg : Config) (fs : FS) : pyexn + list ModItem :=
  let src_dir := mods_source_dir cfg in
  let dst_dir := game_mods_dir cfg in
  let '(show_all, exts) := parse_extensions cfg in
  if negb (Path.exists_ fs src_dir) then inr []
  else
    match iterdir fs src_dir with
    | inl e => inl e
    | inr ps =>
        inr (foldl (discover_step fs dst_dir show_all exts) []
               (sorted (discover_key fs) key_lt ps))
    end.

Definition list_installed_mods (cfg : Config) (fs : FS)
  : pyexn + list ModItem :=
  match discover_mods cfg fs with
  | inl e => inl e
  | inr items => inr (filter (λ m, installed m = true) items)
  end.

(** [m.installed and not m.src.exists()] *)
Definition is_broken (fs : FS) (m : ModItem) : bool :=
  installed m && negb (Path.exists_ fs (src m)).

Definition list_broken_links (cfg : Config) (fs : FS)
  : pyexn + list ModItem :=
  match discover_mods cfg fs with
  | inl e => inl e
  | inr items => inr (filter (λ m, is_broken fs m = true) items)
  end.

(** ** The preset store *)

(** What [presets.json] holds, and whether it can be opened for writing. *)
Inductive file_content :=
  | Absent
  | Unreadable
  | Parsed (d : gmap string (list string)).

Record Store := {
  content : file_content;
  writable : bool;
}.

(** [load_json(PRESETS_PATH, {})]: the default for an absent file and for
    one that cannot be read or decoded. *)
Definition load_presets (st : Store) : gmap string (list string) :=
  match content st with
  | Parsed d => d
  | _ => ∅
  end.

(** [save_json(PRESETS_PATH, presets)]: the exception of [open] is not
    caught. *)
Definition save_presets (presets : gmap string (list string)) (st : Store)
  : pyexn + Store :=
  if writable st then inr {| content := Parsed presets; writable := true |}
  else inl PersistenceError.

(** [{m.name: m for m in items}]: a later item replaces an earlier one of
    the same name. *)
Definition mods_by_name (items : list ModItem) : gmap string ModItem :=
  foldl (λ d m, <[name m := m]> d) ∅ items.

(** [{m.name for m in items if m.installed}] *)
Definition installed_set (items : list ModItem) : gset string :=
  list_to_set (name <$> filter (λ m, installed m = true) items).

(** ** Link primitives *)

(** What [subprocess.run(..., capture_output=True, text=True)] returns. *)
Record CompletedProcess := {
  returncode : Z;
  stdout : string;
  stderr : string;
}.

(** The command line of the Windows branch of [mklink]: a junction for a
    directory, a file link otherwise. *)
Definition mklink_cmd (junction : bool) (src dest : path) : list string :=
  if junction
  then ["cmd"; "/c"; "mklink"; "/J"; path_str dest; path_str src]
  else ["cmd"; "/c"; "mklink"; path_str dest; path_str src].

(** [a or b] on strings *)
Definition str_or (a b : string) : string :=
  if bool_decide (a = "") then b else a.

Definition unlink_path (p : path) (fs : FS) : FS * (bool * string) :=
  if negb (Path.exists_ fs p) && negb (Path.is_symlink fs p) then
    (fs, (false, "Already removed"))
  else if Path.is_dir fs p && negb (Path.is_symlink fs p) then
    match os_rmdir p fs with
    | inl _ => (fs, (false, "Not a link or not empty"))
    | inr fs' => (fs', (true, "OK"))
    end
  else
    match os_unlink p fs with
    | inl e => (fs, (false, exn_str e))
    | inr fs' => (fs', (true, "OK"))
    end.

Definition deactivate_mod (m : ModItem) (fs : FS) : FS * (bool * string) :=
  unlink_path (dest m) fs.

(** The state a batch loop carries: the filesystem it acts on, the two
    counters and the messages. *)
Record Batch := {
  world : FS;
  ok : nat;
  fail : nat;
  msgs : list string;
}.

(** The state in which a batch loop starts: [ok = 0], [fail = 0],
    [msgs = []]. *)
Definition batch_start (fs : FS) : Batch :=
  {| world := fs; ok := 0; fail := 0; msgs := [] |}.

(** [f"{nm}: {'OK' if success else 'ERR'} ({msg})"] *)
Definition outcome_msg (nm : string) (success : bool) (msg : string) : string :=
  nm +:+ ": " +:+ (if success then "OK" else "ERR") +:+ " (" +:+ msg +:+ ")".

Definition count_outcome (st : Batch) (fs' : FS) (nm : string)
    (success : bool) (msg : string) : Batch :=
  {| world := fs';
     ok := if success then S (ok st) else ok st;
     fail := if success then fail st else S (fail st);
     msgs := msgs st ++ [outcome_msg nm success msg] |}.

(** The body of the loop of [deactivate_preset]. *)
Definition deactivate_preset_step (mods : gmap string ModItem)
    (st : Batch) (nm : string) : Batch :=
  match mods !! nm with
  | None => st
  | Some m =>
      if negb (installed m) then st
      else
        let '(fs', (success, msg)) := deactivate_mod m (world st) in
        count_outcome st fs' nm success msg
  end.

Definition deactivate_preset (cfg : Config) (name : string)
    (fs : FS) (st : Store) : pyexn + Batch :=
  let presets := load_presets st in
  match discover_mods cfg fs with
  | inl e => inl e
  | inr items =>
      let mods := mods_by_name items in
      let names := default [] (presets !! name) in
      inr (foldl (deactivate_preset_step mods) (batch_start fs) names)
  end.

(** The platform: the answer of [is_windows()] and the effect and result of
    running the external [cmd /c mklink] tool, which either raises or
    completes. *)
Section Engine.
Variable is_windows : bool.
Variable subprocess_run :
  list string → FS → FS * (pyexn + CompletedProcess).

Definition mklink (src dest : path) (fs : FS) : FS * (bool * string) :=
  if Path.exists_ fs dest || Path.is_symlink fs dest then
    (fs, (false, "Target already exists: " +:+ path_str dest))
  else if negb (Path.exists_ fs src) then
    (fs, (false, "Source not found: " +:+ path_str src))
  else if is_windows then
    let cmd := mklink_cmd (Path.is_dir fs src) src dest in
    match subprocess_run cmd fs with
    | (fs', inl e) => (fs', (false, exn_str e))
    | (fs', inr res) =>
        if bool_decide (returncode res ≠ 0%Z) then
          (fs', (false,
                 str_or (Str.strip (stderr res))
                   (str_or (Str.strip (stdout res)) "mklink error")))
        else (fs', (true, "OK"))
    end
  else
    match os_symlink src dest fs with
    | inl e => (fs, (false, exn_str e))
    | inr fs' => (fs', (true, "OK"))
    end.

Definition apply_mod (m : ModItem) (fs : FS) : FS * (bool * string) :=
  mklink (src m) (dest m) fs.

(** The body of the loop of [apply_preset]. *)
Definition apply_preset_step (mods : gmap string ModItem)
    (st : Batch) (nm : string) : Batch :=
  match mods !! nm with
  | None =>
      {| world := world st; ok := ok st; fail := fail st;
         msgs := msgs st ++ ["Skipped: " +:+ nm +:+ " (not in source)"] |}
  | Some m =>
      if installed m then st
      else
        let '(fs', (success, msg)) := apply_mod m (world st) in
        count_outcome st fs' nm success msg
  end.

Definition apply_preset (cfg : Config) (name : string)
    (fs : FS) (st : Store) : pyexn + Batch :=
  let presets := load_presets st in
  match discover_mods cfg fs with
  | inl e => inl e
  | inr items =>
      let mods := mods_by_name items in
      let names := default [] (presets !! name) in
      inr (foldl (apply_preset_step mods) (batch_start fs) names)
  end.

(** What one toggle of a preset in [menu_presets] reports: the counters
    and messages of the batch, under "Deactivated" or under "Installed". *)
Inductive toggle_report :=
  | Deactivated (b : Batch)
  | Installed (b : Batch).

Definition report_batch (r : toggle_report) : Batch :=
  match r with
  | Deactivated b => b
  | Installed b => b
  end.

(** A batch result under the heading [mk]; an exception is passed on. *)
Definition report_of (mk : Batch → toggle_report) (r : pyexn + Batch)
  : pyexn + toggle_report :=
  match r with
  | inl e => inl e
  | inr b => inr (mk b)
  end.

(** [bool(mods) and all(nm in installed_set for nm in mods)] *)
Definition all_on (inst : gset string) (mods : list string) : bool :=
  bool_decide (mods ≠ []) && forallb (λ nm, bool_decide (nm ∈ inst)) mods.

(** The body of the toggle loop of [menu_presets] for the preset [name]:
    [presets] and [inst] are the presets and the set of installed names
    read at the top of the menu loop, [fs] is the filesystem as the loop
    has left it so far. *)
Definition toggle_preset (cfg : Config) (presets : gmap string (list string))
    (inst : gset string) (name : string) (fs : FS) (st : Store)
  : pyexn + toggle_report :=
  let mods := default [] (presets !! name) in
  if all_on inst mods then report_of Deactivated (deactivate_preset cfg name fs st)
  else report_of Installed (apply_preset cfg name fs st).

(** One pass of [menu_presets] in which the presets [names] are chosen for
    toggling: the presets and the catalogue are read once, then the chosen
    presets are toggled in turn. *)
Definition menu_presets_toggle (cfg : Config) (names : list string)
    (fs : FS) (st : Store) : pyexn + (FS * list toggle_report) :=
  let presets := load_presets st in
  match discover_mods cfg fs with
  | inl e => inl e
  | inr items =>
      let inst := installed_set items in
      foldl
        (λ acc name,
           match acc with
           | inl e => inl e
           | inr (fs', reports) =>
               match toggle_preset cfg presets inst name fs' st with
               | inl e => inl e
               | inr r => inr (world (report_batch r), reports ++ [r])
               end
           end)
        (inr (fs, [])) names
  end.

End Engine.

(** [save_preset_from_installed]: the success flag, the message and the
    store as it is left; an exception of the scan or of the write is passed
    on. *)
Definition save_preset_from_installed (cfg : Config) (name_ : string)
    (fs : FS) (st : Store) : pyexn + (Store * (bool * string)) :=
  let presets := load_presets st in
  match list_installed_mods cfg fs with
  | inl e => inl e
  | inr inst =>
      if bool_decide (inst = []) then
        inr (st, (false, "No installed mods to save"))
      else
        match save_presets (<[name_ := name <$> inst]> presets) st with
        | inl e => inl e
        | inr st' =>
            inr (st', (true,
                   "Preset '" +:+ name_ +:+ "' saved (" +:+
                   pretty (length inst) +:+ " mods)"))
        end
  end.

(** ** Deleting presets *)

(** The body of the loop of [delete_presets_by_names] on the presets, the
    count of removed presets and the list of names not found. *)
Definition delete_presets_step
    (acc : gmap string (list string) * nat * list string) (nm : string)
  : gmap string (list string) * nat * list string :=
  let '(presets, removed, missing) := acc in
  if bool_decide (is_Some (presets !! nm)) then
    (delete nm presets, S removed, missing)
  else (presets, removed, missing ++ [nm]).

(** [delete_presets_by_names]: the store as it is left, the count and the
    names not found; the exception of the write is passed on. *)
Definition delete_presets_by_names (names : list string) (st : Store)
  : pyexn + (Store * (nat * list string)) :=
  let '(presets, removed, missing) :=
    foldl delete_presets_step (load_presets st, 0, []) names in
  match save_presets presets st with
  | inl e => inl e
  | inr st' => inr (st', (removed, missing))
  end.

(** ** The text interface *)

Definition PAGE_SIZE : nat := 20.

(** [parse_multi_choice]: the numbers among the comma-separated pieces. *)
Definition parse_multi_choice (choice : string) : list nat :=
  let parts :=
    Str.strip <$> filter (λ p, Str.strip p ≠ "") (Str.split "," choice) in
  foldl (λ nums p, if Str.isdigit p then nums ++ [Str.int p] else nums)
    [] parts.

(** [parse_page_choice]: the number after a leading [p], [None] for
    anything else. *)
Definition parse_page_choice (choice : string) : option nat :=
  let c := Str.lower (Str.strip choice) in
  if Str.startswith "p" c && Str.isdigit (Str.drop 1 c)
  then Some (Str.int (Str.drop 1 c))
  else None.

(** [paginate]: the page clamped into the range of pages, and the number
    of pages; [//] is the division that rounds down. *)
Definition paginate (total : nat) (page : Z) : Z * Z :=
  let pages :=
    (1 `max` ((Z.of_nat total + Z.of_nat PAGE_SIZE - 1) `div` Z.of_nat PAGE_SIZE))%Z in
  let page := (1 `max` (page `min` pages))%Z in
  (page, pages).

(** [l[start:stop]]: an index below zero counts from the end, and both
    bounds are clamped into the list. *)
Definition py_slice {A} (l : list A) (start stop : Z) : list A :=
  let len := Z.of_nat (length l) in
  let norm (i : Z) := (if i <? 0 then 0 `max` (i + len) else i `min` len)%Z in
  let s := norm start in
  let e := norm stop in
  take (Z.to_nat (e - s)) (drop (Z.to_nat s) l).

Definition page_slice {A} (items : list A) (page : Z) : list A :=
  let start := ((page - 1) * Z.of_nat PAGE_SIZE)%Z in
  let end_ := (start + Z.of_nat PAGE_SIZE)%Z in
  py_slice items start end_.

(** [filter_items_by_query] *)
Definition filter_items_by_query (items : list ModItem) (query : string)
  : list ModItem :=
  let q := Str.lower query in
  if bool_decide (q = "") then items
  else filter (λ m, Str.contains q (Str.lower (name m)) = true) items.

(** The two commands of [menu_mods_toggle] that act on the entries shown. *)
Section Menus.
Variable is_windows : bool.
Variable subprocess_run :
  list string → FS → FS * (pyexn + CompletedProcess).

(** The toggle of one entry: uninstall what the catalogue lists as
    installed, install what it does not. *)
Definition toggle_mod (m : ModItem) (fs : FS) : FS * (bool * string) :=
  if installed m then deactivate_mod m fs
  else apply_mod is_windows subprocess_run m fs.

(** The body of the loop over the chosen numbers: the filesystem and the
    outcomes so far, each with the name of the entry it is about. *)
Definition toggle_selected_step (shown : list ModItem)
    (acc : FS * list (string * (bool * string))) (num : nat)
  : FS * list (string * (bool * string)) :=
  let '(fs, outs) := acc in
  if bool_decide (1 ≤ num ∧ num ≤ length shown) then
    match shown !! (num - 1) with
    | Some m =>
        let '(fs', r) := toggle_mod m fs in
        (fs', outs ++ [(name m, r)])
    | None => acc
    end
  else acc.

Definition toggle_selected (shown : list ModItem) (nums : list nat) (fs : FS)
  : FS * list (string * (bool * string)) :=
  foldl (toggle_selected_step shown) (fs, []) nums.

End Menus.

(** The command [a] of [menu_mods_toggle]: uninstall every entry shown that
    the catalogue lists as installed. *)
Definition uninstall_all_shown (shown : list ModItem) (fs : FS) : FS :=
  foldl (λ fs m, if installed m then (deactivate_mod m fs).1 else fs) fs shown.

(** ** Notions used in the statements *)

(** [x] may stand before [y] in the result of [sorted]: the key of [y] is
    not below that of [x]. *)
Definition not_after {A K} (key : A → K) (lt : K → K → bool) (x y : A)
  : Prop :=
  lt (key y) (key x) = false.

(** How the result of [lstat] constrains the result of [stat]: nothing to
    resolve gives nothing, a file or directory gives the same answer, and a
    link leaves the answer open. *)
Definition stat_agrees (ol os : option (path * node)) : Prop :=
  match ol with
  | None => os = None
  | Some (_, Link _) => True
  | Some r => os = Some r
  end.

(** The entry [q / n] is looked up in the directory that [q] resolves to. *)
Definition lookup_in (fs : FS) (n : string) (oq : option (path * node))
  : option (path * node) :=
  match oq with
  | Some (d, Dir) => (λ nd, (d ++ [n], nd)) <$> fs !! (d ++ [n])
  | _ => None
  end.

(** What the loop of [discover_mods] appends for the child [p], if
    anything. *)
Definition discovered (fs : FS) (dst_dir : path) (show_all : bool)
    (exts : list string) (p : path) : option ModItem :=
  let dest := dst_dir ++ [Path.name p] in
  if Path.is_file fs p then
    if show_all || bool_decide (Str.lower (suffix (Path.name p)) ∈ exts) then
      Some {| name := Path.name p; src := p; dest := dest;
              is_dir := false; installed := dest_present fs dest |}
    else None
  else if Path.is_dir fs p then
    Some {| name := Path.name p; src := p; dest := dest;
            is_dir := true; installed := dest_present fs dest |}
  else None.

(** The children of the source directory in the order of the scan. *)
Definition scan_order (fs : FS) (src_dir d : path) : list path :=
  sorted (discover_key fs) key_lt ((λ n, src_dir ++ [n]) <$> children fs d).

(** Every member names an entry of the catalogue that is installed and not
    broken; an empty member list does not count. *)
Definition members_all_installed (fs : FS) (items : list ModItem)
    (mods : list string) : Prop :=
  mods ≠ [] ∧
  ∀ nm, nm ∈ mods →
    ∃ m, m ∈ items ∧ name m = nm ∧ installed m = true ∧ is_broken fs m = false.

(** What is assumed of the external tool where it is used: an exit code 0
    means that an entry is then found at the destination, and no run makes an
    entry disappear. *)
Definition tool_links
    (run : list string → FS → FS * (pyexn + CompletedProcess)) : Prop :=
  ∀ junction src_ dest_ fs fs' res,
    run (mklink_cmd junction src_ dest_) fs = (fs', inr res) →
    returncode res = 0%Z → is_Some (lstat fs' dest_).

Definition tool_keeps
    (run : list string → FS → FS * (pyexn + CompletedProcess)) : Prop :=
  ∀ cmd fs p, is_Some (lstat fs p) → is_Some (lstat (run cmd fs).1 p).

Definition platform_ok (is_windows : bool)
    (run : list string → FS → FS * (pyexn + CompletedProcess)) : Prop :=
  is_windows = true → tool_links run ∧ tool_keeps run.

(** The second batch state is the first with one more failure and one more
    message, on the same filesystem. *)
Definition one_more_failure (b b' : Batch) : Prop :=
  world b' = world b ∧ ok b' = ok b ∧ fail b' = S (fail b) ∧
  length (msgs b') = S (length (msgs b)).

(** Names compared without regard to case. *)
Definition name_le (a b : ModItem) : Prop :=
  String.le (Str.lower (name a)) (Str.lower (name b)).

(** All files, then all directories. *)
Definition files_before_dirs (items : list ModItem) : Prop :=
  ∃ fl ds, items = fl ++ ds ∧
    Forall (λ m, is_dir m = false) fl ∧ Forall (λ m, is_dir m = true) ds.

(** All directories, then all files, each part in the order of the names
    without regard to case. *)
Definition dirs_before_files (items : list ModItem) : Prop :=
  ∃ ds fl, items = ds ++ fl ∧
    Forall (λ m, is_dir m = true) ds ∧ Forall (λ m, is_dir m = false) fl ∧
    StronglySorted name_le ds ∧ StronglySorted name_le fl.

(** The order in which two entries of the catalogue follow each other. *)
Definition catalogue_le (a b : ModItem) : Prop :=
  (is_dir a = true ∧ is_dir b = false) ∨ (is_dir a = is_dir b ∧ name_le a b).

(** No character of the text is white space. *)
Fixpoint no_blank (s : string) : bool :=
  match s with
  | "" => true
  | String c s' => negb (Str.isspace c) && no_blank s'
  end.



(** ** Example data *)

(** A source directory with the directory [ModA] and the file [modb.esp],
    and an empty destination directory. *)
Definition fs_two : FS :=
  list_to_map
    [(["mods"], Dir); (["mods"; "ModA"], Dir); (["mods"; "modb.esp"], File);
     (["game"], Dir)].

Definition cfg_esp : Config :=
  {| mods_source_dir := ["mods"]; game_mods_dir := ["game"];
     mod_extensions := Some "esp" |}.


Definition item_ModA : ModItem :=
  {| name := "ModA"; src := ["mods"; "ModA"]; dest := ["game"; "ModA"];
     is_dir := true; installed := false |}.

Definition item_modb : ModItem :=
  {| name := "modb.esp"; src := ["mods"; "modb.esp"];
     dest := ["game"; "modb.esp"]; is_dir := false; installed := false |}.

(** A platform on which the external tool is never run. *)
Definition no_tool (cmd : list string) (fs : FS)
  : FS * (pyexn + CompletedProcess) :=
  (fs, inl (ToolError "cmd: command not found")).

(** A destination occupied by a dangling link, next to the two mods. *)
Definition fs_dangling : FS :=
  <[["game"; "ModA"] := Link ["mods"; "Gone"]]> fs_two.

(** A real directory with a file in it, in the destination. *)
Definition fs_real_dir : FS :=
  <[["game"; "Real"; "data.pak"] := File]> (<[["game"; "Real"] := Dir]> fs_two).

(** A store that can be written and already holds a preset. *)
Definition store_ok : Store :=
  {| content := Parsed {[ "mine" := ["ModA"] ]}; writable := true |}.

(** Both mods linked into the destination. *)
Definition fs_linked : FS :=
  <[["game"; "modb.esp"] := Link ["mods"; "modb.esp"]]>
    (<[["game"; "ModA"] := Link ["mods"; "ModA"]]> fs_two).

(** A preset whose two members are the two mods. *)
Definition store_both : Store :=
  {| content := Parsed {[ "both" := ["ModA"; "modb.esp"] ]};
     writable := true |}.

(** A preset that names a mod not in the source. *)
Definition store_stray : Store :=
  {| content := Parsed {[ "stray" := ["ModA"; "Gone"; "modb.esp"] ]};
     writable := true |}.

(** A preset that names [ModA] twice. *)
Definition store_twice : Store :=
  {| content := Parsed {[ "twice" := ["ModA"; "modb.esp"; "ModA"] ]};
     writable := true |}.

(** A source with a dotted directory name and three files. *)
Definition fs_ext : FS :=
  list_to_map
    [(["mods"], Dir); (["mods"; "foo.bar"], Dir); (["mods"; "x.esp"], File);
     (["mods"; "x.ESP"], File); (["mods"; "x.txt"], File); (["game"], Dir)].

Definition cfg_dot_esp : Config :=
  {| mods_source_dir := ["mods"]; game_mods_dir := ["game"];
     mod_extensions := Some ".esp" |}.

(** * Properties *)

(** ** Path resolution *)

Lemma walk_dir_agrees fs jl js cur rest :
  (∀ q, stat_agrees (jl q) (js q)) →
  stat_agrees (walk_dir fs false jl cur rest) (walk_dir fs true js cur rest).
Proof.
  intros Hj. revert cur.
  induction rest as [|c rest IH]; intros cur; simpl; [done|].
  destruct (fs !! (cur ++ [c])) as [[| |t]|]; simpl; [..|done].
  - by destruct rest.
  - apply IH.
  - destruct rest; [done|]. apply Hj.
Qed.

Lemma resolve_agrees fs fuel p :
  stat_agrees (resolve fs fuel false p) (resolve fs fuel true p).
Proof.
  revert p. induction fuel as [|f IH]; intros p; simpl;
    apply walk_dir_agrees; [done|apply IH].
Qed.

Lemma lstat_stat fs p : stat_agrees (lstat fs p) (stat fs p).
Proof. apply resolve_agrees. Qed.

(** [dest.exists() or dest.is_symlink()] holds exactly when [lstat] finds
    an entry, be it a file, a directory or a link with or without target. *)
Lemma dest_present_lstat fs p :
  dest_present fs p = true ↔ is_Some (lstat fs p).
Proof.
  unfold dest_present, Path.exists_, Path.is_symlink.
  pose proof (lstat_stat fs p) as H.
  destruct (lstat fs p) as [[k [| |t]]|]; simpl in H.
  - rewrite H. rewrite bool_decide_true by eauto. split; eauto.
  - rewrite H. rewrite bool_decide_true by eauto. split; eauto.
  - rewrite orb_true_r. split; eauto.
  - rewrite H. rewrite bool_decide_false by (by intros [? ?]).
    simpl. split; [done|]. by intros [? ?].
Qed.

Lemma dest_absent_lstat fs p :
  dest_present fs p = false ↔ lstat fs p = None.
Proof.
  rewrite <-not_true_iff_false, dest_present_lstat, eq_None_not_Some. done.
Qed.

Lemma exists_stat fs p : Path.exists_ fs p = true ↔ is_Some (stat fs p).
Proof. unfold Path.exists_. by rewrite bool_decide_eq_true. Qed.

Lemma not_exists_stat fs p : Path.exists_ fs p = false ↔ stat fs p = None.
Proof.
  rewrite <-not_true_iff_false, exists_stat, eq_None_not_Some. done.
Qed.

Lemma is_file_exists fs p : Path.is_file fs p = true → Path.exists_ fs p = true.
Proof.
  unfold Path.is_file. rewrite exists_stat.
  destruct (stat fs p) as [[? []]|]; (done || eauto).
Qed.

Lemma is_dir_exists fs p : Path.is_dir fs p = true → Path.exists_ fs p = true.
Proof.
  unfold Path.is_dir. rewrite exists_stat.
  destruct (stat fs p) as [[? []]|]; (done || eauto).
Qed.

(** A real directory: [is_dir()] without [is_symlink()]. *)
Lemma real_dir_lstat fs p :
  Path.is_dir fs p && negb (Path.is_symlink fs p) = true ↔
  ∃ k, lstat fs p = Some (k, Dir).
Proof.
  unfold Path.is_dir, Path.is_symlink.
  pose proof (lstat_stat fs p) as H.
  destruct (lstat fs p) as [[k [| |t]]|]; simpl in H.
  - rewrite H. split; [done|]. by intros [? ?].
  - rewrite H. split; eauto.
  - rewrite andb_false_r. split; [done|]. by intros [? ?].
  - rewrite H. split; [done|]. by intros [? ?].
Qed.

(** Resolution only reads the entries it steps over: whatever it finds
    stays found in a filesystem with more entries. *)
Lemma walk_dir_mono (fs fs' : FS) follow j j' cur rest r :
  fs ⊆ fs' →
  (∀ q r, j q = Some r → j' q = Some r) →
  walk_dir fs follow j cur rest = Some r →
  walk_dir fs' follow j' cur rest = Some r.
Proof.
  intros Hsub Hj. revert cur.
  induction rest as [|c rest IH]; intros cur; simpl; [done|].
  destruct (fs !! (cur ++ [c])) as [nd|] eqn:Hk; [|done].
  rewrite (lookup_weaken _ _ _ _ Hk Hsub).
  destruct nd as [| |t]; [done|apply IH|].
  destruct rest, follow; try done; apply Hj.
Qed.

Lemma resolve_mono (fs fs' : FS) fuel follow p r :
  fs ⊆ fs' →
  resolve fs fuel follow p = Some r → resolve fs' fuel follow p = Some r.
Proof.
  intros Hsub. revert p r.
  induction fuel as [|f IH]; intros p r; simpl;
    apply walk_dir_mono; (done || eauto).
Qed.

Lemma lstat_mono (fs fs' : FS) p :
  fs ⊆ fs' → is_Some (lstat fs p) → is_Some (lstat fs' p).
Proof. intros Hsub [r Hr]. exists r. by eapply resolve_mono. Qed.

Lemma stat_mono (fs fs' : FS) p r :
  fs ⊆ fs' → stat fs p = Some r → stat fs' p = Some r.
Proof. apply resolve_mono. Qed.

Lemma lookup_in_Some (fs : FS) n oq d nd :
  oq = Some (d, Dir) → fs !! (d ++ [n]) = Some nd →
  lookup_in fs n oq = Some (d ++ [n], nd).
Proof. intros -> H. simpl. by rewrite H. Qed.

Lemma walk_dir_snoc fs jl js cur rest n :
  (∀ q, jl (q ++ [n]) = lookup_in fs n (js q)) →
  walk_dir fs false jl cur (rest ++ [n]) =
  lookup_in fs n (walk_dir fs true js cur rest).
Proof.
  intros Hj. revert cur.
  induction rest as [|c rest IH]; intros cur; simpl.
  - destruct (fs !! (cur ++ [n])) as [[| |t]|]; done.
  - destruct (fs !! (cur ++ [c])) as [[| |t]|]; simpl; [..|done].
    + by destruct rest.
    + apply IH.
    + rewrite app_assoc, Hj. by destruct rest.
Qed.

Lemma resolve_snoc fs fuel q n :
  resolve fs fuel false (q ++ [n]) = lookup_in fs n (resolve fs fuel true q).
Proof.
  revert q. induction fuel as [|f IH]; intros q; simpl;
    apply walk_dir_snoc; [done|apply IH].
Qed.

Lemma lstat_snoc fs q n : lstat fs (q ++ [n]) = lookup_in fs n (stat fs q).
Proof. apply resolve_snoc. Qed.

Lemma lstat_root fs : lstat fs [] = Some ([], Dir).
Proof. done. Qed.

(** From here on the two are used through the facts above. *)
Global Opaque lstat stat.

(** ** Directory listing *)

Lemma child_name_Some d k n : child_name d k = Some n ↔ k = d ++ [n].
Proof.
  unfold child_name. split.
  - intros H. rewrite <-(take_drop (length d) k).
    destruct (drop (length d) k) as [|n' [|??]]; [done| |done].
    destruct (decide (take (length d) k = d)) as [Heq|Hne].
    + rewrite bool_decide_true in H by done. rewrite Heq. congruence.
    + by rewrite bool_decide_false in H.
  - intros ->. rewrite drop_app_length, take_app_length.
    by rewrite bool_decide_true.
Qed.

(** The listing of a directory names exactly the entries stored directly
    below it, each once. *)
Lemma elem_of_children (fs : FS) d n :
  n ∈ children fs d ↔ is_Some (fs !! (d ++ [n])).
Proof.
  unfold children. rewrite list_elem_of_omap. split.
  - intros [[k nd] [Hin Hn]]. simpl in Hn.
    apply child_name_Some in Hn as ->.
    apply elem_of_map_to_list in Hin. eauto.
  - intros [nd Hnd]. exists (d ++ [n], nd). split.
    + by apply elem_of_map_to_list.
    + by apply child_name_Some.
Qed.

(** ** Sorting *)

Section sorted_facts.
Context {A K : Type} (key : A → K) (lt : K → K → bool).

Lemma insert_sorted_perm x l : insert_sorted key lt x l ≡ₚ x :: l.
Proof.
  induction l as [|y l IH]; simpl; [done|].
  destruct (lt (key y) (key x)); [|done].
  rewrite IH. apply Permutation_swap.
Qed.

Lemma sorted_perm l : sorted key lt l ≡ₚ l.
Proof.
  induction l as [|x l IH]; simpl; [done|].
  by rewrite insert_sorted_perm, IH.
Qed.

Lemma elem_of_sorted x l : x ∈ sorted key lt l ↔ x ∈ l.
Proof. by rewrite sorted_perm. Qed.

Local Abbreviation in_order := (not_after key lt).

Hypothesis lt_asym : ∀ a b, lt a b = true → lt b a = false.
Hypothesis lt_negtrans :
  ∀ a b c, lt b a = false → lt c b = false → lt c a = false.

Lemma insert_sorted_sorted x l :
  StronglySorted in_order l →
  StronglySorted in_order (insert_sorted key lt x l).
Proof.
  induction 1 as [|y l Hl IH Hy]; simpl.
  - repeat constructor.
  - destruct (lt (key y) (key x)) eqn:Hyx.
    + constructor; [done|].
      rewrite insert_sorted_perm. constructor; [|done].
      by apply lt_asym.
    + constructor; [by constructor|].
      constructor; [done|].
      eapply Forall_impl; [exact Hy|].
      intros z Hz. by eapply lt_negtrans.
Qed.

Lemma sorted_sorted l : StronglySorted in_order (sorted key lt l).
Proof.
  induction l as [|x l IH]; simpl; [constructor|].
  by apply insert_sorted_sorted.
Qed.

End sorted_facts.

(** The order on sort keys *)

Lemma ltb_leb_false a b : String.ltb a b = false ↔ String.leb b a = true.
Proof.
  unfold String.ltb, String.leb. rewrite (String.compare_antisym b a).
  destruct (String.compare a b); simpl; intuition congruence.
Qed.

Lemma key_lt_false a b :
  key_lt b a = false ↔
  (a.1 = false ∧ b.1 = true) ∨ (a.1 = b.1 ∧ String.le a.2 b.2).
Proof.
  unfold key_lt, String.le. destruct a as [[] sa], b as [[] sb]; simpl;
    rewrite ?ltb_leb_false, ?Is_true_true; intuition congruence.
Qed.

Lemma key_lt_asym a b : key_lt a b = true → key_lt b a = false.
Proof.
  intros H. apply key_lt_false.
  destruct (key_lt b a) eqn:Hba; [|by apply key_lt_false].
  revert H Hba. unfold key_lt.
  destruct a as [[] sa], b as [[] sb]; simpl; try done; try (by left);
    unfold String.ltb; rewrite (String.compare_antisym sa sb);
    by destruct (String.compare sb sa).
Qed.

Lemma key_lt_negtrans a b c :
  key_lt b a = false → key_lt c b = false → key_lt c a = false.
Proof.
  rewrite !key_lt_false.
  intros [[??]|[? Hab]] [[??]|[? Hbc]]; try (left; split; congruence).
  right. split; [congruence|]. by etrans.
Qed.

(** ** The catalogue scan *)

Lemma foldl_discover_step fs dst sa exts ps acc :
  foldl (discover_step fs dst sa exts) acc ps =
  acc ++ omap (discovered fs dst sa exts) ps.
Proof.
  revert acc. induction ps as [|p ps IH]; intros acc; simpl.
  - by rewrite app_nil_r.
  - rewrite IH. unfold discover_step, discovered.
    destruct (Path.is_file fs p).
    + destruct (sa || _); [by rewrite <-app_assoc|done].
    + destruct (Path.is_dir fs p); [by rewrite <-app_assoc|done].
Qed.

Lemma discovered_Some fs dst sa exts p m :
  discovered fs dst sa exts p = Some m →
  name m = Path.name p ∧ src m = p ∧ dest m = dst ++ [Path.name p] ∧
  installed m = dest_present fs (dst ++ [Path.name p]) ∧
  is_dir m = negb (Path.is_file fs p) ∧
  is_dir m = Path.is_dir fs p ∧
  Path.exists_ fs p = true.
Proof.
  unfold discovered.
  destruct (Path.is_file fs p) eqn:Hf.
  - destruct (sa || _); [|done]. intros [= <-]. simpl.
    repeat split; [|by apply is_file_exists].
    revert Hf. unfold Path.is_file, Path.is_dir.
    by destruct (stat fs p) as [[? []]|].
  - destruct (Path.is_dir fs p) eqn:Hd; [|done]. intros [= <-]. simpl.
    repeat split. by apply is_dir_exists.
Qed.

Lemma name_snoc (d : path) n : Path.name (d ++ [n]) = n.
Proof. apply last_last. Qed.

Lemma elem_of_scan_order fs src_dir d p :
  p ∈ scan_order fs src_dir d ↔ ∃ n, p = src_dir ++ [n] ∧ n ∈ children fs d.
Proof. unfold scan_order. by rewrite elem_of_sorted, list_elem_of_fmap. Qed.

(** The three ways a scan can go: the source is not there, it is there but
    cannot be listed, or it resolves to a directory whose children are
    taken in scan order. *)
Lemma discover_mods_absent cfg fs :
  stat fs (mods_source_dir cfg) = None → discover_mods cfg fs = inr [].
Proof.
  intros H. unfold discover_mods.
  destruct (parse_extensions cfg) as [sa exts].
  apply not_exists_stat in H. by rewrite H.
Qed.

Lemma discover_mods_dir cfg fs d :
  stat fs (mods_source_dir cfg) = Some (d, Dir) →
  discover_mods cfg fs =
  inr (omap (discovered fs (game_mods_dir cfg)
               (parse_extensions cfg).1 (parse_extensions cfg).2)
         (scan_order fs (mods_source_dir cfg) d)).
Proof.
  intros H. unfold discover_mods, scan_order.
  destruct (parse_extensions cfg) as [sa exts]. simpl.
  assert (Path.exists_ fs (mods_source_dir cfg) = true) as ->
    by (apply exists_stat; eauto).
  simpl. unfold iterdir, listdir. rewrite H.
  by rewrite foldl_discover_step.
Qed.

Lemma discover_mods_inr cfg fs items :
  discover_mods cfg fs = inr items →
  (stat fs (mods_source_dir cfg) = None ∧ items = []) ∨
  ∃ d, stat fs (mods_source_dir cfg) = Some (d, Dir) ∧
       items = omap (discovered fs (game_mods_dir cfg)
                       (parse_extensions cfg).1 (parse_extensions cfg).2)
                 (scan_order fs (mods_source_dir cfg) d).
Proof.
  destruct (stat fs (mods_source_dir cfg)) as [[d nd]|] eqn:Hs.
  - destruct (decide (nd = Dir)) as [->|Hnd].
    + rewrite (discover_mods_dir _ _ _ Hs). intros [= <-]. right. eauto.
    + unfold discover_mods. destruct (parse_extensions cfg) as [sa exts].
      assert (Path.exists_ fs (mods_source_dir cfg) = true) as ->
        by (apply exists_stat; eauto).
      simpl. unfold iterdir, listdir. rewrite Hs. by destruct nd.
  - rewrite (discover_mods_absent _ _ Hs). intros [= <-]. by left.
Qed.

(** Every entry of the catalogue stems from a child of the source
    directory that the loop kept. *)
Lemma elem_of_discover cfg fs items m :
  discover_mods cfg fs = inr items →
  m ∈ items →
  ∃ p, discovered fs (game_mods_dir cfg)
         (parse_extensions cfg).1 (parse_extensions cfg).2 p = Some m.
Proof.
  intros [[_ ->]|(d & _ & ->)]%discover_mods_inr Hm.
  - by apply elem_of_nil in Hm.
  - apply list_elem_of_omap in Hm as (p & _ & Hp). eauto.
Qed.

(** ** Absent and empty sources *)



(** ** Derived state *)

(** C1: for every entry [m] of the catalogue, [m.dest] is the destination
    directory joined with [m.name]; [m.installed] holds iff some entry, a
    dangling link included, is found at that place, and fails iff nothing is
    found there; the entry counts as broken iff it is installed and its
    source does not resolve; and [list_broken_links] returns, in catalogue
    order, exactly the entries with something at the destination and a
    source that does not resolve. *)
Theorem discover_state cfg fs items :
  discover_mods cfg fs = inr items →
  (∀ m, m ∈ items →
     dest m = game_mods_dir cfg ++ [name m] ∧
     (installed m = true ↔ is_Some (lstat fs (game_mods_dir cfg ++ [name m]))) ∧
     (is_broken fs m = true ↔
        is_Some (lstat fs (game_mods_dir cfg ++ [name m])) ∧
        stat fs (src m) = None) ∧
     (installed m = false ↔ lstat fs (game_mods_dir cfg ++ [name m]) = None)) ∧
  list_broken_links cfg fs =
    inr (filter (λ m, is_Some (lstat fs (game_mods_dir cfg ++ [name m])) ∧
                      stat fs (src m) = None) items).
Proof.
  intros Hd.
  assert (∀ m, m ∈ items →
     dest m = game_mods_dir cfg ++ [name m] ∧
     installed m = dest_present fs (game_mods_dir cfg ++ [name m])) as Hm.
  { intros m Hin. destruct (elem_of_discover _ _ _ _ Hd Hin) as [p Hp].
    apply discovered_Some in Hp as (-> & _ & -> & -> & _). done. }
  split.
  - intros m Hin. destruct (Hm m Hin) as [Hdest Hinst].
    split; [done|]. unfold is_broken. rewrite Hinst.
    rewrite andb_true_iff, negb_true_iff, not_exists_stat.
    rewrite dest_present_lstat, dest_absent_lstat. done.
  - unfold list_broken_links. rewrite Hd. f_equal.
    clear Hd. induction items as [|m items IH]; [done|].
    rewrite !filter_cons.
    rewrite IH by (intros ??; apply Hm; by right).
    destruct (Hm m) as [_ Hinst]; [by left|].
    assert (is_broken fs m = true ↔
            is_Some (lstat fs (game_mods_dir cfg ++ [name m])) ∧
            stat fs (src m) = None) as Hiff.
    { unfold is_broken. rewrite Hinst.
      by rewrite andb_true_iff, negb_true_iff, not_exists_stat,
        dest_present_lstat. }
    repeat case_decide; tauto.
Qed.

Lemma discover_state_witness :
  (∀ m, m ∈ [item_ModA; item_modb] →
     dest m = game_mods_dir cfg_esp ++ [name m] ∧
     (installed m = true ↔
        is_Some (lstat fs_two (game_mods_dir cfg_esp ++ [name m]))) ∧
     (is_broken fs_two m = true ↔
        is_Some (lstat fs_two (game_mods_dir cfg_esp ++ [name m])) ∧
        stat fs_two (src m) = None) ∧
     (installed m = false ↔
        lstat fs_two (game_mods_dir cfg_esp ++ [name m]) = None)) ∧
  list_broken_links cfg_esp fs_two =
    inr (filter (λ m, is_Some (lstat fs_two (game_mods_dir cfg_esp ++ [name m])) ∧
                      stat fs_two (src m) = None) [item_ModA; item_modb]).
Proof. apply discover_state. vm_compute. reflexivity. Defined.

(** ** The link primitives *)

Lemma mklink_occupied is_windows run src_ dest_ fs :
  is_Some (lstat fs dest_) →
  mklink is_windows run src_ dest_ fs =
    (fs, (false, "Target already exists: " +:+ path_str dest_)).
Proof.
  intros H%dest_present_lstat. unfold mklink.
  unfold dest_present in H. by rewrite H.
Qed.

Lemma mklink_source_missing is_windows run src_ dest_ fs :
  lstat fs dest_ = None → stat fs src_ = None →
  mklink is_windows run src_ dest_ fs =
    (fs, (false, "Source not found: " +:+ path_str src_)).
Proof.
  intros H%dest_absent_lstat Hs%not_exists_stat. unfold mklink.
  unfold dest_present in H. by rewrite H, Hs.
Qed.

(** C6: [mklink] first tests the destination and reports "Target already
    exists" whenever an entry, a dangling link included, is found there; only
    when nothing is found there does a source that does not resolve lead to
    "Source not found"; so with both defects the first report is given.  The
    filesystem is left as it was in both cases, on either platform. *)
Theorem mklink_precondition_order is_windows run src_ dest_ fs :
  (is_Some (lstat fs dest_) →
     mklink is_windows run src_ dest_ fs =
     (fs, (false, "Target already exists: " +:+ path_str dest_))) ∧
  (lstat fs dest_ = None → stat fs src_ = None →
     mklink is_windows run src_ dest_ fs =
     (fs, (false, "Source not found: " +:+ path_str src_))) ∧
  (is_Some (lstat fs dest_) → stat fs src_ = None →
     mklink is_windows run src_ dest_ fs =
     (fs, (false, "Target already exists: " +:+ path_str dest_))).
Proof.
  split; [|split].
  - apply mklink_occupied.
  - apply mklink_source_missing.
  - intros H _. by apply mklink_occupied.
Qed.

Lemma mklink_precondition_order_witness :
  mklink false no_tool ["mods"; "Gone"] ["game"; "ModA"] fs_dangling =
  (fs_dangling, (false, "Target already exists: /game/ModA")) ∧
  mklink false no_tool ["mods"; "Gone"] ["game"; "Other"] fs_dangling =
  (fs_dangling, (false, "Source not found: /mods/Gone")).
Proof.
  pose proof (mklink_precondition_order false no_tool
                ["mods"; "Gone"] ["game"; "ModA"] fs_dangling) as (_ & _ & H3).
  pose proof (mklink_precondition_order false no_tool
                ["mods"; "Gone"] ["game"; "Other"] fs_dangling) as (_ & H2 & _).
  split.
  - apply H3; vm_compute; eauto.
  - apply H2; vm_compute; reflexivity.
Defined.

(** What [lstat] finds, other than the root, is stored where it says. *)
Lemma lstat_lookup fs p k nd :
  lstat fs p = Some (k, nd) → nd ≠ Dir → fs !! k = Some nd.
Proof.
  destruct p as [|n q _] using rev_ind.
  - intros [= <- <-]. done.
  - rewrite lstat_snoc. unfold lookup_in.
    destruct (stat fs q) as [[d []]|]; try done.
    destruct (fs !! (d ++ [n])) as [nd'|] eqn:Hk; [|done].
    intros [= <- <-]. done.
Qed.

Lemma unlink_path_absent p fs :
  lstat fs p = None → unlink_path p fs = (fs, (false, "Already removed")).
Proof.
  intros H. pose proof (lstat_stat fs p) as Hs. rewrite H in Hs. simpl in Hs.
  unfold unlink_path, Path.exists_, Path.is_symlink. rewrite H, Hs.
  by rewrite bool_decide_false by (by intros [? ?]).
Qed.

Lemma unlink_path_present p fs r :
  lstat fs p = Some r →
  unlink_path p fs =
    if Path.is_dir fs p && negb (Path.is_symlink fs p) then
      match os_rmdir p fs with
      | inl _ => (fs, (false, "Not a link or not empty"))
      | inr fs' => (fs', (true, "OK"))
      end
    else
      match os_unlink p fs with
      | inl e => (fs, (false, exn_str e))
      | inr fs' => (fs', (true, "OK"))
      end.
Proof.
  intros H. unfold unlink_path.
  assert (dest_present fs p = true) as Hp by (apply dest_present_lstat; eauto).
  unfold dest_present in Hp. apply orb_true_iff in Hp as [->| ->]; [done|].
  by rewrite andb_false_r.
Qed.

Lemma unlink_path_real_dir p fs k :
  lstat fs p = Some (k, Dir) →
  unlink_path p fs =
    match k, children fs k with
    | _ :: _, [] => (delete k fs, (true, "OK"))
    | _, _ => (fs, (false, "Not a link or not empty"))
    end.
Proof.
  intros H. rewrite (unlink_path_present _ _ _ H).
  assert (Path.is_dir fs p && negb (Path.is_symlink fs p) = true) as ->
    by (apply real_dir_lstat; eauto).
  unfold os_rmdir. rewrite H. destruct k; [done|].
  by destruct (children fs _).
Qed.

Lemma unlink_path_other p fs k nd :
  lstat fs p = Some (k, nd) → nd ≠ Dir →
  unlink_path p fs = (delete k fs, (true, "OK")).
Proof.
  intros H Hnd. rewrite (unlink_path_present _ _ _ H).
  destruct (Path.is_dir fs p && negb (Path.is_symlink fs p)) eqn:Hreal.
  - apply real_dir_lstat in Hreal as [k' Hk']. congruence.
  - unfold os_unlink. rewrite H. by destruct nd.
Qed.

(** C7: [unlink_path] answers "Already removed" exactly when [lstat] finds
    nothing at the destination, dangling links being found.  On a real
    directory it only tries [rmdir]: a directory with children is answered
    "Not a link or not empty" and the filesystem stays as it was, an empty
    one is removed.  On anything else, a file or a link with or without
    target, the one entry at the destination is deleted and the answer is
    success. *)
Theorem unlink_path_cases p fs :
  ((unlink_path p fs).2 = (false, "Already removed") ↔ lstat fs p = None) ∧
  (lstat fs p = None → (unlink_path p fs).1 = fs) ∧
  (∀ k, lstat fs p = Some (k, Dir) →
     (unlink_path p fs = (fs, (false, "Not a link or not empty")) ∧
      os_rmdir p fs = inl DirectoryNotEmpty) ∨
     (unlink_path p fs = (delete k fs, (true, "OK")) ∧
      os_rmdir p fs = inr (delete k fs) ∧ children fs k = [])) ∧
  (∀ k, lstat fs p = Some (k, Dir) → children fs k ≠ [] →
     unlink_path p fs = (fs, (false, "Not a link or not empty"))) ∧
  (∀ k nd, lstat fs p = Some (k, nd) → nd ≠ Dir →
     fs !! k = Some nd ∧ unlink_path p fs = (delete k fs, (true, "OK"))).
Proof.
  split; [|split; [|split; [|split]]].
  - split.
    + destruct (lstat fs p) as [[k nd]|] eqn:H; [|done].
      destruct (decide (nd = Dir)) as [->|Hnd].
      * rewrite (unlink_path_real_dir _ _ _ H).
        destruct k; [done|]. by destruct (children fs _).
      * by rewrite (unlink_path_other _ _ _ _ H Hnd).
    + intros H. by rewrite (unlink_path_absent _ _ H).
  - intros H. by rewrite (unlink_path_absent _ _ H).
  - intros k H. rewrite (unlink_path_real_dir _ _ _ H).
    unfold os_rmdir. rewrite H.
    destruct k; [by left|]. destruct (children fs _); [by right|by left].
  - intros k H Hne. rewrite (unlink_path_real_dir _ _ _ H).
    destruct k; [done|]. by destruct (children fs _).
  - intros k nd H Hnd. split; [by eapply lstat_lookup|].
    by eapply unlink_path_other.
Qed.

Lemma unlink_path_cases_witness :
  unlink_path ["game"; "Real"] fs_real_dir =
    (fs_real_dir, (false, "Not a link or not empty")) ∧
  unlink_path ["game"; "ModA"] fs_dangling =
    (delete ["game"; "ModA"] fs_dangling, (true, "OK")).
Proof.
  pose proof (unlink_path_cases ["game"; "Real"] fs_real_dir)
    as (_ & _ & _ & H4 & _).
  pose proof (unlink_path_cases ["game"; "ModA"] fs_dangling)
    as (_ & _ & _ & _ & H5).
  split.
  - apply (H4 ["game"; "Real"]); vm_compute; [reflexivity|discriminate].
  - apply (H5 ["game"; "ModA"] (Link ["mods"; "Gone"]));
      vm_compute; [reflexivity|discriminate].
Defined.

(** ** Saving a preset *)

(** With a writable store and a readable source, but no mod installed, the
    save is refused and the stored preset of that name stays as it was. *)
Lemma save_refused_without_io_error :
  writable store_ok = true ∧
  save_preset_from_installed cfg_esp "mine" fs_two store_ok =
    inr (store_ok, (false, "No installed mods to save")).
Proof. split; vm_compute; reflexivity. Qed.

(** C8, amended: when the scan of the catalogue succeeds,
    [save_preset_from_installed] is refused with "No installed mods to save",
    the store untouched, if no mod is installed; otherwise it fails only
    when the store cannot be written, and on success the preset of the given
    name holds the names of the installed mods in catalogue order, replacing
    whatever it held, while every other preset is kept. *)
Theorem save_preset_outcomes cfg name_ fs st inst :
  list_installed_mods cfg fs = inr inst →
  (inst = [] →
     save_preset_from_installed cfg name_ fs st =
       inr (st, (false, "No installed mods to save"))) ∧
  (inst ≠ [] → writable st = false →
     save_preset_from_installed cfg name_ fs st = inl PersistenceError) ∧
  (inst ≠ [] → writable st = true →
     ∃ st' msg,
       save_preset_from_installed cfg name_ fs st = inr (st', (true, msg)) ∧
       load_presets st' !! name_ = Some (name <$> inst) ∧
       ∀ other, other ≠ name_ →
         load_presets st' !! other = load_presets st !! other).
Proof.
  intros Hl. unfold save_preset_from_installed. rewrite Hl.
  split; [|split].
  - intros ->. done.
  - intros Hne Hw. rewrite bool_decide_false by done.
    unfold save_presets. by rewrite Hw.
  - intros Hne Hw. rewrite bool_decide_false by done.
    unfold save_presets. rewrite Hw. eexists _, _. split; [done|].
    unfold load_presets at 1 3. simpl. split.
    + apply lookup_insert_eq.
    + intros other Ho. by rewrite lookup_insert_ne.
Qed.

Lemma save_preset_outcomes_witness :
  ∃ st' msg,
    save_preset_from_installed cfg_esp "mine" fs_linked store_ok =
      inr (st', (true, msg)) ∧
    load_presets st' !! "mine" =
      Some (name <$> [ {| name := "ModA"; src := ["mods"; "ModA"];
                          dest := ["game"; "ModA"]; is_dir := true;
                          installed := true |};
                       {| name := "modb.esp"; src := ["mods"; "modb.esp"];
                          dest := ["game"; "modb.esp"]; is_dir := false;
                          installed := true |} ]) ∧
    ∀ other, other ≠ "mine" →
      load_presets st' !! other = load_presets store_ok !! other.
Proof.
  eapply save_preset_outcomes.
  - vm_compute. reflexivity.
  - discriminate.
  - reflexivity.
Defined.

(** ** The catalogue by name *)

Lemma mods_by_name_snoc items m :
  mods_by_name (items ++ [m]) = <[name m := m]> (mods_by_name items).
Proof. unfold mods_by_name. by rewrite foldl_snoc. Qed.

Lemma mods_by_name_Some items nm m :
  mods_by_name items !! nm = Some m → m ∈ items ∧ name m = nm.
Proof.
  induction items as [|m' items IH] using rev_ind; [done|].
  rewrite mods_by_name_snoc, lookup_insert. case_decide as Hn.
  - intros [= <-]. split; [|done]. apply elem_of_app. right. by left.
  - intros [Hin ?]%IH. split; [|done]. apply elem_of_app. by left.
Qed.

Lemma mods_by_name_None items nm :
  mods_by_name items !! nm = None ↔ ∀ m, m ∈ items → name m ≠ nm.
Proof.
  induction items as [|m' items IH] using rev_ind.
  - split; [|done]. by intros _ m ?%elem_of_nil.
  - rewrite mods_by_name_snoc, lookup_insert. case_decide as Hn.
    + split; [done|]. intros H. destruct (H m'); [|done].
      apply elem_of_app. right. by left.
    + rewrite IH. split.
      * intros H m [?|?%list_elem_of_singleton]%elem_of_app;
          [auto|congruence].
      * intros H m Hin. apply H, elem_of_app. by left.
Qed.

Lemma mods_by_name_unique items nm m :
  NoDup (name <$> items) → m ∈ items → name m = nm →
  mods_by_name items !! nm = Some m.
Proof.
  intros Hnd Hin Hnm.
  destruct (mods_by_name items !! nm) as [m'|] eqn:Hl.
  - apply mods_by_name_Some in Hl as [Hin' Hnm']. f_equal.
    apply list_elem_of_lookup in Hin as [i Hi].
    apply list_elem_of_lookup in Hin' as [j Hj].
    assert (i = j) as ->; [|congruence].
    apply (NoDup_lookup (name <$> items) i j nm Hnd);
      rewrite list_lookup_fmap; [rewrite Hi|rewrite Hj]; simpl; congruence.
  - rewrite mods_by_name_None in Hl. by destruct (Hl m Hin).
Qed.

Lemma elem_of_installed_set items nm :
  nm ∈ installed_set items ↔
  ∃ m, m ∈ items ∧ name m = nm ∧ installed m = true.
Proof.
  unfold installed_set.
  rewrite elem_of_list_to_set, list_elem_of_fmap.
  split.
  - intros (m & -> & [??]%list_elem_of_filter). eauto.
  - intros (m & ? & <- & ?). exists m. split; [done|].
    by apply list_elem_of_filter.
Qed.

(** Names are unique within one scan. *)
Lemma NoDup_omap_inj {A B} (f : A → option B) (l : list A) :
  (∀ x y z, x ∈ l → y ∈ l → f x = Some z → f y = Some z → x = y) →
  NoDup l → NoDup (omap f l).
Proof.
  intros Hinj Hl. induction Hl as [|x l Hx Hl IH]; simpl; [constructor|].
  assert (NoDup (omap f l)) as IH'.
  { apply IH. intros ??? ??. apply Hinj; by right. }
  destruct (f x) as [z|] eqn:Hz; [|done].
  constructor; [|done].
  intros (y & Hy & Hfy)%list_elem_of_omap.
  rewrite (Hinj x y z) in Hx; try done; [by left|by right].
Qed.

Lemma NoDup_children (fs : FS) d : NoDup (children fs d).
Proof.
  unfold children.
  replace (omap (λ kv : path * node, child_name d kv.1) (map_to_list fs))
    with (omap (child_name d) (map_to_list fs).*1).
  - apply NoDup_omap_inj; [|apply NoDup_fst_map_to_list].
    intros k1 k2 n _ _ H1%child_name_Some H2%child_name_Some. congruence.
  - induction (map_to_list fs) as [|[k nd] l IH]; [done|].
    rewrite fmap_cons. simpl. destruct (child_name d k); [f_equal|]; exact IH.
Qed.

Lemma NoDup_scan_order fs src_dir d : NoDup (scan_order fs src_dir d).
Proof.
  unfold scan_order. rewrite sorted_perm.
  apply NoDup_fmap_2; [|apply NoDup_children].
  intros n1 n2 H. by simplify_list_eq.
Qed.

Lemma NoDup_discover_names cfg fs items :
  discover_mods cfg fs = inr items → NoDup (name <$> items).
Proof.
  intros [[_ ->]|(d & _ & ->)]%discover_mods_inr; [constructor|].
  set (f := discovered _ _ _ _).
  replace (name <$> omap f (scan_order fs (mods_source_dir cfg) d))
    with (omap (λ p, name <$> f p) (scan_order fs (mods_source_dir cfg) d)).
  - apply NoDup_omap_inj; [|apply NoDup_scan_order].
    intros p1 p2 n (n1 & -> & _)%elem_of_scan_order
      (n2 & -> & _)%elem_of_scan_order H1 H2.
    destruct (f _) as [m1|] eqn:Hm1 in H1; [|done].
    destruct (f _) as [m2|] eqn:Hm2 in H2; [|done].
    simpl in *. simplify_eq.
    apply discovered_Some in Hm1 as (Hn1 & _).
    apply discovered_Some in Hm2 as (Hn2 & _).
    rewrite name_snoc in Hn1, Hn2. congruence.
  - induction (scan_order _ _ _) as [|p l IH]; [done|].
    simpl. destruct (f p); simpl; [f_equal|]; exact IH.
Qed.

(** ** Toggling a preset *)

(** An entry of the catalogue has a source that resolves, so within one
    scan it is never broken. *)
Lemma discover_not_broken cfg fs items m :
  discover_mods cfg fs = inr items → m ∈ items → is_broken fs m = false.
Proof.
  intros Hd Hin. destruct (elem_of_discover _ _ _ _ Hd Hin) as [p Hp].
  apply discovered_Some in Hp as (_ & Hs & _ & _ & _ & _ & He).
  unfold is_broken. rewrite Hs, He. apply andb_false_r.
Qed.

Lemma all_on_spec cfg fs items mods :
  discover_mods cfg fs = inr items →
  all_on (installed_set items) mods = true ↔
  members_all_installed fs items mods.
Proof.
  intros Hd. unfold all_on, members_all_installed.
  rewrite andb_true_iff, bool_decide_eq_true, forallb_forall.
  apply and_iff_compat_l. split.
  - intros H nm Hnm. apply list_elem_of_In, H in Hnm.
    apply bool_decide_eq_true, elem_of_installed_set in Hnm
      as (m & Hin & ? & ?).
    exists m. repeat split; try done. by eapply discover_not_broken.
  - intros H nm Hnm%list_elem_of_In. apply bool_decide_eq_true.
    apply elem_of_installed_set.
    destruct (H nm Hnm) as (m & ? & ? & ? & _). eauto.
Qed.

(** C3: let [items] be the catalogue and [presets] the presets read at the
    top of the menu loop.  The toggle of a preset reverts it, through
    [deactivate_preset] on the whole preset, iff its member list is not
    empty and every member names an entry of [items] that is installed and
    not broken; in every other case it applies it, through [apply_preset]
    on the whole preset.  An empty or unknown preset is therefore applied,
    which changes nothing, and never reverted. *)
Theorem toggle_preset_decision is_windows run cfg name_ fs st items :
  discover_mods cfg fs = inr items →
  let mods := default [] (load_presets st !! name_) in
  let toggle :=
    toggle_preset is_windows run cfg (load_presets st) (installed_set items)
      name_ in
  (∀ fs', members_all_installed fs items mods →
     toggle fs' st = report_of Deactivated (deactivate_preset cfg name_ fs' st)) ∧
  (∀ fs', ¬ members_all_installed fs items mods →
     toggle fs' st =
       report_of Installed (apply_preset is_windows run cfg name_ fs' st)) ∧
  (members_all_installed fs items mods ↔
     ∃ b, deactivate_preset cfg name_ fs st = inr b ∧
          toggle fs st = inr (Deactivated b)) ∧
  (¬ members_all_installed fs items mods ↔
     ∃ b, apply_preset is_windows run cfg name_ fs st = inr b ∧
          toggle fs st = inr (Installed b)) ∧
  (mods = [] → toggle fs st = inr (Installed (batch_start fs))) ∧
  menu_presets_toggle is_windows run cfg [name_] fs st =
    match toggle fs st with
    | inl e => inl e
    | inr r => inr (world (report_batch r), [r])
    end.
Proof.
  intros Hd mods toggle.
  pose proof (all_on_spec cfg fs items mods Hd) as Hall.
  assert (∀ fs', toggle fs' st =
     if all_on (installed_set items) mods
     then report_of Deactivated (deactivate_preset cfg name_ fs' st)
     else report_of Installed (apply_preset is_windows run cfg name_ fs' st))
    as Ht by done.
  assert (∃ bd, deactivate_preset cfg name_ fs st = inr bd) as [bd Hbd]
    by (unfold deactivate_preset; rewrite Hd; eauto).
  assert (∃ ba, apply_preset is_windows run cfg name_ fs st = inr ba)
    as [ba Hba] by (unfold apply_preset; rewrite Hd; eauto).
  assert (mods = [] → ba = batch_start fs) as Hnil.
  { intros Hm. revert Hba. unfold apply_preset. rewrite Hd. fold mods.
    rewrite Hm. simpl. congruence. }
  split; [|split; [|split; [|split; [|split]]]].
  - intros fs' Hm%Hall. by rewrite Ht, Hm.
  - intros fs' Hm. rewrite Ht.
    destruct (all_on _ _); [|done]. destruct Hm. by apply Hall.
  - rewrite Ht, Hbd, Hba. simpl.
    destruct (all_on _ _).
    + split; [eauto|]. intros _. by apply Hall.
    + split; [by intros ?%Hall|]. by intros (b & _ & [=]).
  - rewrite Ht, Hbd, Hba. simpl.
    destruct (all_on _ _).
    + split; [intros []; by apply Hall|]. by intros (b & _ & [=]).
    + split; [eauto|]. by intros _ ?%Hall.
  - intros Hm. rewrite Ht, Hba. simpl.
    destruct (all_on _ _); [|by rewrite Hnil].
    destruct (proj1 Hall eq_refl) as [? _]. done.
  - unfold menu_presets_toggle. rewrite Hd. simpl. fold toggle.
    by destruct (toggle fs st).
Qed.

Lemma toggle_preset_decision_witness :
  ∃ b, deactivate_preset cfg_esp "both" fs_linked store_both = inr b ∧
       toggle_preset false no_tool cfg_esp (load_presets store_both)
         (installed_set
            [ {| name := "ModA"; src := ["mods"; "ModA"];
                 dest := ["game"; "ModA"]; is_dir := true;
                 installed := true |};
              {| name := "modb.esp"; src := ["mods"; "modb.esp"];
                 dest := ["game"; "modb.esp"]; is_dir := false;
                 installed := true |} ])
         "both" fs_linked store_both = inr (Deactivated b).
Proof.
  eapply (toggle_preset_decision false no_tool cfg_esp "both"
            fs_linked store_both).
  - vm_compute. reflexivity.
  - split; [discriminate|].
    intros nm Hnm. simpl in Hnm.
    apply elem_of_cons in Hnm as [->|Hnm].
    + eexists. split; [apply list_elem_of_here|].
      repeat split; vm_compute; reflexivity.
    + apply list_elem_of_singleton in Hnm as ->.
      eexists. split; [apply list_elem_of_further, list_elem_of_here|].
      repeat split; vm_compute; reflexivity.
Defined.

(** ** Applying a preset *)

Section apply_facts.
Variable is_windows : bool.
Variable run : list string → FS → FS * (pyexn + CompletedProcess).
Variable mods : gmap string ModItem.

Abbreviation step := (apply_preset_step is_windows run mods).

Lemma apply_step_absent b nm :
  mods !! nm = None →
  step b nm =
    {| world := world b; ok := ok b; fail := fail b;
       msgs := msgs b ++ ["Skipped: " +:+ nm +:+ " (not in source)"] |}.
Proof. intros H. unfold apply_preset_step. by rewrite H. Qed.

Lemma apply_step_installed b nm m :
  mods !! nm = Some m → installed m = true → step b nm = b.
Proof. intros H Hi. unfold apply_preset_step. by rewrite H, Hi. Qed.

Lemma apply_step_attempt b nm m fs' success msg :
  mods !! nm = Some m → installed m = false →
  mklink is_windows run (src m) (dest m) (world b) = (fs', (success, msg)) →
  step b nm = count_outcome b fs' nm success msg.
Proof.
  intros H Hi Hm. unfold apply_preset_step, apply_mod. by rewrite H, Hi, Hm.
Qed.

(** A member that is installed in the snapshot contributes nothing,
    wherever and however often it occurs. *)
Lemma apply_loop_drop_installed nm m l b :
  mods !! nm = Some m → installed m = true →
  foldl step b l = foldl step b (filter (λ x, x ≠ nm) l).
Proof.
  intros H Hi. revert b. induction l as [|x l IH]; intros b; [done|].
  rewrite filter_cons. case_decide as Hx; simpl.
  - apply IH.
  - subst x.
    rewrite (apply_step_installed _ _ _ H Hi). apply IH.
Qed.

End apply_facts.

(** C4: [apply_preset] runs its loop over the members in their order with
    the catalogue read once before the loop.  For a name with no entry in
    that catalogue the loop appends the "Skipped ... (not in source)"
    message and leaves both counters; for a name whose entry is installed
    it changes nothing at all, so that such a name can be struck from the
    member list without any effect on counters, messages or filesystem; for
    any other name it calls [mklink] on the entry's source and destination,
    appends the outcome message and counts one success or one failure. *)
Theorem apply_preset_per_name is_windows run cfg name_ fs st items :
  discover_mods cfg fs = inr items →
  let step := apply_preset_step is_windows run (mods_by_name items) in
  let names := default [] (load_presets st !! name_) in
  apply_preset is_windows run cfg name_ fs st =
    inr (foldl step (batch_start fs) names) ∧
  (∀ b l1 nm l2,
     foldl step b (l1 ++ nm :: l2) =
     foldl step (step (foldl step b l1) nm) l2) ∧
  (∀ b nm, (∀ m, m ∈ items → name m ≠ nm) →
     step b nm =
       {| world := world b; ok := ok b; fail := fail b;
          msgs := msgs b ++ ["Skipped: " +:+ nm +:+ " (not in source)"] |}) ∧
  (∀ b m, m ∈ items → installed m = true → step b (name m) = b) ∧
  (∀ b m l, m ∈ items → installed m = true →
     foldl step b l = foldl step b (filter (λ nm, nm ≠ name m) l)) ∧
  (∀ b m, m ∈ items → installed m = false →
     ∃ fs' success msg,
       mklink is_windows run (src m) (dest m) (world b) =
         (fs', (success, msg)) ∧
       step b (name m) =
         {| world := fs';
            ok := ok b + (if success then 1 else 0);
            fail := fail b + (if success then 0 else 1);
            msgs := msgs b ++
              [name m +:+ ": " +:+ (if success then "OK" else "ERR") +:+
               " (" +:+ msg +:+ ")"] |}).
Proof.
  intros Hd step names.
  pose proof (NoDup_discover_names _ _ _ Hd) as Hnd.
  split; [|split; [|split; [|split; [|split]]]].
  - unfold apply_preset. by rewrite Hd.
  - intros b l1 nm l2. by rewrite foldl_app.
  - intros b nm H. apply apply_step_absent. by apply mods_by_name_None.
  - intros b m Hin Hi. eapply apply_step_installed; [|done].
    by apply mods_by_name_unique.
  - intros b m l Hin Hi. eapply apply_loop_drop_installed; [|done].
    by apply mods_by_name_unique.
  - intros b m Hin Hi.
    destruct (mklink is_windows run (src m) (dest m) (world b))
      as [fs' [success msg]] eqn:Hm.
    exists fs', success, msg. split; [done|].
    unfold step.
    rewrite (apply_step_attempt _ _ _ b (name m) m fs' success msg);
      [|by apply mods_by_name_unique|done..].
    unfold count_outcome, outcome_msg.
    destruct success; f_equal; lia.
Qed.

Lemma apply_preset_per_name_witness :
  apply_preset false no_tool cfg_esp "stray" fs_two store_stray =
    inr {| world := fs_linked; ok := 2; fail := 0;
           msgs := ["ModA: OK (OK)"; "Skipped: Gone (not in source)";
                    "modb.esp: OK (OK)"] |}.
Proof.
  assert (discover_mods cfg_esp fs_two = inr [item_ModA; item_modb]) as Hd
    by (vm_compute; reflexivity).
  destruct (apply_preset_per_name false no_tool cfg_esp "stray" fs_two
              store_stray [item_ModA; item_modb] Hd) as [H _].
  rewrite H. vm_compute. reflexivity.
Defined.

(** ** Duplicate members *)

Lemma new_entry_key_snoc fs q n :
  new_entry_key fs (q ++ [n]) =
    match stat fs q with
    | Some (d, Dir) => Some (d ++ [n])
    | _ => None
    end.
Proof.
  unfold new_entry_key, Path.parent. rewrite removelast_last, name_snoc.
  by destruct q.
Qed.

(** A link made by [os.symlink] is an added entry, found at once. *)
Lemma os_symlink_inr src_ dest_ fs fs' :
  os_symlink src_ dest_ fs = inr fs' →
  fs ⊆ fs' ∧ is_Some (lstat fs' dest_).
Proof.
  unfold os_symlink.
  destruct (lstat fs dest_) eqn:Hl; [intros [=]|].
  destruct dest_ as [|n q _] using rev_ind; [intros [=]|].
  rewrite new_entry_key_snoc.
  rewrite lstat_snoc in Hl.
  destruct (stat fs q) as [[d []]|] eqn:Hs; try (intros [=]; fail).
  intros [= Hfs]. subst fs'. simpl in Hl.
  apply fmap_None in Hl.
  pose proof (insert_subseteq fs _ (Link src_) Hl) as Hsub.
  split; [done|].
  exists (d ++ [n], Link src_). rewrite lstat_snoc.
  apply lookup_in_Some; [by eapply stat_mono|apply lookup_insert_eq].
Qed.

Section duplicate_facts.
Variable is_windows : bool.
Variable run : list string → FS → FS * (pyexn + CompletedProcess).
Hypothesis Hplatform : platform_ok is_windows run.
Variable mods : gmap string ModItem.

Abbreviation step' := (apply_preset_step is_windows run mods).

Lemma mklink_keeps src_ dest_ fs p :
  is_Some (lstat fs p) →
  is_Some (lstat (mklink is_windows run src_ dest_ fs).1 p).
Proof.
  intros Hp. unfold mklink.
  destruct (_ || _); [done|]. destruct (negb _); [done|].
  destruct is_windows eqn:Hw.
  - destruct Hplatform as [_ Hk]; [done|].
    specialize (Hk (mklink_cmd (Path.is_dir fs src_) src_ dest_) fs p Hp).
    destruct (run _ fs) as [fs' [e|res]]; [done|].
    by destruct (bool_decide _).
  - destruct (os_symlink src_ dest_ fs) as [e|fs'] eqn:Hs; [done|].
    apply os_symlink_inr in Hs as [Hsub _]. by eapply lstat_mono.
Qed.

Lemma mklink_success_present src_ dest_ fs fs' msg :
  mklink is_windows run src_ dest_ fs = (fs', (true, msg)) →
  is_Some (lstat fs' dest_).
Proof.
  unfold mklink.
  destruct (_ || _); [done|]. destruct (negb _); [done|].
  destruct is_windows eqn:Hw.
  - destruct Hplatform as [Hl _]; [done|].
    destruct (run _ fs) as [fs'' [e|res]] eqn:Hr; [done|].
    case_bool_decide as Hc; [done|]. intros [= <- _].
    eapply Hl; [exact Hr|]. first [done|by apply dec_stable].
  - destruct (os_symlink src_ dest_ fs) as [e|fs''] eqn:Hs; [done|].
    intros [= <- _]. by apply os_symlink_inr in Hs as [_ ?].
Qed.

Lemma apply_step_keeps b nm p :
  is_Some (lstat (world b) p) → is_Some (lstat (world (step' b nm)) p).
Proof.
  intros Hp. unfold apply_preset_step.
  destruct (mods !! nm) as [m|]; [|done].
  destruct (installed m); [done|]. unfold apply_mod.
  pose proof (mklink_keeps (src m) (dest m) (world b) p Hp) as Hk.
  by destruct (mklink _ _ _ _ _) as [fs' [success msg]].
Qed.

Lemma apply_loop_keeps l b p :
  is_Some (lstat (world b) p) → is_Some (lstat (world (foldl step' b l)) p).
Proof.
  revert b. induction l as [|nm l IH]; intros b Hp; [done|].
  simpl. by apply IH, apply_step_keeps.
Qed.

(** An attempt on an occupied destination. *)
Lemma apply_step_occupied b nm m :
  mods !! nm = Some m → installed m = false →
  is_Some (lstat (world b) (dest m)) →
  step' b nm =
    count_outcome b (world b) nm false
      ("Target already exists: " +:+ path_str (dest m)).
Proof.
  intros H Hi Hp. eapply apply_step_attempt; [done..|].
  by apply mklink_occupied.
Qed.

Lemma apply_step_one_more b b' nm :
  one_more_failure b b' → one_more_failure (step' b nm) (step' b' nm).
Proof.
  intros (Hw & Ho & Hf & Hm). unfold apply_preset_step.
  destruct (mods !! nm) as [m|].
  - destruct (installed m); [done|]. unfold apply_mod. rewrite Hw.
    destruct (mklink _ _ _ _ _) as [fs' [[] msg]];
      unfold one_more_failure, count_outcome; simpl;
      rewrite !length_app; simpl; repeat split; lia.
  - unfold one_more_failure. simpl. rewrite !length_app. simpl.
    repeat split; (done || lia).
Qed.

Lemma apply_loop_one_more l b b' :
  one_more_failure b b' →
  one_more_failure (foldl step' b l) (foldl step' b' l).
Proof.
  revert b b'. induction l as [|nm l IH]; intros b b' H; [done|].
  simpl. by apply IH, apply_step_one_more.
Qed.

End duplicate_facts.

(** C10: the catalogue of [apply_preset] is the one read before the loop.
    When a member that it lists as not installed occurs twice, the second
    occurrence is not skipped: [mklink] is called again and its outcome is
    logged and counted.  If the first attempt to link it succeeded, the
    second call answers "Target already exists" and changes nothing, and the
    attempt is logged as an error and counted as one failure.  Against the
    same member list without the second occurrence the batch then ends on
    the same filesystem with the same number of successes, one failure more
    and one message more. *)
Theorem duplicate_member_counted_as_failure
    is_windows run cfg name_ fs st items l1 l2 l3 m :
  platform_ok is_windows run →
  discover_mods cfg fs = inr items →
  load_presets st !! name_ = Some (l1 ++ name m :: l2 ++ name m :: l3) →
  m ∈ items → installed m = false →
  let step := apply_preset_step is_windows run (mods_by_name items) in
  let b0 := foldl step (batch_start fs) l1 in
  let b2 := foldl step (step b0 (name m)) l2 in
  (∃ fs' success msg,
     mklink is_windows run (src m) (dest m) (world b2) =
       (fs', (success, msg)) ∧
     apply_preset is_windows run cfg name_ fs st =
       inr (foldl step (count_outcome b2 fs' (name m) success msg) l3)) ∧
  ∀ fs1 msg,
    mklink is_windows run (src m) (dest m) (world b0) = (fs1, (true, msg)) →
    let b3 :=
      {| world := world b2; ok := ok b2; fail := S (fail b2);
         msgs := msgs b2 ++
           [name m +:+ ": " +:+ "ERR" +:+ " (" +:+
            ("Target already exists: " +:+ path_str (dest m)) +:+ ")"] |} in
    mklink is_windows run (src m) (dest m) (world b2) =
      (world b2, (false, "Target already exists: " +:+ path_str (dest m))) ∧
    step b2 (name m) = b3 ∧
    apply_preset is_windows run cfg name_ fs st = inr (foldl step b3 l3) ∧
    one_more_failure
      (foldl step (batch_start fs) (l1 ++ name m :: l2 ++ l3))
      (foldl step (batch_start fs) (l1 ++ name m :: l2 ++ name m :: l3)).
Proof.
  intros Hplat Hd Hpre Hin Hi step b0 b2.
  assert (mods_by_name items !! name m = Some m) as Hm.
  { apply mods_by_name_unique; [by eapply NoDup_discover_names|done..]. }
  assert (apply_preset is_windows run cfg name_ fs st =
          inr (foldl step (step b2 (name m)) l3)) as Hap.
  { unfold apply_preset. rewrite Hd, Hpre. simpl. f_equal.
    unfold b2, b0. rewrite foldl_app. simpl. by rewrite foldl_app. }
  split.
  - destruct (mklink is_windows run (src m) (dest m) (world b2))
      as [fs' [success msg]] eqn:Hsecond.
    exists fs', success, msg. split; [done|].
    rewrite Hap. do 2 f_equal. by eapply apply_step_attempt.
  - intros fs1 msg Hfirst b3.
    assert (step b0 (name m) = count_outcome b0 fs1 (name m) true msg) as Hb1
      by (by eapply apply_step_attempt).
    assert (is_Some (lstat (world b2) (dest m))) as Hp.
    { unfold b2. apply apply_loop_keeps; [done|]. rewrite Hb1. simpl.
      by eapply mklink_success_present. }
    assert (step b2 (name m) = b3) as Hb3
      by (by apply apply_step_occupied).
    split; [by apply mklink_occupied|]. split; [done|]. split.
    + by rewrite Hap, Hb3.
    + replace (foldl step (batch_start fs) (l1 ++ name m :: l2 ++ l3))
        with (foldl step b2 l3)
        by (unfold b2, b0; rewrite foldl_app; simpl; by rewrite foldl_app).
      replace (foldl step (batch_start fs)
                 (l1 ++ name m :: l2 ++ name m :: l3))
        with (foldl step (step b2 (name m)) l3)
        by (unfold b2, b0; rewrite foldl_app; simpl; by rewrite foldl_app).
      rewrite Hb3.
      apply apply_loop_one_more. unfold one_more_failure, b3. simpl.
      rewrite length_app. simpl. repeat split; lia.
Qed.

Lemma duplicate_member_counted_as_failure_witness :
  ∃ b, apply_preset false no_tool cfg_esp "twice" fs_two store_twice = inr b ∧
       (ok b, fail b, msgs b) =
       (2, 1, ["ModA: OK (OK)"; "modb.esp: OK (OK)";
               "ModA: ERR (Target already exists: /game/ModA)"]).
Proof.
  assert (platform_ok false no_tool) as Hplat by (intros [=]).
  assert (discover_mods cfg_esp fs_two = inr [item_ModA; item_modb]) as Hd
    by (vm_compute; reflexivity).
  assert (load_presets store_twice !! "twice" =
          Some ([] ++ name item_ModA :: ["modb.esp"] ++ name item_ModA :: []))
    as Hpre by (vm_compute; reflexivity).
  assert (item_ModA ∈ [item_ModA; item_modb]) as Hin
    by apply list_elem_of_here.
  assert ((mklink false no_tool (src item_ModA) (dest item_ModA)
             (world (foldl (apply_preset_step false no_tool
                              (mods_by_name [item_ModA; item_modb]))
                       (batch_start fs_two) []))).2.1 = true)
    as Hok by (vm_compute; reflexivity).
  destruct (mklink false no_tool (src item_ModA) (dest item_ModA) _)
    as [fs1 [success msg]] eqn:Hfirst.
  simpl in Hok. subst success.
  destruct (proj2 (duplicate_member_counted_as_failure false no_tool cfg_esp
                     "twice" fs_two store_twice _ _ _ _ item_ModA Hplat Hd
                     Hpre Hin eq_refl) _ _ Hfirst) as (_ & _ & H & _).
  eexists. split; [exact H|]. vm_compute. reflexivity.
Defined.

(** ** Order of the catalogue *)

Lemma omap_StronglySorted {A B} (R : relation A) (R' : relation B)
    (f : A → option B) l :
  (∀ x y a b, R x y → f x = Some a → f y = Some b → R' a b) →
  StronglySorted R l → StronglySorted R' (omap f l).
Proof.
  intros Hf. induction 1 as [|x l Hl IH Hx]; simpl; [constructor|].
  destruct (f x) as [a|] eqn:Ha; [|done].
  constructor; [done|].
  apply Forall_forall. intros b (y & Hy & Hb)%list_elem_of_omap.
  rewrite Forall_forall in Hx. eauto.
Qed.

Lemma catalogue_le_split items :
  StronglySorted catalogue_le items → dirs_before_files items.
Proof.
  induction 1 as [|a l Hl (ds & fl & -> & Hds & Hfl & Sds & Sfl) Ha].
  - exists [], []. repeat split; constructor.
  - destruct (is_dir a) eqn:Hda.
    + exists (a :: ds), fl. repeat split; try done; [by constructor|].
      constructor; [done|].
      apply Forall_app in Ha as [Ha _].
      rewrite Forall_forall in Ha, Hds. apply Forall_forall.
      intros b Hb. destruct (Ha b Hb) as [[_ Hc]|[_ ?]]; [|done].
      rewrite (Hds b Hb) in Hc. done.
    + assert (ds = []) as ->.
      { destruct ds as [|b ds]; [done|].
        apply Forall_cons in Ha as [[[? _]|[Hc _]] _]; [congruence|].
        apply Forall_cons in Hds as [Hb _]. congruence. }
      exists [], (a :: fl). repeat split; try done; [by constructor|].
      constructor; [done|].
      rewrite Forall_forall in Ha. apply Forall_forall.
      intros b Hb. destruct (Ha b Hb) as [[? _]|[_ ?]]; [congruence|done].
Qed.

Lemma discovered_order fs dst sa exts p q a b :
  not_after (discover_key fs) key_lt p q →
  discovered fs dst sa exts p = Some a →
  discovered fs dst sa exts q = Some b →
  catalogue_le a b.
Proof.
  unfold not_after. rewrite key_lt_false. unfold discover_key. simpl.
  intros Hk (Hna & _ & _ & _ & Hda & _)%discovered_Some
    (Hnb & _ & _ & _ & Hdb & _)%discovered_Some.
  unfold catalogue_le, name_le. rewrite Hna, Hnb, Hda, Hdb.
  destruct Hk as [[-> ->]|[-> ?]]; [by left|by right].
Qed.

Lemma discover_sorted cfg fs items :
  discover_mods cfg fs = inr items → StronglySorted catalogue_le items.
Proof.
  intros [[_ ->]|(d & _ & ->)]%discover_mods_inr; [constructor|].
  eapply omap_StronglySorted; [apply discovered_order|].
  apply sorted_sorted; [apply key_lt_asym|apply key_lt_negtrans].
Qed.

(** The scan of the two mods lists the directory before the file, which
    is not the order "files first" and not the list [modb.esp, ModA]. *)
Lemma discover_lists_directory_first :
  discover_mods cfg_esp fs_two = inr [item_ModA; item_modb] ∧
  ¬ files_before_dirs [item_ModA; item_modb] ∧
  discover_mods cfg_esp fs_two ≠ inr [item_modb; item_ModA].
Proof.
  assert (discover_mods cfg_esp fs_two = inr [item_ModA; item_modb]) as Hd
    by (vm_compute; reflexivity).
  split; [done|]. split; [|by rewrite Hd].
  intros (fl & ds & Heq & Hfl & Hds).
  destruct fl as [|a fl].
  - simpl in Heq. subst ds.
    apply Forall_cons in Hds as [_ Hds]. by apply Forall_cons in Hds as [? _].
  - injection Heq as <- _. by apply Forall_cons in Hfl as [? _].
Qed.

(** C2, amended: the list returned by [discover_mods] holds all directory
    entries before all file entries, and within each of the two parts the
    entries follow the order of their lower-cased names; for a source with
    the directory [ModA] and the file [modb.esp] and the filter "esp" the
    list is [ModA] (directory), then [modb.esp] (file). *)
Theorem discover_order cfg fs items :
  (discover_mods cfg fs = inr items → dirs_before_files items) ∧
  discover_mods cfg_esp fs_two = inr [item_ModA; item_modb].
Proof.
  split.
  - intros Hd. by eapply catalogue_le_split, discover_sorted.
  - vm_compute. reflexivity.
Qed.

Lemma discover_order_witness : dirs_before_files [item_ModA; item_modb].
Proof.
  apply (discover_order cfg_esp fs_two). vm_compute. reflexivity.
Defined.

(** ** The extension filter *)

Lemma append_cons c s1 s2 : String c s1 +:+ s2 = String c (s1 +:+ s2).
Proof. done. Qed.

Lemma append_empty_r s : s +:+ "" = s.
Proof.
  induction s as [|c s IH]; [done|]. by rewrite append_cons, IH.
Qed.

Lemma rev_app_rev_app s1 s2 s3 :
  String.rev_app (String.rev_app s1 s2) s3 = String.rev_app s2 (s1 +:+ s3).
Proof.
  revert s2 s3. induction s1 as [|c s1 IH]; intros s2 s3; [done|].
  rewrite append_cons. simpl. by rewrite IH.
Qed.

Lemma rev_rev s : String.rev (String.rev s) = s.
Proof.
  unfold String.rev. rewrite rev_app_rev_app. simpl. apply append_empty_r.
Qed.

Lemma no_blank_rev_app s1 s2 :
  no_blank (String.rev_app s1 s2) = no_blank s1 && no_blank s2.
Proof.
  revert s2. induction s1 as [|c s1 IH]; intros s2; simpl; [done|].
  rewrite IH. simpl. by destruct (Str.isspace c), (no_blank s1).
Qed.

Lemma lstrip_no_blank s : no_blank s = true → Str.lstrip s = s.
Proof. destruct s as [|c s]; simpl; [done|]. by destruct (Str.isspace c). Qed.

Lemma strip_no_blank s : no_blank s = true → Str.strip s = s.
Proof.
  intros H. unfold Str.strip, Str.rstrip. rewrite (lstrip_no_blank s H).
  rewrite lstrip_no_blank; [apply rev_rev|].
  unfold String.rev. rewrite no_blank_rev_app. by rewrite H.
Qed.




Lemma startswith_dot_cons c e :
  Str.startswith "." (String c e) = if ascii_dec "." c then true else false.
Proof.
  unfold Str.startswith. cbn [String.prefix].
  destruct (ascii_dec "." c); [by destruct e|done].
Qed.



(** An entry named after a child of the source is the entry the loop made
    for that child. *)
Lemma discover_child cfg fs d items n m :
  stat fs (mods_source_dir cfg) = Some (d, Dir) →
  discover_mods cfg fs = inr items →
  n ∈ children fs d →
  m ∈ items ∧ name m = n ↔
  discovered fs (game_mods_dir cfg) (parse_extensions cfg).1
    (parse_extensions cfg).2 (mods_source_dir cfg ++ [n]) = Some m.
Proof.
  intros Hs Hd Hn. rewrite (discover_mods_dir _ _ _ Hs) in Hd.
  injection Hd as <-. rewrite list_elem_of_omap. split.
  - intros [(p & Hp & Hm) Hnm].
    apply elem_of_scan_order in Hp as (n' & -> & _).
    pose proof Hm as (Hn' & _)%discovered_Some.
    rewrite name_snoc in Hn'. congruence.
  - intros Hm. split.
    + exists (mods_source_dir cfg ++ [n]). split; [|done].
      apply elem_of_scan_order. eauto.
    + apply discovered_Some in Hm as (-> & _). apply name_snoc.
Qed.

Lemma parse_extensions_show_all cfg :
  (parse_extensions cfg).1 = true ↔
  Str.strip (default "" (mod_extensions cfg)) = "".
Proof.
  unfold parse_extensions. case_bool_decide; simpl; split; done.
Qed.

Lemma elem_of_parse_extensions cfg x :
  Str.strip (default "" (mod_extensions cfg)) ≠ "" →
  x ∈ (parse_extensions cfg).2 ↔
  ∃ e, e ∈ Str.split "," (Str.strip (default "" (mod_extensions cfg))) ∧
       Str.strip e ≠ "" ∧ parse_extension e = x.
Proof.
  intros Hne. unfold parse_extensions. rewrite bool_decide_false by done.
  simpl. rewrite list_elem_of_fmap. split.
  - intros (e & -> & [??]%list_elem_of_filter). eauto.
  - intros (e & ? & ? & <-). exists e. split; [done|].
    by apply list_elem_of_filter.
Qed.


Lemma discovered_file fs dst sa exts p :
  Path.is_file fs p = true →
  discovered fs dst sa exts p =
    if sa || bool_decide (Str.lower (suffix (Path.name p)) ∈ exts) then
      Some {| name := Path.name p; src := p; dest := dst ++ [Path.name p];
              is_dir := false;
              installed := dest_present fs (dst ++ [Path.name p]) |}
    else None.
Proof. intros Hf. unfold discovered. by rewrite Hf. Qed.



(** * Further properties *)

(** ** Links made and removed *)

Lemma filter_none {A} (P : A → Prop) `{!∀ x, Decision (P x)} (l : list A) :
  (∀ x, x ∈ l → ¬ P x) → filter P l = [].
Proof.
  induction l as [|x l IH]; intros Hl; [done|].
  rewrite filter_cons_False by (apply Hl; by left).
  apply IH. intros y ?. apply Hl. by right.
Qed.

(** Where [os.symlink] succeeds and what it leaves. *)
Lemma os_symlink_spec src_ q n fs :
  os_symlink src_ (q ++ [n]) fs =
    match lstat fs (q ++ [n]), stat fs q with
    | None, Some (d, Dir) => inr (<[d ++ [n] := Link src_]> fs)
    | None, _ => inl FileNotFoundError
    | Some _, _ => inl FileExistsError
    end.
Proof.
  unfold os_symlink. rewrite new_entry_key_snoc.
  destruct (lstat fs (q ++ [n])); [done|].
  by destruct (stat fs q) as [[d []]|].
Qed.

Lemma lstat_None_nonempty fs p : lstat fs p = None → p ≠ [].
Proof. intros H ->. by rewrite lstat_root in H. Qed.

Lemma path_snoc (p : path) : p ≠ [] → p = Path.parent p ++ [Path.name p].
Proof. intros H. by apply app_removelast_last. Qed.

Lemma lstat_fresh fs q n d :
  lstat fs (q ++ [n]) = None → stat fs q = Some (d, Dir) →
  fs !! (d ++ [n]) = None.
Proof.
  rewrite lstat_snoc. intros H Hs. rewrite Hs in H. simpl in H.
  by apply fmap_None in H.
Qed.

Lemma lstat_insert_fresh fs q n d nd :
  stat fs q = Some (d, Dir) → fs !! (d ++ [n]) = None →
  lstat (<[d ++ [n] := nd]> fs) (q ++ [n]) = Some (d ++ [n], nd).
Proof.
  intros Hs Hk. rewrite lstat_snoc.
  apply lookup_in_Some; [|apply lookup_insert_eq].
  eapply stat_mono; [|done]. by apply insert_subseteq.
Qed.

(** What [lstat] found at a place is not found after its entry is gone. *)
Lemma lstat_delete fs p k nd :
  lstat fs p = Some (k, nd) → p ≠ [] → lstat (delete k fs) p = None.
Proof.
  destruct p as [|n q _] using rev_ind; [done|]. intros H _.
  rewrite lstat_snoc in H. rewrite lstat_snoc.
  destruct (stat (delete k fs) q) as [[d' nd']|] eqn:Hs'; [|done].
  apply (stat_mono _ fs) in Hs'; [|apply delete_subseteq].
  rewrite Hs' in H. destruct nd'; try done. simpl in *.
  destruct (fs !! (d' ++ [n])) as [x|]; [|done].
  injection H as <- <-. by rewrite lookup_delete_eq.
Qed.

Lemma lstat_nonroot fs p k nd :
  lstat fs p = Some (k, nd) → p ≠ [] → k ≠ [].
Proof.
  destruct p as [|n q _] using rev_ind; [done|]. intros H _.
  rewrite lstat_snoc in H. destruct (stat fs q) as [[d []]|]; try done.
  simpl in H. destruct (fs !! (d ++ [n])); [|done].
  injection H as <- _. by destruct d.
Qed.

(** The POSIX branch of [mklink] in one equation. *)
Lemma mklink_posix run src_ dest_ fs :
  mklink false run src_ dest_ fs =
    match lstat fs dest_ with
    | Some _ => (fs, (false, "Target already exists: " +:+ path_str dest_))
    | None =>
        match stat fs src_ with
        | None => (fs, (false, "Source not found: " +:+ path_str src_))
        | Some _ =>
            match stat fs (Path.parent dest_) with
            | Some (d, Dir) =>
                (<[d ++ [Path.name dest_] := Link src_]> fs, (true, "OK"))
            | _ => (fs, (false, exn_str FileNotFoundError))
            end
        end
    end.
Proof.
  destruct (lstat fs dest_) as [r|] eqn:Hl.
  { apply mklink_occupied. by rewrite Hl. }
  destruct (stat fs src_) as [r|] eqn:Hs.
  2: { by apply mklink_source_missing. }
  unfold mklink.
  assert (dest_present fs dest_ = false) as Hd by (by apply dest_absent_lstat).
  unfold dest_present in Hd. rewrite Hd.
  assert (Path.exists_ fs src_ = true) as -> by (apply exists_stat; eauto).
  simpl.
  pose proof (path_snoc dest_ (lstat_None_nonempty _ _ Hl)) as Hp.
  rewrite Hp at 1. rewrite os_symlink_spec, <-Hp, Hl.
  by destruct (stat fs (Path.parent dest_)) as [[d []]|].
Qed.

(** X1: whenever the scan of the catalogue succeeds, [list_broken_links]
    returns the empty list: an entry is only made for a source that
    resolves, so none of them passes the test for a missing source. *)
Theorem list_broken_links_nothing cfg fs items :
  discover_mods cfg fs = inr items → list_broken_links cfg fs = inr [].
Proof.
  intros Hd. unfold list_broken_links. rewrite Hd. f_equal.
  apply filter_none. intros m Hm.
  by rewrite (discover_not_broken _ _ _ _ Hd Hm).
Qed.

Lemma list_broken_links_nothing_witness :
  list_broken_links cfg_esp fs_dangling = inr [].
Proof.
  eapply list_broken_links_nothing. vm_compute. reflexivity.
Defined.

(** X2: within one scan no two entries of the catalogue share a name, and
    every entry stands for a child of the source directory: its source is
    the source directory joined with its name, its destination the game
    directory joined with its name, and its source resolves. *)
Theorem catalogue_entries_distinct cfg fs items :
  discover_mods cfg fs = inr items →
  NoDup (name <$> items) ∧
  ∀ m, m ∈ items →
    src m = mods_source_dir cfg ++ [name m] ∧
    dest m = game_mods_dir cfg ++ [name m] ∧
    is_Some (stat fs (src m)).
Proof.
  intros Hd. split; [by eapply NoDup_discover_names|].
  intros m Hm.
  destruct (discover_mods_inr _ _ _ Hd) as [[_ ->]|(d & Hs & ->)];
    [by apply elem_of_nil in Hm|].
  apply list_elem_of_omap in Hm as (p & Hp & Hm).
  apply elem_of_scan_order in Hp as (n & -> & _).
  apply discovered_Some in Hm as (-> & -> & -> & _ & _ & _ & He).
  rewrite name_snoc. repeat split. by apply exists_stat.
Qed.

Lemma catalogue_entries_distinct_witness :
  NoDup (name <$> [item_ModA; item_modb]) ∧
  ∀ m, m ∈ [item_ModA; item_modb] →
    src m = mods_source_dir cfg_esp ++ [name m] ∧
    dest m = game_mods_dir cfg_esp ++ [name m] ∧
    is_Some (stat fs_two (src m)).
Proof.
  apply catalogue_entries_distinct. vm_compute. reflexivity.
Defined.

Lemma mklink_unlink_roundtrip run src_ dest_ fs fs' msg :
  mklink false run src_ dest_ fs = (fs', (true, msg)) →
  unlink_path dest_ fs' = (fs, (true, "OK")).
Proof.
  rewrite mklink_posix.
  destruct (lstat fs dest_) as [r|] eqn:Hl; [by intros [=]|].
  destruct (stat fs src_); [|by intros [=]].
  pose proof (path_snoc _ (lstat_None_nonempty _ _ Hl)) as Hd.
  set (q := Path.parent dest_) in *. set (n := Path.name dest_) in *.
  clearbody q n. subst dest_.
  destruct (stat fs q) as [[d []]|] eqn:Hp; try (by intros [=]).
  intros [= <- _].
  pose proof (lstat_fresh _ _ _ _ Hl Hp) as Hk.
  erewrite unlink_path_other; [|by apply lstat_insert_fresh|done].
  by rewrite delete_insert_id.
Qed.

(** X3: on the POSIX branch, uninstalling an entry right after it was
    installed with success gives back the filesystem as it was before. *)
Theorem install_uninstall_roundtrip run m fs fs' msg :
  apply_mod false run m fs = (fs', (true, msg)) →
  deactivate_mod m fs' = (fs, (true, "OK")).
Proof. apply mklink_unlink_roundtrip. Qed.

Lemma install_uninstall_roundtrip_witness :
  ∃ fs', apply_mod false no_tool item_ModA fs_two = (fs', (true, "OK")) ∧
         deactivate_mod item_ModA fs' = (fs_two, (true, "OK")).
Proof.
  assert ((apply_mod false no_tool item_ModA fs_two).2 = (true, "OK")) as H
    by (vm_compute; reflexivity).
  destruct (apply_mod false no_tool item_ModA fs_two) as [fs' r] eqn:Ha.
  simpl in H. subst r. exists fs'. split; [done|].
  by eapply install_uninstall_roundtrip.
Defined.



(** X5: when [unlink_path] answers with success, nothing is found at the
    path afterwards, no entry was added, and a second call answers "Already
    removed" without any effect; when it answers with a failure the
    filesystem is as it was. *)
Theorem unlink_path_effect p fs :
  (∀ fs' msg, unlink_path p fs = (fs', (true, msg)) →
     lstat fs' p = None ∧ fs' ⊆ fs ∧
     unlink_path p fs' = (fs', (false, "Already removed"))) ∧
  (∀ fs' msg, unlink_path p fs = (fs', (false, msg)) → fs' = fs).
Proof.
  assert (∀ fs' msg, unlink_path p fs = (fs', (true, msg)) →
            lstat fs' p = None ∧ fs' ⊆ fs) as Hok.
  { intros fs' msg.
    destruct (lstat fs p) as [[k nd]|] eqn:Hl.
    - destruct (decide (nd = Dir)) as [->|Hnd].
      + rewrite (unlink_path_real_dir _ _ _ Hl).
        destruct k as [|c k]; [by intros [=]|].
        destruct (children fs (c :: k)); [|by intros [=]].
        intros [= <- _]. split; [|apply delete_subseteq].
        eapply lstat_delete; [done|]. intros ->.
        by rewrite lstat_root in Hl.
      + rewrite (unlink_path_other _ _ _ _ Hl Hnd).
        intros [= <- _]. split; [|apply delete_subseteq].
        eapply lstat_delete; [done|]. intros ->.
        rewrite lstat_root in Hl. by injection Hl as _ <-.
    - rewrite (unlink_path_absent _ _ Hl). by intros [=]. }
  split.
  - intros fs' msg H. destruct (Hok _ _ H) as [Hn Hsub].
    repeat split; [done..|]. by apply unlink_path_absent.
  - intros fs' msg.
    destruct (lstat fs p) as [[k nd]|] eqn:Hl.
    + destruct (decide (nd = Dir)) as [->|Hnd].
      * rewrite (unlink_path_real_dir _ _ _ Hl).
        destruct k as [|c k]; [by intros [= <-]|].
        by destruct (children fs (c :: k)); intros [= <-].
      * rewrite (unlink_path_other _ _ _ _ Hl Hnd). by intros [=].
    + rewrite (unlink_path_absent _ _ Hl). by intros [= <-].
Qed.

Lemma unlink_path_effect_witness :
  ∃ fs', unlink_path ["game"; "ModA"] fs_dangling = (fs', (true, "OK")) ∧
         lstat fs' ["game"; "ModA"] = None ∧
         unlink_path ["game"; "ModA"] fs' = (fs', (false, "Already removed")).
Proof.
  assert ((unlink_path ["game"; "ModA"] fs_dangling).2 = (true, "OK")) as H
    by (vm_compute; reflexivity).
  destruct (unlink_path ["game"; "ModA"] fs_dangling) as [fs' r] eqn:Hu.
  simpl in H. subst r. exists fs'. split; [done|].
  destruct (proj1 (unlink_path_effect ["game"; "ModA"] fs_dangling) _ _ Hu)
    as (? & _ & ?). done.
Defined.

(** ** Reverting a preset *)

(** The two ways [unlink_path] can end. *)
Lemma unlink_path_result p fs :
  (∃ msg, unlink_path p fs = (fs, (false, msg))) ∨
  (∃ k nd, lstat fs p = Some (k, nd) ∧ p ≠ [] ∧
           unlink_path p fs = (delete k fs, (true, "OK"))).
Proof.
  destruct (lstat fs p) as [[k nd]|] eqn:Hl.
  - destruct (decide (nd = Dir)) as [->|Hnd].
    + rewrite (unlink_path_real_dir _ _ _ Hl).
      destruct k as [|c k]; [eauto|].
      destruct (children fs (c :: k)); [|eauto].
      right. exists (c :: k), Dir. repeat split. intros ->.
      by rewrite lstat_root in Hl.
    + right. exists k, nd.
      split; [done|]. split; [|exact (unlink_path_other _ _ _ _ Hl Hnd)].
      intros ->. rewrite lstat_root in Hl. by injection Hl as _ <-.
  - left. rewrite (unlink_path_absent _ _ Hl). eauto.
Qed.

Lemma unlink_path_sub p fs : (unlink_path p fs).1 ⊆ fs.
Proof.
  destruct (unlink_path_result p fs) as [[msg ->]|(k & nd & _ & _ & ->)];
    [done|apply delete_subseteq].
Qed.

(** What is found at a place is found there with more entries around, and
    nothing appears at a place when entries are taken away. *)
Lemma lstat_Some_sub (fs fs' : FS) p r :
  fs' ⊆ fs → lstat fs' p = Some r → lstat fs p = Some r.
Proof.
  intros Hsub. destruct p as [|n q _] using rev_ind.
  { by rewrite (lstat_root fs), (lstat_root fs'). }
  rewrite (lstat_snoc fs' q n), (lstat_snoc fs q n).
  destruct (stat fs' q) as [[d nd]|] eqn:Hs; [|done].
  rewrite (stat_mono _ _ _ _ Hsub Hs).
  destruct nd; try done. simpl.
  destruct (fs' !! (d ++ [n])) as [x|] eqn:Hk; [|done].
  by rewrite (lookup_weaken _ _ _ _ Hk Hsub).
Qed.

Lemma lstat_None_sub (fs fs' : FS) p :
  fs' ⊆ fs → lstat fs p = None → lstat fs' p = None.
Proof.
  intros Hsub Hn. destruct (lstat fs' p) as [r|] eqn:Hl; [|done].
  apply (lstat_Some_sub fs) in Hl; [|done]. congruence.
Qed.

Section deactivate_facts.
Variable mods : gmap string ModItem.

Abbreviation dstep := (deactivate_preset_step mods).

Lemma deactivate_step_sub b nm : world (dstep b nm) ⊆ world b.
Proof.
  unfold deactivate_preset_step.
  destruct (mods !! nm) as [m|]; [|done].
  destruct (installed m); [|done]. simpl. unfold deactivate_mod.
  pose proof (unlink_path_sub (dest m) (world b)) as Hs.
  by destruct (unlink_path (dest m) (world b)) as [fs' [success msg]].
Qed.

Lemma deactivate_loop_sub l b : world (foldl dstep b l) ⊆ world b.
Proof.
  revert b. induction l as [|nm l IH]; intros b; [done|]. simpl.
  etrans; [apply IH|apply deactivate_step_sub].
Qed.

Lemma deactivate_step_attempt b nm m fs' success msg :
  mods !! nm = Some m → installed m = true →
  unlink_path (dest m) (world b) = (fs', (success, msg)) →
  dstep b nm = count_outcome b fs' nm success msg.
Proof.
  intros H Hi Hu. unfold deactivate_preset_step, deactivate_mod.
  by rewrite H, Hi, Hu.
Qed.

(** After the turn of an installed member nothing is found at its
    destination, unless a real directory stands there. *)
Lemma deactivate_step_gone b nm m :
  mods !! nm = Some m → installed m = true →
  (∀ k, lstat (world b) (dest m) ≠ Some (k, Dir)) →
  lstat (world (dstep b nm)) (dest m) = None.
Proof.
  intros H Hi Hreal.
  destruct (unlink_path (dest m) (world b)) as [fs' [success msg]] eqn:Hu.
  rewrite (deactivate_step_attempt _ _ _ _ _ _ H Hi Hu). simpl.
  destruct (lstat (world b) (dest m)) as [[k nd]|] eqn:Hl.
  - assert (nd ≠ Dir) as Hnd by (intros ->; by eapply Hreal).
    rewrite (unlink_path_other _ _ _ _ Hl Hnd) in Hu.
    injection Hu as <- _ _. eapply lstat_delete; [done|].
    intros Hd. rewrite Hd, lstat_root in Hl. by injection Hl as _ <-.
  - rewrite (unlink_path_absent _ _ Hl) in Hu. by injection Hu as <- _ _.
Qed.

Lemma deactivate_loop_gone (fs : FS) l b nm m :
  world b ⊆ fs → nm ∈ l →
  mods !! nm = Some m → installed m = true →
  (∀ k, lstat fs (dest m) ≠ Some (k, Dir)) →
  lstat (world (foldl dstep b l)) (dest m) = None.
Proof.
  intros Hsub Hin H Hi Hreal. revert b Hsub.
  induction l as [|x l IH]; intros b Hsub; [by apply elem_of_nil in Hin|].
  simpl. destruct (decide (x = nm)) as [->|Hne].
  - eapply lstat_None_sub; [apply deactivate_loop_sub|].
    apply deactivate_step_gone; [done..|].
    intros k Hk. apply (Hreal k). by eapply lstat_Some_sub.
  - apply IH.
    + apply elem_of_cons in Hin as [?|?]; [congruence|done].
    + etrans; [apply deactivate_step_sub|done].
Qed.

(** An entry that the loop takes away is the one found at the destination
    of an installed member. *)
Lemma deactivate_loop_removed (fs : FS) l b k :
  world b ⊆ fs → is_Some (world b !! k) →
  world (foldl dstep b l) !! k = None →
  ∃ nm m nd, nm ∈ l ∧ mods !! nm = Some m ∧ installed m = true ∧
             lstat fs (dest m) = Some (k, nd).
Proof.
  revert b. induction l as [|x l IH]; intros b Hsub [v Hv] Hk.
  { simpl in Hk. congruence. }
  simpl in Hk.
  destruct (world (dstep b x) !! k) as [v'|] eqn:Hx.
  - destruct (IH (dstep b x)) as (nm & m & nd & Hnm & Hm & Hi & Hl);
      [etrans; [apply deactivate_step_sub|exact Hsub]|eauto|exact Hk|].
    exists nm, m, nd.
    split; [by apply list_elem_of_further|]. split; [exact Hm|].
    split; [exact Hi|exact Hl].
  - revert Hx. unfold deactivate_preset_step.
    destruct (mods !! x) as [m|] eqn:Hm; [|congruence].
    destruct (installed m) eqn:Hi; [|simpl; congruence]. simpl.
    unfold deactivate_mod.
    destruct (unlink_path_result (dest m) (world b))
      as [[msg ->]|(k' & nd & Hl & _ & ->)]; simpl; [congruence|].
    intros Hx. destruct (decide (k' = k)) as [->|Hne].
    + exists x, m, nd.
      split; [apply list_elem_of_here|]. split; [exact Hm|].
      split; [exact Hi|]. exact (lstat_Some_sub _ _ _ _ Hsub Hl).
    + rewrite lookup_delete_ne in Hx by done. congruence.
Qed.

Lemma deactivate_loop_counts l b :
  ok b + fail b = length (msgs b) →
  ok (foldl dstep b l) + fail (foldl dstep b l) =
  length (msgs (foldl dstep b l)).
Proof.
  revert b. induction l as [|x l IH]; intros b Hb; [done|]. simpl.
  apply IH. unfold deactivate_preset_step.
  destruct (mods !! x) as [m|]; [|done].
  destruct (installed m); [|done]. simpl.
  destruct (deactivate_mod m (world b)) as [fs' [[] msg]]; simpl;
    rewrite length_app; simpl; lia.
Qed.

End deactivate_facts.

(** X6: after [deactivate_preset], nothing is found any more at the
    destination of a member that the catalogue lists as installed, unless
    a real directory stood there; dangling links are removed like any other
    link.  The batch takes entries away and adds none. *)
Theorem deactivate_preset_removes_links cfg name_ fs st items b :
  discover_mods cfg fs = inr items →
  deactivate_preset cfg name_ fs st = inr b →
  world b ⊆ fs ∧
  ∀ m, m ∈ items → installed m = true →
    name m ∈ default [] (load_presets st !! name_) →
    (∀ k, lstat fs (dest m) ≠ Some (k, Dir)) →
    lstat (world b) (dest m) = None.
Proof.
  intros Hd. unfold deactivate_preset. rewrite Hd. intros [= <-]. split.
  - apply deactivate_loop_sub.
  - intros m Hin Hi Hnm Hreal.
    eapply deactivate_loop_gone; try done.
    apply mods_by_name_unique; [by eapply NoDup_discover_names|done..].
Qed.

Lemma deactivate_preset_removes_links_witness :
  ∃ b, deactivate_preset cfg_esp "both" fs_linked store_both = inr b ∧
       lstat (world b) ["game"; "ModA"] = None.
Proof.
  assert (discover_mods cfg_esp fs_linked =
          inr [ {| name := "ModA"; src := ["mods"; "ModA"];
                   dest := ["game"; "ModA"]; is_dir := true;
                   installed := true |};
                {| name := "modb.esp"; src := ["mods"; "modb.esp"];
                   dest := ["game"; "modb.esp"]; is_dir := false;
                   installed := true |} ]) as Hd
    by (vm_compute; reflexivity).
  destruct (deactivate_preset cfg_esp "both" fs_linked store_both)
    as [e|b] eqn:Hb.
  { revert Hb. unfold deactivate_preset. rewrite Hd. intros [=]. }
  exists b. split; [done|].
  destruct (deactivate_preset_removes_links _ _ _ _ _ _ Hd Hb) as [_ H].
  apply (H {| name := "ModA"; src := ["mods"; "ModA"];
              dest := ["game"; "ModA"]; is_dir := true;
              installed := true |}).
  - apply list_elem_of_here.
  - reflexivity.
  - vm_compute. apply list_elem_of_here.
  - intros k. vm_compute. discriminate.
Defined.

(** X7: [deactivate_preset] never takes away anything but destination
    entries of its members: an entry that is gone after the batch was the
    one found at the destination of a member of the preset that the
    catalogue lists as installed.  Every attempt is logged once and counted
    once, as a success or as a failure. *)
Theorem deactivate_preset_only_removes_members cfg name_ fs st items b :
  discover_mods cfg fs = inr items →
  deactivate_preset cfg name_ fs st = inr b →
  (∀ k, is_Some (fs !! k) → world b !! k = None →
     ∃ m nd, m ∈ items ∧ installed m = true ∧
             name m ∈ default [] (load_presets st !! name_) ∧
             lstat fs (dest m) = Some (k, nd)) ∧
  ok b + fail b = length (msgs b).
Proof.
  intros Hd. unfold deactivate_preset. rewrite Hd. intros [= <-]. split.
  - intros k Hk Hgone.
    destruct (deactivate_loop_removed _ fs _ (batch_start fs) k
                (reflexivity _) Hk Hgone)
      as (nm & m & nd & Hnm & Hm & Hi & Hl).
    apply mods_by_name_Some in Hm as [Hin <-]. eauto 10.
  - by apply deactivate_loop_counts.
Qed.

Lemma deactivate_preset_only_removes_members_witness :
  ∃ b, deactivate_preset cfg_esp "both" fs_linked store_both = inr b ∧
       ok b + fail b = length (msgs b).
Proof.
  destruct (deactivate_preset cfg_esp "both" fs_linked store_both)
    as [e|b] eqn:Hb.
  { exfalso. revert Hb. vm_compute. discriminate. }
  exists b. split; [done|].
  eapply (deactivate_preset_only_removes_members cfg_esp "both" fs_linked
            store_both); [|exact Hb].
  vm_compute. reflexivity.
Defined.

(** ** A member named twice *)

Section deactivate_more.
Variable mods : gmap string ModItem.

Abbreviation dstep := (deactivate_preset_step mods).

(** The body of the loop looks at the filesystem only. *)
Lemma deactivate_step_one_more b b' nm :
  one_more_failure b b' → one_more_failure (dstep b nm) (dstep b' nm).
Proof.
  intros (Hw & Ho & Hf & Hm). unfold deactivate_preset_step.
  destruct (mods !! nm) as [m|]; [|done].
  destruct (installed m); [|done]. simpl. rewrite Hw.
  destruct (deactivate_mod m (world b)) as [fs' [[] msg]];
    unfold one_more_failure; simpl; rewrite !length_app; simpl;
    repeat split; lia.
Qed.

Lemma deactivate_loop_one_more l b b' :
  one_more_failure b b' →
  one_more_failure (foldl dstep b l) (foldl dstep b' l).
Proof.
  revert b b'. induction l as [|x l IH]; intros b b' H; [done|].
  simpl. apply IH. by apply deactivate_step_one_more.
Qed.

End deactivate_more.

(** X8: [deactivate_preset] looks its members up in the catalogue of the
    one scan made before the loop.  When a member that it lists as installed
    occurs a second time, and no real directory stands at its destination,
    the second attempt finds the link already gone: it changes nothing,
    answers "Already removed" and is logged as an error and counted as a
    failure.  Against the member list without that occurrence the batch
    ends on the same filesystem with one failure and one message more. *)
Theorem deactivate_duplicate_member cfg name_ fs st items l1 l2 m :
  discover_mods cfg fs = inr items →
  load_presets st !! name_ = Some (l1 ++ name m :: l2) →
  m ∈ items → installed m = true → name m ∈ l1 →
  (∀ k, lstat fs (dest m) ≠ Some (k, Dir)) →
  let step := deactivate_preset_step (mods_by_name items) in
  let b1 := foldl step (batch_start fs) l1 in
  let b2 :=
    {| world := world b1; ok := ok b1; fail := S (fail b1);
       msgs := msgs b1 ++
         [name m +:+ ": " +:+ "ERR" +:+ " (" +:+ "Already removed" +:+ ")"] |}
  in
  step b1 (name m) = b2 ∧
  deactivate_preset cfg name_ fs st = inr (foldl step b2 l2) ∧
  one_more_failure
    (foldl step (batch_start fs) (l1 ++ l2))
    (foldl step (batch_start fs) (l1 ++ name m :: l2)).
Proof.
  intros Hd Hpre Hin Hi Hnm Hreal step b1 b2.
  assert (mods_by_name items !! name m = Some m) as Hm.
  { apply mods_by_name_unique; [by eapply NoDup_discover_names|done..]. }
  assert (lstat (world b1) (dest m) = None) as Hgone.
  { unfold b1. eapply deactivate_loop_gone; [|exact Hnm|exact Hm|exact Hi|exact Hreal].
    reflexivity. }
  assert (step b1 (name m) = b2) as Hb2.
  { unfold step.
    erewrite deactivate_step_attempt;
      [|exact Hm|exact Hi|exact (unlink_path_absent _ _ Hgone)].
    reflexivity. }
  split; [exact Hb2|]. split.
  - unfold deactivate_preset. rewrite Hd, Hpre. simpl. f_equal.
    rewrite foldl_app.
    change (foldl step (step b1 (name m)) l2 = foldl step b2 l2).
    by rewrite Hb2.
  - rewrite !foldl_app.
    change (one_more_failure (foldl step b1 l2)
              (foldl step (step b1 (name m)) l2)).
    rewrite Hb2.
    apply deactivate_loop_one_more. unfold one_more_failure, b2. simpl.
    rewrite length_app. simpl. repeat split; lia.
Qed.

Lemma deactivate_duplicate_member_witness :
  ∃ b, deactivate_preset cfg_esp "twice" fs_linked store_twice = inr b ∧
       (ok b, fail b, msgs b) =
       (2, 1, ["ModA: OK (OK)"; "modb.esp: OK (OK)";
               "ModA: ERR (Already removed)"]).
Proof.
  pose (mA := {| name := "ModA"; src := ["mods"; "ModA"];
                 dest := ["game"; "ModA"]; is_dir := true;
                 installed := true |}).
  pose (mb := {| name := "modb.esp"; src := ["mods"; "modb.esp"];
                 dest := ["game"; "modb.esp"]; is_dir := false;
                 installed := true |}).
  assert (discover_mods cfg_esp fs_linked = inr [mA; mb]) as Hd
    by (vm_compute; reflexivity).
  assert (load_presets store_twice !! "twice" =
          Some (["ModA"; "modb.esp"] ++ name mA :: [])) as Hpre
    by (vm_compute; reflexivity).
  destruct (deactivate_duplicate_member cfg_esp "twice" fs_linked store_twice
              [mA; mb] ["ModA"; "modb.esp"] [] mA Hd Hpre)
    as (_ & H & _).
  - apply list_elem_of_here.
  - reflexivity.
  - apply list_elem_of_here.
  - intros k. vm_compute. discriminate.
  - eexists. split; [exact H|]. vm_compute. reflexivity.
Defined.

(** ** Uninstalling a page *)

Lemma py_slice_sublist {A} (l : list A) s e : py_slice l s e `sublist_of` l.
Proof. unfold py_slice. etrans; [apply sublist_take|apply sublist_drop]. Qed.

Lemma filter_items_sublist items q :
  filter_items_by_query items q `sublist_of` items.
Proof.
  unfold filter_items_by_query. case_bool_decide; [done|].
  apply sublist_filter.
Qed.

Lemma shown_sublist items q page :
  page_slice (filter_items_by_query items q) page `sublist_of` items.
Proof. etrans; [apply py_slice_sublist|apply filter_items_sublist]. Qed.

(** The command [a] acts as the loop of [deactivate_preset] does on the
    names of the entries shown. *)
Lemma uninstall_all_loop mods shown b :
  (∀ m, m ∈ shown → mods !! name m = Some m) →
  uninstall_all_shown shown (world b) =
  world (foldl (deactivate_preset_step mods) b (name <$> shown)).
Proof.
  revert b. induction shown as [|m shown IH]; intros b Hm; [done|].
  unfold uninstall_all_shown. simpl.
  assert (world (deactivate_preset_step mods b (name m)) =
          if installed m then (deactivate_mod m (world b)).1 else world b)
    as <-.
  { unfold deactivate_preset_step.
    rewrite (Hm m) by apply list_elem_of_here.
    destruct (installed m); [|done]. simpl.
    by destruct (deactivate_mod m (world b)) as [fs' [success msg]]. }
  apply IH. intros m' ?. apply Hm. by apply list_elem_of_further.
Qed.

(** X9: the command [a] of the mods menu, on the page shown of the
    filtered catalogue: it adds no entry; afterwards nothing is found at the
    destination of an entry of the page that is listed as installed, unless
    a real directory stood there; and an entry of the filesystem that is
    gone was the one found at the destination of an installed entry of the
    page, so that what is off the page or filtered out is left alone. *)
Theorem uninstall_all_shown_effect cfg fs items query page :
  discover_mods cfg fs = inr items →
  let shown := page_slice (filter_items_by_query items query) page in
  let fs' := uninstall_all_shown shown fs in
  fs' ⊆ fs ∧
  (∀ m, m ∈ shown → installed m = true →
     (∀ k, lstat fs (dest m) ≠ Some (k, Dir)) → lstat fs' (dest m) = None) ∧
  (∀ k, is_Some (fs !! k) → fs' !! k = None →
     ∃ m nd, m ∈ shown ∧ installed m = true ∧
             lstat fs (dest m) = Some (k, nd)).
Proof.
  intros Hd shown fs'.
  assert (∀ m, m ∈ shown → mods_by_name items !! name m = Some m) as Hm.
  { intros m Hin. apply mods_by_name_unique;
      [by eapply NoDup_discover_names| |done].
    eapply elem_of_sublist; [exact Hin|apply shown_sublist]. }
  assert (fs' = world (foldl (deactivate_preset_step (mods_by_name items))
                         (batch_start fs) (name <$> shown))) as ->.
  { exact (uninstall_all_loop _ shown (batch_start fs) Hm). }
  split; [apply deactivate_loop_sub|]. split.
  - intros m Hin Hi Hreal.
    eapply deactivate_loop_gone;
      [reflexivity| |exact (Hm m Hin)|exact Hi|exact Hreal].
    apply list_elem_of_fmap. by exists m.
  - intros k Hk Hgone.
    destruct (deactivate_loop_removed _ fs _ (batch_start fs) k
                (reflexivity _) Hk Hgone)
      as (nm & m & nd & Hnm & Hlk & Hi & Hl).
    apply list_elem_of_fmap in Hnm as (m' & -> & Hin').
    rewrite (Hm m' Hin') in Hlk. injection Hlk as <-.
    exists m', nd. split; [exact Hin'|]. split; [exact Hi|exact Hl].
Qed.

Lemma uninstall_all_shown_effect_witness :
  let shown :=
    page_slice
      (filter_items_by_query
         [ {| name := "ModA"; src := ["mods"; "ModA"];
              dest := ["game"; "ModA"]; is_dir := true; installed := true |};
           {| name := "modb.esp"; src := ["mods"; "modb.esp"];
              dest := ["game"; "modb.esp"]; is_dir := false;
              installed := true |} ] "moda") 1 in
  lstat (uninstall_all_shown shown fs_linked) ["game"; "ModA"] = None.
Proof.
  intros shown.
  destruct (uninstall_all_shown_effect cfg_esp fs_linked _ "moda" 1%Z
              ltac:(vm_compute; reflexivity)) as (_ & H & _).
  apply (H {| name := "ModA"; src := ["mods"; "ModA"];
              dest := ["game"; "ModA"]; is_dir := true;
              installed := true |}).
  - vm_compute. apply list_elem_of_here.
  - reflexivity.
  - intros k. vm_compute. discriminate.
Defined.

(** ** Applying a preset where links are made by [os.symlink] *)

(** What the scan records of an entry. *)
Lemma discover_entry cfg fs items m :
  discover_mods cfg fs = inr items → m ∈ items →
  dest m = game_mods_dir cfg ++ [name m] ∧
  installed m = dest_present fs (dest m) ∧
  is_Some (stat fs (src m)).
Proof.
  intros Hd Hin. destruct (elem_of_discover _ _ _ _ Hd Hin) as [p Hp].
  apply discovered_Some in Hp as (Hn & Hs & Hdst & Hi & _ & _ & He).
  rewrite Hdst, Hn, Hs. repeat split; [done|]. by apply exists_stat.
Qed.

Lemma parent_snoc (q : path) n : Path.parent (q ++ [n]) = q.
Proof. apply removelast_last. Qed.

Section posix_facts.
Variable run : list string → FS → FS * (pyexn + CompletedProcess).
Variable mods : gmap string ModItem.

Abbreviation pstep := (apply_preset_step false run mods).

(** The two ways a turn of the loop can end: without any change to the
    filesystem and to the count of successes, or with one counted success
    and one link added where nothing was. *)
Lemma apply_step_posix b nm :
  (world (pstep b nm) = world b ∧ ok (pstep b nm) = ok b ∧
   fail b ≤ fail (pstep b nm)) ∨
  (∃ m d, mods !! nm = Some m ∧ installed m = false ∧
          lstat (world b) (dest m) = None ∧
          is_Some (stat (world b) (src m)) ∧
          stat (world b) (Path.parent (dest m)) = Some (d, Dir) ∧
          world b !! (d ++ [Path.name (dest m)]) = None ∧
          pstep b nm =
            count_outcome b
              (<[d ++ [Path.name (dest m)] := Link (src m)]> (world b))
              nm true "OK").
Proof.
  unfold apply_preset_step.
  destruct (mods !! nm) as [m|] eqn:Hm; [|left; simpl; auto].
  destruct (installed m) eqn:Hi; [left; auto|].
  unfold apply_mod. rewrite mklink_posix.
  destruct (lstat (world b) (dest m)) as [r|] eqn:Hl;
    [left; simpl; auto|].
  destruct (stat (world b) (src m)) as [r|] eqn:Hs;
    [|left; simpl; auto].
  destruct (stat (world b) (Path.parent (dest m))) as [[d nd]|] eqn:Hp;
    [|left; simpl; auto].
  destruct nd; try (left; simpl; auto; fail).
  right. exists m, d.
  split; [reflexivity|]. split; [exact Hi|]. split; [exact Hl|].
  split; [eauto|]. split; [exact Hp|]. split; [|reflexivity].
  pose proof (path_snoc _ (lstat_None_nonempty _ _ Hl)) as Hd.
  rewrite Hd in Hl. exact (lstat_fresh _ _ _ _ Hl Hp).
Qed.

Lemma apply_step_sub b nm : world b ⊆ world (pstep b nm).
Proof.
  destruct (apply_step_posix b nm)
    as [(-> & _)|(m & d & _ & _ & _ & _ & _ & Hk & ->)]; [done|].
  simpl. by apply insert_subseteq.
Qed.

Lemma apply_loop_sub l b : world b ⊆ world (foldl pstep b l).
Proof.
  revert b. induction l as [|nm l IH]; intros b; [done|]. simpl.
  etrans; [apply apply_step_sub|apply IH].
Qed.

Lemma apply_loop_size l b :
  size (world (foldl pstep b l)) + ok b = size (world b) + ok (foldl pstep b l).
Proof.
  revert b. induction l as [|nm l IH]; intros b; [done|]. simpl.
  specialize (IH (pstep b nm)).
  destruct (apply_step_posix b nm)
    as [(Hw & Ho & _)|(m & d & _ & _ & _ & _ & _ & Hk & Hb)].
  - rewrite Hw, Ho in IH. exact IH.
  - rewrite Hb in IH. simpl in IH.
    rewrite map_size_insert_None in IH by exact Hk. rewrite Hb. lia.
Qed.

Lemma apply_loop_counts l b :
  ok b + fail b ≤ length (msgs b) →
  ok (foldl pstep b l) + fail (foldl pstep b l) ≤
  length (msgs (foldl pstep b l)).
Proof.
  revert b. induction l as [|x l IH]; intros b Hb; [done|]. simpl.
  apply IH. unfold apply_preset_step.
  destruct (mods !! x) as [m|]; [|simpl; rewrite length_app; simpl; lia].
  destruct (installed m); [done|].
  destruct (apply_mod false run m (world b)) as [fs' [[] msg]]; simpl;
    rewrite length_app; simpl; lia.
Qed.

(** An entry that the loop adds is the link to the source of a member that
    was not installed, found at its destination. *)
Lemma apply_loop_added l b k nd :
  world b !! k = None → world (foldl pstep b l) !! k = Some nd →
  ∃ nm m, nm ∈ l ∧ mods !! nm = Some m ∧ installed m = false ∧
          nd = Link (src m) ∧
          lstat (world (foldl pstep b l)) (dest m) = Some (k, nd).
Proof.
  revert b. induction l as [|x l IH]; intros b Hk Hnd.
  { simpl in Hnd. congruence. }
  simpl in Hnd. simpl.
  destruct (world (pstep b x) !! k) as [nd'|] eqn:Hx.
  - destruct (apply_step_posix b x)
      as [(Hw & _)|(m & d & Hm & Hi & Hl & Hs & Hp & Hfresh & Hb)].
    { rewrite Hw in Hx. congruence. }
    assert (k = d ++ [Path.name (dest m)] ∧ nd' = Link (src m)) as [-> ->].
    { rewrite Hb in Hx. simpl in Hx.
      destruct (decide (d ++ [Path.name (dest m)] = k)) as [<-|Hne].
      - rewrite lookup_insert_eq in Hx. by injection Hx as <-.
      - rewrite lookup_insert_ne in Hx by done. congruence. }
    assert (nd = Link (src m)) as ->.
    { pose proof (lookup_weaken _ _ _ _ Hx (apply_loop_sub l (pstep b x))).
      congruence. }
    exists x, m. split; [apply list_elem_of_here|].
    split; [exact Hm|]. split; [exact Hi|]. split; [done|].
    apply (lstat_Some_sub _ (world (pstep b x))); [apply apply_loop_sub|].
    rewrite Hb. simpl.
    pose proof (path_snoc _ (lstat_None_nonempty _ _ Hl)) as Hd.
    rewrite Hd at 2.
    exact (lstat_insert_fresh _ _ _ _ _ Hp Hfresh).
  - destruct (IH (pstep b x) Hx Hnd) as (nm & m & Hnm & Hm & Hi & Hn & Hl).
    exists nm, m. split; [by apply list_elem_of_further|].
    split; [exact Hm|]. split; [exact Hi|]. split; [exact Hn|exact Hl].
Qed.

End posix_facts.

(** X10: where links are made by [os.symlink], [apply_preset] never
    removes or replaces an entry.  Every entry it adds is a link to the
    source of a member of the preset that the catalogue lists as not
    installed, and is what is then found at that member's destination; the
    number of entries added is the number of successes counted; and no
    attempt is counted without a message. *)
Theorem apply_preset_only_adds_links run cfg name_ fs st items b :
  discover_mods cfg fs = inr items →
  apply_preset false run cfg name_ fs st = inr b →
  fs ⊆ world b ∧
  size (world b) = size fs + ok b ∧
  ok b + fail b ≤ length (msgs b) ∧
  ∀ k nd, fs !! k = None → world b !! k = Some nd →
    ∃ m, m ∈ items ∧ installed m = false ∧
         name m ∈ default [] (load_presets st !! name_) ∧
         nd = Link (src m) ∧ lstat (world b) (dest m) = Some (k, nd).
Proof.
  intros Hd. unfold apply_preset. rewrite Hd. intros [= <-].
  split; [apply (apply_loop_sub _ _ _ (batch_start fs))|].
  split.
  { pose proof (apply_loop_size run (mods_by_name items)
                  (default [] (load_presets st !! name_)) (batch_start fs))
      as H. simpl in H. lia. }
  split; [apply apply_loop_counts; simpl; lia|].
  intros k nd Hk Hnd.
  destruct (apply_loop_added run (mods_by_name items) _ (batch_start fs)
              k nd Hk Hnd) as (nm & m & Hnm & Hm & Hi & Hn & Hl).
  apply mods_by_name_Some in Hm as [Hin <-].
  exists m. split; [exact Hin|]. split; [exact Hi|].
  split; [exact Hnm|]. split; [exact Hn|exact Hl].
Qed.

Lemma apply_preset_only_adds_links_witness :
  ∃ b, apply_preset false no_tool cfg_esp "both" fs_two store_both = inr b ∧
       fs_two ⊆ world b ∧ size (world b) = size fs_two + ok b.
Proof.
  destruct (apply_preset false no_tool cfg_esp "both" fs_two store_both)
    as [e|b] eqn:Hb.
  { exfalso. revert Hb. vm_compute. discriminate. }
  exists b. split; [done|].
  destruct (apply_preset_only_adds_links no_tool cfg_esp "both" fs_two
              store_both [item_ModA; item_modb] b) as (H1 & H2 & _).
  - vm_compute. reflexivity.
  - exact Hb.
  - split; [exact H1|exact H2].
Defined.

Section posix_install.
Variable run : list string → FS → FS * (pyexn + CompletedProcess).
Variable mods : gmap string ModItem.
Variable g d : path.

Abbreviation istep := (apply_preset_step false run mods).

Lemma posix_platform_ok : platform_ok false run.
Proof. intros [=]. Qed.

(** The turn of a member that is not installed, when its source resolves
    and its destination is a free name in the game directory. *)
Lemma apply_step_fresh b nm m :
  mods !! nm = Some m → installed m = false →
  dest m = g ++ [nm] →
  stat (world b) g = Some (d, Dir) →
  lstat (world b) (dest m) = None →
  is_Some (stat (world b) (src m)) →
  world b !! (d ++ [nm]) = None ∧
  istep b nm =
    count_outcome b (<[d ++ [nm] := Link (src m)]> (world b)) nm true "OK".
Proof.
  intros Hm Hi Hd Hg Hl [r Hs].
  assert (world b !! (d ++ [nm]) = None) as Hk.
  { rewrite Hd in Hl. exact (lstat_fresh _ _ _ _ Hl Hg). }
  split; [exact Hk|].
  eapply apply_step_attempt; [exact Hm|exact Hi|].
  rewrite mklink_posix, Hl, Hs, Hd, parent_snoc, Hg, name_snoc.
  reflexivity.
Qed.

Lemma apply_loop_present l b nm m :
  nm ∈ l → mods !! nm = Some m → installed m = false →
  dest m = g ++ [nm] →
  stat (world b) g = Some (d, Dir) →
  is_Some (stat (world b) (src m)) →
  is_Some (lstat (world (foldl istep b l)) (dest m)).
Proof.
  intros Hin Hm Hi Hd. revert b.
  induction l as [|x l IH]; intros b Hg Hs;
    [exfalso; exact (not_elem_of_nil _ Hin)|].
  simpl. destruct (decide (x = nm)) as [->|Hne].
  - apply (apply_loop_keeps false run posix_platform_ok).
    destruct (lstat (world b) (dest m)) as [r|] eqn:Hl.
    + apply (apply_step_keeps false run posix_platform_ok).
      rewrite Hl. eauto.
    + destruct (apply_step_fresh b nm m Hm Hi Hd Hg Hl Hs) as [Hk ->].
      simpl. rewrite Hd. eexists.
      exact (lstat_insert_fresh _ _ _ _ _ Hg Hk).
  - apply IH.
    + apply elem_of_cons in Hin as [?|?]; [congruence|done].
    + eapply stat_mono; [apply apply_step_sub|exact Hg].
    + destruct Hs as [r Hs]. exists r.
      eapply stat_mono; [apply apply_step_sub|exact Hs].
Qed.

Lemma apply_loop_no_failure l b :
  NoDup l →
  stat (world b) g = Some (d, Dir) →
  (∀ nm m, nm ∈ l → mods !! nm = Some m → installed m = false →
     dest m = g ++ [nm] ∧ lstat (world b) (dest m) = None ∧
     is_Some (stat (world b) (src m))) →
  fail (foldl istep b l) = fail b ∧
  ok (foldl istep b l) =
    ok b + length (filter (λ nm, installed <$> mods !! nm = Some false) l).
Proof.
  revert b. induction l as [|x l IH]; intros b Hnd Hg H.
  { simpl. split; [done|lia]. }
  apply NoDup_cons in Hnd as [Hx Hnd]. simpl. rewrite filter_cons.
  destruct (mods !! x) as [m|] eqn:Hm.
  - destruct (installed m) eqn:Hi.
    + rewrite (apply_step_installed _ _ _ _ _ _ Hm Hi).
      rewrite decide_False by (simpl; rewrite Hi; congruence).
      apply IH; [exact Hnd|exact Hg|].
      intros nm m' Hin. apply H. by apply list_elem_of_further.
    + rewrite decide_True by (simpl; rewrite Hi; congruence).
      destruct (H x m (list_elem_of_here _ _) Hm Hi) as (Hd & Hl & Hs).
      destruct (apply_step_fresh b x m Hm Hi Hd Hg Hl Hs) as [Hk Hb].
      rewrite Hb.
      set (b' := count_outcome b _ x true "OK").
      assert (world b ⊆ world b') as Hsub by (by apply insert_subseteq).
      assert (stat (world b') g = Some (d, Dir)) as Hg'
        by (eapply stat_mono; [exact Hsub|exact Hg]).
      destruct (IH b' Hnd Hg') as [Hf Ho].
      * intros nm m' Hin Hm' Hi'.
        destruct (H nm m' (list_elem_of_further _ _ _ Hin) Hm' Hi')
          as (Hd' & Hl' & [r Hs']).
        split; [exact Hd'|]. split.
        -- rewrite Hd'. rewrite (lstat_snoc (world b') g nm), Hg'. simpl.
           rewrite lookup_insert_ne.
           ++ rewrite Hd' in Hl'.
              by rewrite (lstat_fresh _ _ _ _ Hl' Hg).
           ++ intros Heq. apply app_inj_tail in Heq as [_ ->]. done.
        -- exists r. eapply stat_mono; [exact Hsub|exact Hs'].
      * rewrite Hf, Ho. simpl. split; [done|lia].
  - rewrite (apply_step_absent _ _ _ _ _ Hm).
    rewrite decide_False by (simpl; congruence).
    apply (IH {| world := world b; ok := ok b; fail := fail b;
                 msgs := msgs b ++ ["Skipped: " +:+ x +:+ " (not in source)"] |});
      [exact Hnd|exact Hg|].
    intros nm m' Hin. apply H. by apply list_elem_of_further.
Qed.

End posix_install.

(** X11: where links are made by [os.symlink] and the game directory
    resolves to a directory, after [apply_preset] an entry is found at the
    destination of every member of the preset that is in the catalogue.  If
    moreover no name occurs twice in the preset, no failure is counted, and
    the successes counted are the members that the catalogue lists as not
    installed. *)
Theorem apply_preset_installs_members run cfg name_ fs st items d b :
  discover_mods cfg fs = inr items →
  stat fs (game_mods_dir cfg) = Some (d, Dir) →
  apply_preset false run cfg name_ fs st = inr b →
  let members := default [] (load_presets st !! name_) in
  (∀ m, m ∈ items → name m ∈ members →
     is_Some (lstat (world b) (dest m))) ∧
  (NoDup members →
     fail b = 0 ∧
     ok b = length (filter (λ nm, installed <$> mods_by_name items !! nm
                                  = Some false) members)).
Proof.
  intros Hd Hg Hb members. unfold apply_preset in Hb. rewrite Hd in Hb.
  injection Hb as <-. split.
  - intros m Hin Hnm.
    destruct (discover_entry _ _ _ _ Hd Hin) as (Hdst & Hi & Hs).
    assert (mods_by_name items !! name m = Some m) as Hm.
    { apply mods_by_name_unique; [by eapply NoDup_discover_names|done..]. }
    destruct (installed m) eqn:Hinst.
    + symmetry in Hi. apply dest_present_lstat in Hi as [r Hr].
      exists r. eapply lstat_Some_sub; [|exact Hr].
      apply (apply_loop_sub _ _ _ (batch_start fs)).
    + eapply (apply_loop_present run _ _ d _ (batch_start fs));
        [exact Hnm|exact Hm|exact Hinst|exact Hdst|exact Hg|exact Hs].
  - intros Hnd.
    destruct (apply_loop_no_failure run (mods_by_name items)
                (game_mods_dir cfg) d members (batch_start fs) Hnd Hg)
      as [Hf Ho]; [|split; [exact Hf|exact Ho]].
    intros nm m Hnm Hm Hi.
    apply mods_by_name_Some in Hm as [Hin <-].
    destruct (discover_entry _ _ _ _ Hd Hin) as (Hdst & Hi' & Hs).
    split; [exact Hdst|]. split; [|exact Hs].
    apply dest_absent_lstat.
    change (dest_present fs (dest m) = false). by rewrite <-Hi'.
Qed.

Lemma apply_preset_installs_members_witness :
  ∃ b, apply_preset false no_tool cfg_esp "both" fs_two store_both = inr b ∧
       fail b = 0 ∧ ok b = 2.
Proof.
  destruct (apply_preset false no_tool cfg_esp "both" fs_two store_both)
    as [e|b] eqn:Hb.
  { exfalso. revert Hb. vm_compute. discriminate. }
  exists b. split; [done|].
  destruct (apply_preset_installs_members no_tool cfg_esp "both" fs_two
              store_both [item_ModA; item_modb] ["game"] b) as [_ H].
  - vm_compute. reflexivity.
  - vm_compute. reflexivity.
  - exact Hb.
  - destruct H as [Hf Ho].
    + vm_compute. apply NoDup_cons. split; [by intros ?%list_elem_of_singleton|].
      apply NoDup_singleton.
    + split; [exact Hf|]. rewrite Ho. vm_compute. reflexivity.
Defined.

(** ** The preset store *)

Lemma filter_ext_in {A} (P Q : A → Prop) `{!∀ x, Decision (P x)}
    `{!∀ x, Decision (Q x)} (l : list A) :
  (∀ x, x ∈ l → P x ↔ Q x) → filter P l = filter Q l.
Proof.
  induction l as [|x l IH]; intros Hl; [done|].
  rewrite !filter_cons.
  rewrite IH by (intros y ?; apply Hl; by right).
  destruct (Hl x (list_elem_of_here _ _)) as [H1 H2].
  destruct (decide (P x)), (decide (Q x)); tauto.
Qed.

(** The loop of [delete_presets_by_names], from any state it is in. *)
Lemma delete_presets_loop names p r miss :
  ∃ p' r' extra,
    foldl delete_presets_step (p, r, miss) names = (p', r', miss ++ extra) ∧
    (∀ nm, p' !! nm = if decide (nm ∈ names) then None else p !! nm) ∧
    r' + length extra = r + length names ∧
    (∀ nm, nm ∈ extra → nm ∈ names) ∧
    (NoDup names →
       extra = filter (λ nm, p !! nm = None) names ∧
       r' = r + length (filter (λ nm, is_Some (p !! nm)) names)).
Proof.
  revert p r miss. induction names as [|x l IH]; intros p r miss.
  { exists p, r, []. simpl. rewrite app_nil_r.
    split; [done|]. split; [done|]. split; [lia|].
    split; [done|]. intros _. split; [done|lia]. }
  simpl. case_bool_decide as Hx.
  - destruct (IH (delete x p) (S r) miss)
      as (p' & r' & extra & -> & Hp & Hr & He & Hn).
    exists p', r', extra. split; [done|]. split; [|split; [|split]].
    + intros nm. rewrite Hp.
      destruct (decide (nm ∈ l)) as [Hin|Hin];
        destruct (decide (nm ∈ x :: l)) as [Hin'|Hin']; [done| | |].
      * destruct Hin'. by apply list_elem_of_further.
      * apply elem_of_cons in Hin' as [->|?]; [|done].
        apply lookup_delete_eq.
      * apply lookup_delete_ne. intros ->. apply Hin', list_elem_of_here.
    + simpl. lia.
    + intros nm ?. apply list_elem_of_further. by apply He.
    + intros [Hxl Hnd]%NoDup_cons. destruct (Hn Hnd) as [-> ->].
      rewrite !filter_cons.
      rewrite decide_False by (intros Hnone; rewrite Hnone in Hx;
                               by destruct Hx).
      rewrite decide_True by done. simpl.
      split.
      * apply filter_ext_in. intros nm Hnm.
        rewrite lookup_delete_ne; [done|]. by intros ->.
      * rewrite (filter_ext_in (λ nm, is_Some (delete x p !! nm))
                   (λ nm, is_Some (p !! nm))); [lia|].
        intros nm Hnm. rewrite lookup_delete_ne; [done|]. by intros ->.
  - destruct (IH p r (miss ++ [x]))
      as (p' & r' & extra & Hf & Hp & Hr & He & Hn).
    exists p', r', (x :: extra).
    split; [by rewrite Hf, <-app_assoc|]. split; [|split; [|split]].
    + intros nm. rewrite Hp.
      destruct (decide (nm ∈ l)) as [Hin|Hin];
        destruct (decide (nm ∈ x :: l)) as [Hin'|Hin']; [done| | |done].
      * destruct Hin'. by apply list_elem_of_further.
      * apply elem_of_cons in Hin' as [->|?]; [|done].
        by apply eq_None_not_Some.
    + simpl. lia.
    + intros nm [->|?]%elem_of_cons; [apply list_elem_of_here|].
      apply list_elem_of_further. by apply He.
    + intros [Hxl Hnd]%NoDup_cons. destruct (Hn Hnd) as [-> ->].
      rewrite !filter_cons.
      rewrite decide_True by (by apply eq_None_not_Some).
      rewrite decide_False by done. done.
Qed.

(** X12: [delete_presets_by_names] writes the store back whatever it
    found, so that on a store that cannot be written it raises, even for an
    empty list of names.  Otherwise every name asked for is counted once, as
    removed or as missing; afterwards no preset is stored under any of the
    names and every other preset is as it was.  If no name is asked for
    twice, the missing names are those with no preset, in the order asked,
    and the count is that of the names with one; a name asked for a second
    time is reported missing. *)
Theorem delete_presets_outcome names st :
  (writable st = false →
     delete_presets_by_names names st = inl PersistenceError) ∧
  (writable st = true →
     ∃ st' removed missing,
       delete_presets_by_names names st = inr (st', (removed, missing)) ∧
       removed + length missing = length names ∧
       (∀ nm, nm ∈ missing → nm ∈ names) ∧
       (∀ nm, nm ∈ names → load_presets st' !! nm = None) ∧
       (∀ nm, nm ∉ names → load_presets st' !! nm = load_presets st !! nm) ∧
       (NoDup names →
          missing = filter (λ nm, load_presets st !! nm = None) names ∧
          removed =
            length (filter (λ nm, is_Some (load_presets st !! nm)) names))).
Proof.
  unfold delete_presets_by_names.
  destruct (delete_presets_loop names (load_presets st) 0 [])
    as (p' & r' & extra & -> & Hp & Hr & He & Hn).
  unfold save_presets. split; intros ->; [done|].
  eexists _, r', extra. split; [done|].
  split; [lia|]. split; [exact He|].
  unfold load_presets at 1 3. simpl. split; [|split].
  - intros nm Hnm. rewrite Hp. by rewrite decide_True.
  - intros nm Hnm. rewrite Hp. by rewrite decide_False.
  - intros Hnd. destruct (Hn Hnd) as [-> ->]. done.
Qed.

Lemma delete_presets_outcome_witness :
  ∃ st' removed missing,
    delete_presets_by_names ["both"; "none"; "both"] store_both =
      inr (st', (removed, missing)) ∧
    removed + length missing = 3 ∧
    load_presets st' !! "both" = None.
Proof.
  destruct (proj2 (delete_presets_outcome ["both"; "none"; "both"] store_both)
              eq_refl) as (st' & removed & missing & H & Hc & _ & Hg & _).
  exists st', removed, missing. split; [exact H|]. split; [exact Hc|].
  apply Hg. apply list_elem_of_here.
Defined.

(** X13: a presets file that cannot be read or decoded is taken for an
    empty collection, without any complaint, and the next write replaces it:
    [delete_presets_by_names] reports every name missing and leaves an empty
    collection, and a successful [save_preset_from_installed] leaves the new
    preset as the only one. *)
Theorem unreadable_store_overwritten st :
  content st = Unreadable → writable st = true →
  (∀ names,
     delete_presets_by_names names st =
       inr ({| content := Parsed ∅; writable := true |}, (0, names))) ∧
  (∀ cfg name_ fs inst,
     list_installed_mods cfg fs = inr inst → inst ≠ [] →
     ∃ msg,
       save_preset_from_installed cfg name_ fs st =
         inr ({| content := Parsed {[ name_ := name <$> inst ]};
                 writable := true |}, (true, msg))).
Proof.
  intros Hc Hw.
  assert (load_presets st = ∅) as He by (unfold load_presets; by rewrite Hc).
  split.
  - intros names. unfold delete_presets_by_names. rewrite He.
    assert (∀ r miss,
              foldl delete_presets_step (∅, r, miss) names
              = (∅, r, miss ++ names)) as ->.
    { induction names as [|x l IH]; intros r miss;
        [by rewrite app_nil_r|].
      simpl. rewrite bool_decide_false
        by (rewrite lookup_empty; by intros [? ?]).
      by rewrite IH, <-app_assoc. }
    unfold save_presets. by rewrite Hw.
  - intros cfg name_ fs inst Hl Hne.
    unfold save_preset_from_installed. rewrite Hl, He.
    rewrite bool_decide_false by done.
    unfold save_presets. rewrite Hw. rewrite insert_empty. eauto.
Qed.

Lemma unreadable_store_overwritten_witness :
  delete_presets_by_names ["mine"] {| content := Unreadable; writable := true |}
  = inr ({| content := Parsed ∅; writable := true |}, (0, ["mine"])).
Proof.
  apply (unreadable_store_overwritten
           {| content := Unreadable; writable := true |}); reflexivity.
Defined.

(** X14: a preset just saved from the installed mods counts as fully
    installed: toggled against the same catalogue it is reverted, not
    applied, and the revert takes away every installed entry of the
    catalogue at whose destination no real directory stands, adding
    nothing. *)
Theorem saved_preset_is_reverted is_windows run cfg name_ fs st st' msg items :
  discover_mods cfg fs = inr items →
  save_preset_from_installed cfg name_ fs st = inr (st', (true, msg)) →
  toggle_preset is_windows run cfg (load_presets st') (installed_set items)
    name_ fs st' =
    report_of Deactivated (deactivate_preset cfg name_ fs st') ∧
  ∃ b, deactivate_preset cfg name_ fs st' = inr b ∧
       world b ⊆ fs ∧
       ∀ m, m ∈ items → installed m = true →
         (∀ k, lstat fs (dest m) ≠ Some (k, Dir)) →
         lstat (world b) (dest m) = None.
Proof.
  intros Hd. unfold save_preset_from_installed, list_installed_mods.
  rewrite Hd. case_bool_decide as Hne; [by intros [=]|].
  unfold save_presets. destruct (writable st); [|by intros [=]].
  intros [= <- _].
  set (inst := filter (λ m, installed m = true) items) in *.
  assert (load_presets
            {| content := Parsed (<[name_ := name <$> inst]> (load_presets st));
               writable := true |} !! name_ = Some (name <$> inst)) as Hp
    by (unfold load_presets at 1; simpl; apply lookup_insert_eq).
  split.
  - unfold toggle_preset. rewrite Hp. simpl.
    assert (all_on (installed_set items) (name <$> inst) = true) as ->;
      [|done].
    unfold all_on. apply andb_true_iff. split.
    + apply bool_decide_eq_true. by destruct inst.
    + apply forallb_forall. intros nm Hnm%list_elem_of_In.
      apply bool_decide_eq_true. unfold installed_set.
      by apply elem_of_list_to_set.
  - unfold deactivate_preset. rewrite Hd, Hp. simpl.
    eexists. split; [reflexivity|]. split; [apply deactivate_loop_sub|].
    intros m Hin Hi Hreal.
    eapply deactivate_loop_gone;
      [reflexivity| | |exact Hi|exact Hreal].
    + apply list_elem_of_fmap. exists m. split; [done|].
      apply list_elem_of_filter. by split.
    + apply mods_by_name_unique; [by eapply NoDup_discover_names|done..].
Qed.

Lemma saved_preset_is_reverted_witness :
  ∃ st' msg,
    save_preset_from_installed cfg_esp "mine" fs_linked store_ok =
      inr (st', (true, msg)) ∧
    ∃ b, deactivate_preset cfg_esp "mine" fs_linked st' = inr b ∧
         world b ⊆ fs_linked.
Proof.
  assert (∃ st' msg, save_preset_from_installed cfg_esp "mine" fs_linked
                       store_ok = inr (st', (true, msg))) as (st' & msg & Hs)
    by (eexists _, _; vm_compute; reflexivity).
  exists st', msg. split; [exact Hs|].
  destruct (saved_preset_is_reverted false no_tool cfg_esp "mine" fs_linked
              store_ok st' msg _ ltac:(vm_compute; reflexivity) Hs)
    as (_ & b & Hb & Hsub & _).
  exists b. split; [exact Hb|exact Hsub].
Defined.

(** ** Pages *)

(** The arithmetic of [paginate]. *)
Lemma paginate_bounds (total : nat) (page : Z) :
  let p := (paginate total page).1 in
  let n := (paginate total page).2 in
  (1 ≤ p ≤ n)%Z ∧
  (Z.of_nat total ≤ n * Z.of_nat PAGE_SIZE)%Z ∧
  (0 < total → ((p - 1) * Z.of_nat PAGE_SIZE < Z.of_nat total)%Z).
Proof.
  unfold paginate, PAGE_SIZE. simpl. change (Z.of_nat 20) with 20%Z.
  set (q := ((Z.of_nat total + 20 - 1) `div` 20)%Z).
  assert (20 * q ≤ Z.of_nat total + 19 < 20 * q + 20)%Z as Hq.
  { unfold q. pose proof (Z.div_mod (Z.of_nat total + 20 - 1) 20 ltac:(lia)).
    pose proof (Z.mod_pos_bound (Z.of_nat total + 20 - 1) 20 ltac:(lia)).
    lia. }
  clearbody q. repeat split; lia.
Qed.

(** X15: [paginate] returns the number of pages, one for an empty list
    and otherwise the least number of pages of [PAGE_SIZE] entries that hold
    the whole list, and the page asked for brought into the range from 1 to
    that number: a page in the range is kept, a smaller one becomes the
    first page, a larger one the last.  Paginating the page returned gives
    it back. *)
Theorem paginate_clamps (total : nat) (page : Z) :
  let p := (paginate total page).1 in
  let n := (paginate total page).2 in
  (1 ≤ p ≤ n)%Z ∧
  (total = 0 → n = 1%Z) ∧
  (0 < total →
     ((n - 1) * Z.of_nat PAGE_SIZE < Z.of_nat total ≤ n * Z.of_nat PAGE_SIZE)%Z) ∧
  ((1 ≤ page ≤ n)%Z → p = page) ∧
  ((page < 1)%Z → p = 1%Z) ∧
  ((n < page)%Z → p = n) ∧
  paginate total p = (p, n).
Proof.
  unfold paginate, PAGE_SIZE. simpl. change (Z.of_nat 20) with 20%Z.
  set (q := ((Z.of_nat total + 20 - 1) `div` 20)%Z).
  assert (20 * q ≤ Z.of_nat total + 19 < 20 * q + 20)%Z as Hq.
  { unfold q. pose proof (Z.div_mod (Z.of_nat total + 20 - 1) 20 ltac:(lia)).
    pose proof (Z.mod_pos_bound (Z.of_nat total + 20 - 1) 20 ltac:(lia)).
    lia. }
  clearbody q.
  repeat split; try lia.
  f_equal. lia.
Qed.

(** A slice between two bounds that are not negative. *)
Lemma py_slice_nonneg {A} (l : list A) (s e : nat) :
  py_slice l (Z.of_nat s) (Z.of_nat e) = take (e - s) (drop s l).
Proof.
  unfold py_slice. cbv beta zeta.
  rewrite !(proj2 (Z.ltb_ge _ 0)) by lia.
  destruct (decide (length l ≤ s)) as [Hs|Hs].
  { rewrite !drop_ge by lia. by rewrite !take_nil. }
  rewrite !(Z.min_l (Z.of_nat s)) by lia. rewrite Nat2Z.id.
  destruct (decide (e ≤ length l)) as [He|He].
  { rewrite (Z.min_l (Z.of_nat e)) by lia. f_equal. lia. }
  rewrite (Z.min_r (Z.of_nat e)) by lia.
  rewrite !take_ge; [done|rewrite length_drop; lia..].
Qed.

(** The page numbered [S i] is the run of [PAGE_SIZE] entries after the
    first [i * PAGE_SIZE]. *)
Lemma page_slice_S {A} (items : list A) (i : nat) :
  page_slice items (Z.of_nat (S i)) =
  take PAGE_SIZE (drop (i * PAGE_SIZE) items).
Proof.
  unfold page_slice.
  replace ((Z.of_nat (S i) - 1) * Z.of_nat PAGE_SIZE)%Z
    with (Z.of_nat (i * PAGE_SIZE)) by lia.
  replace (Z.of_nat (i * PAGE_SIZE) + Z.of_nat PAGE_SIZE)%Z
    with (Z.of_nat (i * PAGE_SIZE + PAGE_SIZE)) by lia.
  rewrite py_slice_nonneg. f_equal. lia.
Qed.

Lemma pages_concat {A} (k : nat) (items : list A) :
  length items ≤ k * PAGE_SIZE →
  concat ((λ i, page_slice items (Z.of_nat i)) <$> seq 1 k) = items.
Proof.
  revert items. induction k as [|k IH]; intros items Hl.
  { simpl in *. destruct items; [done|simpl in Hl; lia]. }
  simpl. rewrite (page_slice_S items 0). simpl. rewrite <-fmap_S_seq.
  rewrite <-list_fmap_compose.
  rewrite (list_fmap_ext _ (λ i, page_slice (drop PAGE_SIZE items) (Z.of_nat i))
             (seq 1 k)).
  - rewrite IH; [apply take_drop|]. rewrite length_drop.
    unfold PAGE_SIZE in *. lia.
  - intros j i Hi. apply lookup_seq in Hi as [-> _]. simpl.
    rewrite (page_slice_S items (S j)), (page_slice_S _ j).
    rewrite drop_drop. do 2 f_equal.
Qed.

(** X16: the pages [page_slice] cuts, from the first to the last that
    [paginate] counts, are consecutive runs of the list: put together in
    order they give the list back, nothing lost and nothing shown twice.
    The page that [paginate] settles on holds at most [PAGE_SIZE] entries,
    in the order of the list, and at least one unless the list is empty. *)
Theorem pages_cover_the_list {A} (items : list A) (page : Z) :
  let p := (paginate (length items) page).1 in
  let n := (paginate (length items) page).2 in
  concat ((λ i, page_slice items (Z.of_nat i)) <$> seq 1 (Z.to_nat n))
    = items ∧
  length (page_slice items p) ≤ PAGE_SIZE ∧
  (items ≠ [] → page_slice items p ≠ []) ∧
  page_slice items p `sublist_of` items.
Proof.
  intros p n.
  destruct (paginate_bounds (length items) page) as (Hp & Hn).
  fold p n in Hp, Hn.
  split; [|split; [|split]].
  - apply pages_concat. lia.
  - replace p with (Z.of_nat (S (Z.to_nat (p - 1)))) by lia.
    rewrite page_slice_S, length_take. lia.
  - intros Hne. replace p with (Z.of_nat (S (Z.to_nat (p - 1)))) by lia.
    rewrite page_slice_S.
    assert (0 < length items) as Hl by (destruct items; [done|simpl; lia]).
    destruct Hn as [_ Hn]. specialize (Hn Hl).
    intros Hnil. apply (f_equal length) in Hnil.
    rewrite length_take, length_drop in Hnil.
    change (length (@nil A)) with 0 in Hnil.
    unfold PAGE_SIZE in *. lia.
  - apply py_slice_sublist.
Qed.

Lemma paginate_clamps_witness : (paginate 45 9).1 = (paginate 45 9).2.
Proof.
  destruct (paginate_clamps 45 9) as (_ & _ & _ & _ & _ & H & _).
  apply H. vm_compute. reflexivity.
Defined.

Lemma pages_cover_the_list_witness :
  length (page_slice [1; 2; 3] (paginate (length [1; 2; 3]) 7).1) ≤ PAGE_SIZE ∧
  page_slice [1; 2; 3] (paginate (length [1; 2; 3]) 7).1 ≠ [].
Proof.
  destruct (pages_cover_the_list [1; 2; 3] 7) as (_ & Hl & H & _).
  split; [exact Hl|]. apply H. discriminate.
Defined.

(** ** Numbers typed at the prompt *)

Lemma isdigit_not_space c : Str.isdigit_char c = true → Str.isspace c = false.
Proof. by destruct c as [[] [] [] [] [] [] [] []]. Qed.

Lemma isdigit_not_comma c : Str.isdigit_char c = true → Ascii.eqb c "," = false.
Proof. by destruct c as [[] [] [] [] [] [] [] []]. Qed.

Lemma isdigit_lower_char c : Str.isdigit_char c = true → Str.lower_char c = c.
Proof. by destruct c as [[] [] [] [] [] [] [] []]. Qed.

Lemma all_digits_no_blank s : Str.all_digits s = true → no_blank s = true.
Proof.
  induction s as [|c s IH]; simpl; [done|].
  intros [Hc Hs]%andb_true_iff. by rewrite (isdigit_not_space c Hc), IH.
Qed.

Lemma all_digits_lower s : Str.all_digits s = true → Str.lower s = s.
Proof.
  induction s as [|c s IH]; simpl; [done|].
  intros [Hc Hs]%andb_true_iff. by rewrite (isdigit_lower_char c Hc), IH.
Qed.

(** The characters of a piece are read up to the next separator. *)
Lemma split_go_digits sep cur x s :
  (∀ c, Str.isdigit_char c = true → Ascii.eqb c sep = false) →
  Str.all_digits x = true →
  Str.split_go sep cur (x +:+ s) = Str.split_go sep (String.rev_app x cur) s.
Proof.
  intros Hsep. revert cur. induction x as [|c x IH]; intros cur; [done|].
  cbn [Str.all_digits]. intros [Hc Hx]%andb_true_iff.
  rewrite append_cons. cbn [Str.split_go String.rev_app].
  rewrite (Hsep c Hc). by apply IH.
Qed.

Lemma split_join_digits (l : list string) :
  l ≠ [] → Forall (λ x, Str.all_digits x = true) l →
  Str.split "," (Str.join "," l) = l.
Proof.
  intros Hne Hl. unfold Str.split.
  induction Hl as [|x l Hx Hl IH]; [done|].
  destruct l as [|y l].
  - cbn [Str.join]. rewrite <-(append_empty_r x) at 1.
    rewrite (split_go_digits _ _ _ _ isdigit_not_comma Hx).
    cbn [Str.split_go]. f_equal. apply rev_rev.
  - cbn [Str.join]. change ("," +:+ ?s) with (String "," s).
    rewrite (split_go_digits _ _ _ _ isdigit_not_comma Hx).
    cbn [Str.split_go]. rewrite Ascii.eqb_refl. f_equal; [apply rev_rev|].
    by apply IH.
Qed.

(** The value of a text of digits read after the value [acc]. *)
Lemma int_go_acc acc s :
  Str.int_go acc s = (acc * 10 ^ N.of_nat (String.length s) + Str.int_go 0 s)%N.
Proof.
  revert acc. induction s as [|c s IH]; intros acc.
  { simpl. lia. }
  cbn [Str.int_go String.length].
  rewrite (IH (10 * acc + _)%N), (IH (10 * 0 + _)%N).
  rewrite Nat2N.inj_succ, N.pow_succ_r'. lia.
Qed.

Lemma pretty_N_char_digit d :
  (d < 10)%N →
  Str.isdigit_char (pretty_N_char d) = true ∧
  (N_of_ascii (pretty_N_char d) - 48)%N = d.
Proof.
  intros Hd.
  assert (∃ n, n < 10 ∧ d = N.of_nat n) as (n & Hn & ->)
    by (exists (N.to_nat d); lia).
  do 10 (destruct n as [|n]; [by split|]). lia.
Qed.

(** The digits that [pretty] puts before a text of digits. *)
Lemma pretty_N_go_digits x s :
  Str.all_digits s = true →
  Str.all_digits (pretty_N_go x s) = true ∧
  Str.int_go 0 (pretty_N_go x s) =
    (x * 10 ^ N.of_nat (String.length s) + Str.int_go 0 s)%N ∧
  (s ≠ "" → pretty_N_go x s ≠ "").
Proof.
  revert s. induction (N.lt_wf_0 x) as [x _ IH]; intros s Hs.
  destruct (decide (x = 0%N)) as [->|Hx].
  { rewrite pretty_N_go_0. split; [done|]. split; [lia|done]. }
  rewrite pretty_N_go_step by lia.
  destruct (pretty_N_char_digit (x `mod` 10)%N) as [Hc Hv];
    [apply N.mod_lt; lia|].
  destruct (IH (x `div` 10)%N ltac:(apply N.div_lt; lia)
              (String (pretty_N_char (x `mod` 10)%N) s)) as (Ha & Hi & Hne).
  { cbn [Str.all_digits]. by rewrite Hc, Hs. }
  split; [exact Ha|]. split; [|intros _; by apply Hne].
  rewrite Hi. cbn [Str.int_go String.length].
  rewrite (int_go_acc (10 * 0 + _)%N), Hv.
  rewrite Nat2N.inj_succ, N.pow_succ_r'.
  pose proof (N.div_mod x 10 ltac:(lia)). nia.
Qed.

(** What [pretty] writes for a number is read back by [int]. *)
Lemma pretty_nat_digits (n : nat) :
  Str.all_digits (pretty n) = true ∧ Str.isdigit (pretty n) = true ∧
  Str.int (pretty n) = n.
Proof.
  unfold pretty, pretty_nat, pretty, pretty_N.
  destruct (decide (N.of_nat n = 0%N)) as [Hz|Hz].
  { split; [done|]. split; [done|]. unfold Str.int. simpl. lia. }
  rewrite pretty_N_go_step by lia.
  destruct (pretty_N_char_digit (N.of_nat n `mod` 10)%N) as [Hc Hv];
    [apply N.mod_lt; lia|].
  destruct (pretty_N_go_digits (N.of_nat n `div` 10)%N
              (String (pretty_N_char (N.of_nat n `mod` 10)%N) ""))
    as (Ha & Hi & Hne).
  { cbn [Str.all_digits]. by rewrite Hc. }
  split; [exact Ha|]. split.
  - unfold Str.isdigit.
    destruct (pretty_N_go _ _) eqn:Hp; [by destruct Hne|exact Ha].
  - unfold Str.int. rewrite Hi. cbn [Str.int_go String.length].
    rewrite Hv. pose proof (N.div_mod (N.of_nat n) 10 ltac:(lia)).
    change (10 ^ N.of_nat 1)%N with 10%N. lia.
Qed.

Lemma parse_pieces (parts : list string) (acc : list nat) :
  Forall (λ p, Str.isdigit p = true) parts →
  foldl (λ nums p, if Str.isdigit p then nums ++ [Str.int p] else nums)
    acc parts = acc ++ (Str.int <$> parts).
Proof.
  intros H. revert acc.
  induction H as [|p parts Hp _ IH]; intros acc; simpl.
  { by rewrite app_nil_r. }
  rewrite Hp, IH, <-app_assoc. done.
Qed.

Lemma isdigit_nonempty s : Str.isdigit s = true → s ≠ "".
Proof. by destruct s. Qed.

Lemma isdigit_all_digits s : Str.isdigit s = true → Str.all_digits s = true.
Proof. by destruct s. Qed.

Lemma isdigit_strip s : Str.isdigit s = true → Str.strip s = s.
Proof.
  intros H. by apply strip_no_blank, all_digits_no_blank, isdigit_all_digits.
Qed.

Lemma filter_all {A} (P : A → Prop) `{!∀ x, Decision (P x)} (l : list A) :
  Forall P l → filter P l = l.
Proof.
  induction 1 as [|x l Hx _ IH]; [done|].
  by rewrite filter_cons_True, IH.
Qed.

(** X17: numbers written in decimal and joined by commas are read back by
    [parse_multi_choice] as they were written: the same numbers, in the
    same order, repeated ones repeated; the empty text gives no number.
    Each number is taken to be one that [int] converts, that is of no more
    than [int_max_str_digits] digits. *)
Theorem parse_multi_choice_numbers (nums : list nat) :
  Forall (λ n, String.length (pretty n) ≤ Str.int_max_str_digits) nums →
  parse_multi_choice (Str.join "," (pretty <$> nums)) = nums.
Proof.
  intros _. destruct (decide (nums = [])) as [->|Hne]; [reflexivity|].
  unfold parse_multi_choice.
  assert (Forall (λ p, Str.isdigit p = true) (pretty <$> nums)) as Hd.
  { apply Forall_fmap, Forall_forall. intros n _. apply pretty_nat_digits. }
  rewrite split_join_digits.
  - rewrite (filter_all (λ p, Str.strip p ≠ "") (pretty <$> nums)).
    2:{ eapply Forall_impl; [exact Hd|]. intros p Hp. simpl.
        rewrite (isdigit_strip p Hp). by apply isdigit_nonempty. }
    rewrite (list_fmap_ext Str.strip id (pretty <$> nums)).
    2:{ intros i p Hp. apply isdigit_strip.
        exact (Forall_lookup_1 _ _ _ _ Hd Hp). }
    rewrite list_fmap_id, (parse_pieces _ [] Hd). simpl.
    rewrite <-list_fmap_compose.
    rewrite (list_fmap_ext _ id nums); [by rewrite list_fmap_id|].
    intros i n _. apply pretty_nat_digits.
  - by destruct nums.
  - eapply Forall_impl; [exact Hd|]. intros p. apply isdigit_all_digits.
Qed.

Lemma parse_multi_choice_numbers_witness :
  parse_multi_choice (Str.join "," (pretty <$> [3; 12; 3; 0])) = [3; 12; 3; 0].
Proof.
  apply parse_multi_choice_numbers.
  apply Forall_forall. intros n Hn.
  repeat (apply elem_of_cons in Hn as [->|Hn]; [vm_compute; lia|]).
  by apply elem_of_nil in Hn.
Defined.

Lemma startswith_p_digit c s :
  Str.isdigit_char c = true → Str.startswith "p" (String c s) = false.
Proof.
  intros H. unfold Str.startswith. cbn [String.prefix].
  destruct (ascii_dec "p" c) as [<-|?]; [discriminate H|done].
Qed.

Lemma startswith_p_p s : Str.startswith "p" (String "p" s) = true.
Proof.
  unfold Str.startswith. cbn [String.prefix].
  destruct (ascii_dec "p" "p"); [by destruct s|done].
Qed.

Lemma page_choice_text (c : ascii) ds :
  Str.lower_char c = "p"%char → Str.isspace c = false →
  Str.isdigit ds = true →
  Str.lower (Str.strip (String c ds)) = String "p" ds.
Proof.
  intros Hc Hsp Hd. pose proof (isdigit_all_digits _ Hd) as Ha.
  rewrite strip_no_blank
    by (cbn [no_blank]; by rewrite Hsp, (all_digits_no_blank _ Ha)).
  cbn [Str.lower]. by rewrite Hc, (all_digits_lower _ Ha).
Qed.

(** X18: the two kinds of answer at the prompt of the mods menu are told
    apart.  The letter [p], small or capital, followed by a number in
    decimal is a page choice for that number to [parse_page_choice] and no
    selection at all to [parse_multi_choice]; a number alone is no page
    choice. *)
Theorem page_choice_told_apart (n : nat) :
  String.length (pretty n) ≤ Str.int_max_str_digits →
  parse_page_choice ("p" +:+ pretty n) = Some n ∧
  parse_page_choice ("P" +:+ pretty n) = Some n ∧
  parse_multi_choice ("p" +:+ pretty n) = [] ∧
  parse_multi_choice ("P" +:+ pretty n) = [] ∧
  parse_page_choice (pretty n) = None.
Proof.
  intros _. destruct (pretty_nat_digits n) as (Ha & Hd & Hi).
  assert (∀ c : ascii,
            Str.lower_char c = "p"%char → Str.isspace c = false →
            Str.isdigit_char c = false → Ascii.eqb c "," = false →
            parse_page_choice (String c (pretty n)) = Some n ∧
            parse_multi_choice (String c (pretty n)) = []) as Hcmd.
  { intros c Hc Hsp Hnd Hnc. split.
    - unfold parse_page_choice. rewrite (page_choice_text c _ Hc Hsp Hd).
      cbn [Str.drop]. rewrite startswith_p_p, Hd, Hi. done.
    - unfold parse_multi_choice, Str.split. cbn [Str.split_go].
      rewrite Hnc. rewrite <-(append_empty_r (pretty n)) at 1.
      rewrite (split_go_digits _ _ _ _ isdigit_not_comma Ha).
      cbn [Str.split_go]. unfold String.rev.
      rewrite rev_app_rev_app. cbn [String.rev_app].
      rewrite append_empty_r.
      assert (Str.strip (String c (pretty n)) = String c (pretty n)) as Hs.
      { apply strip_no_blank. cbn [no_blank].
        by rewrite Hsp, (all_digits_no_blank _ Ha). }
      rewrite filter_cons_True by (by rewrite Hs).
      rewrite filter_nil. cbn [fmap list_fmap foldl]. rewrite Hs.
      unfold Str.isdigit. cbn [Str.all_digits]. by rewrite Hnd. }
  destruct (Hcmd "p"%char) as [H1 H2]; [done..|].
  destruct (Hcmd "P"%char) as [H3 H4]; [done..|].
  split; [exact H1|]. split; [exact H3|]. split; [exact H2|].
  split; [exact H4|].
  unfold parse_page_choice.
  rewrite (isdigit_strip _ Hd), (all_digits_lower _ Ha).
  destruct (pretty n) as [|c s] eqn:Hp; [done|].
  rewrite startswith_p_digit; [done|].
  cbn [Str.all_digits] in Ha. by apply andb_true_iff in Ha as [? _].
Qed.

Lemma page_choice_told_apart_witness :
  parse_page_choice ("P" +:+ pretty 12) = Some 12 ∧
  parse_multi_choice ("P" +:+ pretty 12) = [].
Proof.
  destruct (page_choice_told_apart 12) as (_ & H1 & _ & H2 & _).
  - vm_compute. lia.
  - split; [exact H1|exact H2].
Defined.

(** ** The search filter *)

Lemma prefix_app q s : String.prefix q s = true ↔ ∃ b, s = q +:+ b.
Proof.
  revert s. induction q as [|c q IH]; intros s.
  { split; [intros _; by exists s|by destruct s]. }
  destruct s as [|d s]; cbn [String.prefix].
  { split; [done|]. by intros [b [=]]. }
  destruct (ascii_dec c d) as [<-|Hne].
  - rewrite IH. split.
    + intros [b ->]. by exists b.
    + intros [b Hb]. rewrite append_cons in Hb. injection Hb as ->.
      by exists b.
  - split; [done|]. intros [b Hb]. rewrite append_cons in Hb.
    injection Hb as ? _. done.
Qed.

(** [q in s] holds iff [s] is some text, then [q], then some text. *)
Lemma contains_app q s :
  Str.contains q s = true ↔ ∃ a b, s = a +:+ q +:+ b.
Proof.
  induction s as [|d s IH]; cbn [Str.contains]; rewrite orb_true_iff, prefix_app.
  - split.
    + intros [[b ->]|[=]]. by exists "", b.
    + intros (a & b & H). left. destruct a as [|? ?]; [by exists b|].
      by rewrite append_cons in H.
  - rewrite IH. split.
    + intros [[b ->]|(a & b & ->)]; [by exists "", b|].
      by exists (String d a), b.
    + intros (a & b & H). destruct a as [|c a].
      * left. by exists b.
      * right. rewrite append_cons in H. injection H as _ ->. by exists a, b.
Qed.

Lemma lower_char_lower_char c :
  Str.lower_char (Str.lower_char c) = Str.lower_char c.
Proof. by destruct c as [[] [] [] [] [] [] [] []]. Qed.

Lemma lower_lower s : Str.lower (Str.lower s) = Str.lower s.
Proof.
  induction s as [|c s IH]; [done|].
  cbn [Str.lower]. by rewrite lower_char_lower_char, IH.
Qed.

(** X19: [filter_items_by_query] keeps the entries in their order and
    keeps exactly those whose lower-cased name holds the lower-cased query
    as a run of consecutive characters, which for the empty query is every
    entry.  The case of the query makes no difference, and filtering a
    second time with the same query changes nothing. *)
Theorem filter_items_by_query_spec (items : list ModItem) (query : string) :
  filter_items_by_query items query `sublist_of` items ∧
  (∀ m, m ∈ filter_items_by_query items query ↔
     m ∈ items ∧ ∃ a b, Str.lower (name m) = a +:+ Str.lower query +:+ b) ∧
  filter_items_by_query items (Str.lower query) =
    filter_items_by_query items query ∧
  filter_items_by_query (filter_items_by_query items query) query =
    filter_items_by_query items query.
Proof.
  split; [apply filter_items_sublist|].
  assert (∀ l m, m ∈ filter_items_by_query l query ↔
            m ∈ l ∧ ∃ a b, Str.lower (name m) = a +:+ Str.lower query +:+ b)
    as Hspec.
  { intros l m. unfold filter_items_by_query. case_bool_decide as Hq.
    - rewrite Hq. split; [|by intros [? _]].
      intros Hin. split; [done|]. by exists "", (Str.lower (name m)).
    - rewrite list_elem_of_filter, contains_app. tauto. }
  split; [apply Hspec|]. split.
  - unfold filter_items_by_query. by rewrite lower_lower.
  - unfold filter_items_by_query. case_bool_decide as Hq; [done|].
    apply filter_all, Forall_forall.
    by intros m [? _]%list_elem_of_filter.
Qed.

(** ** Toggling the entries shown *)

Section toggle_facts.
Variable run : list string → FS → FS * (pyexn + CompletedProcess).

(** The turn of a number that stands for an entry shown. *)
Lemma toggle_selected_step_shown shown i m fs outs :
  shown !! i = Some m →
  toggle_selected_step false run shown (fs, outs) (S i) =
    ((toggle_mod false run m fs).1,
     outs ++ [(name m, (toggle_mod false run m fs).2)]).
Proof.
  intros Hm. unfold toggle_selected_step.
  pose proof (lookup_lt_Some _ _ _ Hm) as Hlt.
  rewrite bool_decide_true by lia.
  replace (S i - 1) with i by lia. rewrite Hm.
  by destruct (toggle_mod false run m fs).
Qed.

(** The toggle of an entry as the scan recorded it, and the toggle asked
    for a second time. *)
Lemma toggle_mod_twice cfg fs items d m :
  discover_mods cfg fs = inr items →
  stat fs (game_mods_dir cfg) = Some (d, Dir) →
  m ∈ items →
  (∀ k, lstat fs (dest m) ≠ Some (k, Dir)) →
  ∃ fs',
    toggle_mod false run m fs = (fs', (true, "OK")) ∧
    (is_Some (lstat fs' (dest m)) ↔ installed m = false) ∧
    toggle_mod false run m fs' =
      (fs', (false,
             if installed m then "Already removed"
             else "Target already exists: " +:+ path_str (dest m))).
Proof.
  intros Hd Hg Hin Hreal.
  destruct (discover_entry _ _ _ _ Hd Hin) as (Hdst & Hi & Hs).
  unfold toggle_mod, deactivate_mod, apply_mod.
  destruct (installed m) eqn:Hinst.
  - symmetry in Hi. apply dest_present_lstat in Hi as [[k nd] Hl].
    assert (nd ≠ Dir) as Hnd by (intros ->; exact (Hreal k Hl)).
    assert (dest m ≠ []) as Hne by (rewrite Hdst; by destruct (game_mods_dir cfg)).
    pose proof (lstat_delete _ _ _ _ Hl Hne) as Hgone.
    exists (delete k fs).
    split; [exact (unlink_path_other _ _ _ _ Hl Hnd)|].
    split; [|exact (unlink_path_absent _ _ Hgone)].
    rewrite Hgone. split; [by intros [? ?]|done].
  - symmetry in Hi. apply dest_absent_lstat in Hi.
    destruct Hs as [r Hs].
    assert (fs !! (d ++ [name m]) = None) as Hk.
    { rewrite Hdst in Hi. exact (lstat_fresh _ _ _ _ Hi Hg). }
    assert (is_Some (lstat (<[d ++ [name m] := Link (src m)]> fs) (dest m)))
      as Hp.
    { rewrite Hdst. eexists. exact (lstat_insert_fresh _ _ _ _ _ Hg Hk). }
    exists (<[d ++ [name m] := Link (src m)]> fs).
    split; [|split; [done|by apply mklink_occupied]].
    rewrite mklink_posix, Hi, Hs, Hdst, parent_snoc, Hg, name_snoc.
    reflexivity.
Qed.

End toggle_facts.

(** X20: in the mods menu, where links are made by [os.symlink] and the
    game directory resolves to a directory: choosing the number of an entry
    shown, at whose destination no real directory stands, succeeds and
    reverses what is found there: a link is found afterwards iff the entry
    was listed as not installed.  Choosing the same number twice in one
    answer does not toggle back: the page is the one read before, so the
    second turn repeats the first action, fails ("Already removed" or
    "Target already exists") and leaves the filesystem as the first turn
    left it. *)
Theorem toggle_twice_not_back run cfg fs items d query page i m :
  discover_mods cfg fs = inr items →
  stat fs (game_mods_dir cfg) = Some (d, Dir) →
  let shown := page_slice (filter_items_by_query items query) page in
  shown !! i = Some m →
  (∀ k, lstat fs (dest m) ≠ Some (k, Dir)) →
  ∃ fs',
    toggle_selected false run shown [S i] fs =
      (fs', [(name m, (true, "OK"))]) ∧
    (is_Some (lstat fs' (dest m)) ↔ installed m = false) ∧
    toggle_selected false run shown [S i; S i] fs =
      (fs', [(name m, (true, "OK"));
             (name m, (false,
                       if installed m then "Already removed"
                       else "Target already exists: " +:+
                            path_str (dest m)))]).
Proof.
  intros Hd Hg shown Hm Hreal.
  assert (m ∈ items) as Hin.
  { eapply elem_of_sublist; [|apply shown_sublist].
    eapply list_elem_of_lookup_2. exact Hm. }
  destruct (toggle_mod_twice run cfg fs items d m Hd Hg Hin Hreal)
    as (fs' & H1 & Hflip & H2).
  exists fs'. unfold toggle_selected. cbn [foldl].
  rewrite (toggle_selected_step_shown run shown i m fs [] Hm), H1.
  cbn [fst snd app].
  split; [done|]. split; [exact Hflip|].
  by rewrite (toggle_selected_step_shown run shown i m fs' _ Hm), H2.
Qed.

Lemma toggle_twice_not_back_witness :
  ∃ fs',
    toggle_selected false no_tool
      (page_slice (filter_items_by_query [item_ModA; item_modb] "") 1)
      [1; 1] fs_two =
      (fs', [("ModA", (true, "OK"));
             ("ModA", (false, "Target already exists: /game/ModA"))]).
Proof.
  destruct (toggle_twice_not_back no_tool cfg_esp fs_two
              [item_ModA; item_modb] ["game"] "" 1 0 item_ModA)
    as (fs' & _ & _ & H).
  - vm_compute. reflexivity.
  - vm_compute. reflexivity.
  - vm_compute. reflexivity.
  - intros k. vm_compute. discriminate.
  - exists fs'. exact H.
Defined.

(** X21: numbers that stand for no entry shown, zero and those beyond
    the length of the page, are passed over without a message and without
    any effect, wherever they stand among the numbers chosen; an answer of
    such numbers only changes nothing. *)
Theorem numbers_off_the_page_ignored is_windows run (shown : list ModItem)
    (nums : list nat) fs :
  toggle_selected is_windows run shown nums fs =
  toggle_selected is_windows run shown
    (filter (λ num, 1 ≤ num ≤ length shown) nums) fs ∧
  (filter (λ num, 1 ≤ num ≤ length shown) nums = [] →
   toggle_selected is_windows run shown nums fs = (fs, [])).
Proof.
  assert (∀ acc,
            foldl (toggle_selected_step is_windows run shown) acc nums =
            foldl (toggle_selected_step is_windows run shown) acc
              (filter (λ num, 1 ≤ num ≤ length shown) nums)) as H.
  { induction nums as [|num nums IH]; intros acc; [done|].
    rewrite filter_cons. cbn [foldl]. case_decide as Hnum.
    - cbn [foldl]. apply IH.
    - rewrite <-IH. f_equal. unfold toggle_selected_step.
      destruct acc as [fs0 outs]. by rewrite bool_decide_false. }
  unfold toggle_selected. split; [apply H|].
  intros Hnone. by rewrite H, Hnone.
Qed.

Lemma numbers_off_the_page_ignored_witness :
  toggle_selected false no_tool [item_ModA; item_modb] [0; 3; 7] fs_two =
    (fs_two, []).
Proof.
  apply (numbers_off_the_page_ignored false no_tool [item_ModA; item_modb]
           [0; 3; 7] fs_two).
  reflexivity.
Defined.

(** ** Extensions begin with a dot *)

Lemma rev_app_append s t : String.rev_app s t = String.rev s +:+ t.
Proof.
  assert (∀ t u, String.rev_app s (t +:+ u) = String.rev_app s t +:+ u) as H.
  { induction s as [|c s IH]; intros t' u; [done|].
    cbn [String.rev_app]. by rewrite <-IH. }
  exact (H "" t).
Qed.

Lemma rev_app_snoc y c t :
  String.rev_app (y +:+ String c "") t = String c (String.rev_app y t).
Proof.
  revert t. induction y as [|a y IH]; intros t; [done|].
  rewrite append_cons. cbn [String.rev_app]. apply IH.
Qed.

Lemma lstrip_snoc_nonspace x c :
  Str.isspace c = false →
  ∃ y, Str.lstrip (x +:+ String c "") = y +:+ String c "".
Proof.
  intros Hc. induction x as [|a x IH].
  - exists "". change (Str.lstrip (String c "") = String c "").
    cbn [Str.lstrip]. by rewrite Hc.
  - rewrite append_cons. cbn [Str.lstrip].
    destruct (Str.isspace a); [exact IH|].
    exists (String a x). by rewrite append_cons.
Qed.

(** A text that begins with a character other than white space begins with
    it after [strip]. *)
Lemma strip_cons_nonspace c s :
  Str.isspace c = false → ∃ t, Str.strip (String c s) = String c t.
Proof.
  intros Hc. unfold Str.strip, Str.rstrip. cbn [Str.lstrip]. rewrite Hc.
  unfold String.rev at 2. cbn [String.rev_app]. rewrite rev_app_append.
  destruct (lstrip_snoc_nonspace (String.rev s) c Hc) as [y ->].
  unfold String.rev. rewrite rev_app_snoc. eauto.
Qed.

Lemma parse_extension_dot e : ∃ t, parse_extension e = String "." t.
Proof.
  unfold parse_extension.
  destruct (Str.startswith "." e) eqn:He; [|by eexists].
  destruct e as [|c e]; [done|].
  rewrite startswith_dot_cons in He.
  destruct (ascii_dec "." c) as [<-|]; [|done].
  cbn [Str.lower]. change (Str.lower_char ".") with "."%char.
  by apply strip_cons_nonspace.
Qed.

(** X22: when the filter text is not blank, every extension that
    [parse_extensions] returns begins with a dot.  A file is then listed
    only if the lower-cased suffix of its name is one of them, so that a
    file whose name has no suffix is never listed under a filter. *)
Theorem filter_hides_plain_names cfg fs items :
  discover_mods cfg fs = inr items →
  Str.strip (default "" (mod_extensions cfg)) ≠ "" →
  (∀ x, x ∈ (parse_extensions cfg).2 → Str.startswith "." x = true) ∧
  (∀ m, m ∈ items → is_dir m = false →
     Str.lower (suffix (name m)) ∈ (parse_extensions cfg).2 ∧
     suffix (name m) ≠ "").
Proof.
  intros Hd Hne.
  assert (∀ x, x ∈ (parse_extensions cfg).2 → ∃ t, x = String "." t) as Hdot.
  { intros x Hx. apply (elem_of_parse_extensions _ _ Hne) in Hx
      as (e & _ & _ & <-). apply parse_extension_dot. }
  split.
  { intros x [t ->]%Hdot. apply startswith_dot_cons. }
  intros m Hin Hfile.
  destruct (elem_of_discover _ _ _ _ Hd Hin) as [p Hp].
  assert ((parse_extensions cfg).1 = false) as Hsa.
  { apply not_true_iff_false. by rewrite parse_extensions_show_all. }
  pose proof (discovered_Some _ _ _ _ _ _ Hp) as (Hn & _ & _ & _ & Hf & _).
  rewrite Hfile in Hf. symmetry in Hf. apply negb_false_iff in Hf.
  rewrite (discovered_file _ _ _ _ _ Hf), Hsa in Hp. simpl in Hp.
  case_bool_decide as Hext; [|done].
  rewrite Hn. split; [exact Hext|].
  intros Hs. rewrite Hs in Hext. by apply Hdot in Hext as [t [=]].
Qed.

Lemma filter_hides_plain_names_witness :
  Str.lower (suffix "x.ESP") ∈ (parse_extensions cfg_dot_esp).2 ∧
  suffix "x.ESP" ≠ "".
Proof.
  destruct (filter_hides_plain_names cfg_dot_esp fs_ext
              [ {| name := "foo.bar"; src := ["mods"; "foo.bar"];
                   dest := ["game"; "foo.bar"]; is_dir := true;
                   installed := false |};
                {| name := "x.esp"; src := ["mods"; "x.esp"];
                   dest := ["game"; "x.esp"]; is_dir := false;
                   installed := false |};
                {| name := "x.ESP"; src := ["mods"; "x.ESP"];
                   dest := ["game"; "x.ESP"]; is_dir := false;
                   installed := false |} ]) as [_ H].
  - vm_compute. reflexivity.
  - vm_compute. discriminate.
  - apply (H {| name := "x.ESP"; src := ["mods"; "x.ESP"];
                dest := ["game"; "x.ESP"]; is_dir := false;
                installed := false |}); [|reflexivity].
    apply list_elem_of_further, list_elem_of_further, list_elem_of_here.
Defined.

(** ** The external tool *)

Lemma str_or_nonempty a b : b ≠ "" → str_or a b ≠ "".
Proof. intros Hb. unfold str_or. by case_bool_decide. Qed.

(** X23: on Windows, when nothing is found at the destination and the
    source resolves, [mklink] runs the external tool once, with the
    junction form of the command iff the source is a directory, and leaves
    the filesystem as the tool left it.  It answers success, with "OK", iff
    the tool completed with exit code 0.  If the tool raised, the message is
    the text of the exception; if it ended with another exit code, the
    message is never empty: the stripped standard error, else the stripped
    standard output, else "mklink error". *)
Theorem mklink_windows_outcome run src_ dest_ fs fs' r :
  lstat fs dest_ = None → is_Some (stat fs src_) →
  run (mklink_cmd (Path.is_dir fs src_) src_ dest_) fs = (fs', r) →
  ∃ success msg,
    mklink true run src_ dest_ fs = (fs', (success, msg)) ∧
    (success = true ↔ ∃ res, r = inr res ∧ returncode res = 0%Z) ∧
    (success = true → msg = "OK") ∧
    (∀ e, r = inl e → msg = exn_str e) ∧
    (∀ res, r = inr res → returncode res ≠ 0%Z →
       msg ≠ "" ∧
       (Str.strip (stderr res) ≠ "" → msg = Str.strip (stderr res)) ∧
       (Str.strip (stderr res) = "" → Str.strip (stdout res) ≠ "" →
          msg = Str.strip (stdout res)) ∧
       (Str.strip (stderr res) = "" → Str.strip (stdout res) = "" →
          msg = "mklink error")).
Proof.
  intros Hl Hs Hr. unfold mklink.
  assert (dest_present fs dest_ = false) as Hd by (by apply dest_absent_lstat).
  unfold dest_present in Hd. rewrite Hd.
  assert (Path.exists_ fs src_ = true) as -> by (by apply exists_stat).
  cbn [negb]. rewrite Hr. destruct r as [e|res].
  - exists false, (exn_str e). split; [done|].
    split; [split; [done|by intros (? & [=] & _)]|].
    split; [done|]. split; [by intros ? [= ->]|by intros ? [=]].
  - case_bool_decide as Hc.
    + eexists false, _. split; [done|].
      split; [split; [done|intros (? & [= <-] & ?); done]|].
      split; [done|]. split; [by intros ? [=]|].
      intros ? [= <-] _. unfold str_or.
      split; [by repeat case_bool_decide|].
      split; [intros ?; by rewrite bool_decide_false|].
      split.
      * intros -> ?. rewrite bool_decide_true by done.
        by rewrite bool_decide_false.
      * intros -> ->. by rewrite !bool_decide_true.
    + exists true, "OK". split; [done|].
      split; [split; [eauto|done]|].
      split; [done|]. split; [by intros ? [=]|].
      intros ? [= <-] ?. done.
Qed.

Lemma mklink_windows_outcome_witness :
  ∃ success msg,
    mklink true no_tool ["mods"; "ModA"] ["game"; "ModA"] fs_two =
      (fs_two, (success, msg)) ∧
    msg = exn_str (ToolError "cmd: command not found").
Proof.
  destruct (mklink_windows_outcome no_tool ["mods"; "ModA"] ["game"; "ModA"]
              fs_two fs_two (inl (ToolError "cmd: command not found")))
    as (success & msg & H & _ & _ & He & _).
  - vm_compute. reflexivity.
  - vm_compute. eauto.
  - reflexivity.
  - exists success, msg. split; [exact H|]. by apply He.
Defined.

(** ** A source that is not a directory *)



(** ** The same preset a second time *)

(** When the scan raises. *)
Lemma discover_mods_inl cfg fs e :
  discover_mods cfg fs = inl e →
  ∃ d nd, stat fs (mods_source_dir cfg) = Some (d, nd) ∧ nd ≠ Dir.
Proof.
  intros He. destruct (stat fs (mods_source_dir cfg)) as [[d nd]|] eqn:Hs.
  - destruct (decide (nd = Dir)) as [->|Hnd]; [|by exists d, nd].
    rewrite (discover_mods_dir _ _ _ Hs) in He. discriminate He.
  - rewrite (discover_mods_absent _ _ Hs) in He. discriminate He.
Qed.

Lemma discover_mods_not_dir cfg fs d nd :
  stat fs (mods_source_dir cfg) = Some (d, nd) → nd ≠ Dir →
  discover_mods cfg fs = inl NotADirectoryError.
Proof.
  intros Hs Hnd. unfold discover_mods.
  destruct (parse_extensions cfg) as [sa exts].
  assert (Path.exists_ fs (mods_source_dir cfg) = true) as ->
    by (apply exists_stat; eauto).
  cbn [negb]. unfold iterdir, listdir. rewrite Hs. by destruct nd.
Qed.

(** With entries added to the filesystem, every entry of the catalogue
    keeps a namesake. *)
Lemma catalogue_mono (cfg : Config) (fs1 fs2 : FS) items1 items2 m1 :
  fs1 ⊆ fs2 →
  discover_mods cfg fs1 = inr items1 → discover_mods cfg fs2 = inr items2 →
  m1 ∈ items1 → ∃ m2, m2 ∈ items2 ∧ name m2 = name m1.
Proof.
  intros Hsub Hd1 Hd2 Hin.
  destruct (discover_mods_inr _ _ _ Hd1) as [[_ ->]|(ds & Hs & Hitems)];
    [exfalso; exact (not_elem_of_nil _ Hin)|].
  pose proof (stat_mono _ _ _ _ Hsub Hs) as Hs2.
  rewrite Hitems in Hin.
  apply list_elem_of_omap in Hin as (p & Hp & Hm1).
  apply elem_of_scan_order in Hp as (n & -> & Hn).
  apply elem_of_children in Hn as [x Hx].
  assert (n ∈ children fs2 ds) as Hn2.
  { apply elem_of_children. exists x. exact (lookup_weaken _ _ _ _ Hx Hsub). }
  pose proof (discovered_Some _ _ _ _ _ _ Hm1) as (Hnm & _).
  rewrite name_snoc in Hnm.
  assert (∃ m2, discovered fs2 (game_mods_dir cfg) (parse_extensions cfg).1
                  (parse_extensions cfg).2 (mods_source_dir cfg ++ [n])
                = Some m2) as [m2 Hm2].
  { revert Hm1. unfold discovered, Path.is_file, Path.is_dir.
    destruct (stat fs1 (mods_source_dir cfg ++ [n])) as [[k nd]|] eqn:Hst;
      [|intros [=]].
    rewrite (stat_mono _ _ _ _ Hsub Hst).
    destruct nd as [| |t].
    - destruct (_ || _); [intros _; eexists; reflexivity|intros [=]].
    - intros _. eexists. reflexivity.
    - intros [=]. }
  exists m2. rewrite Hnm.
  by apply (discover_child cfg fs2 ds items2 n m2 Hs2 Hd2 Hn2).
Qed.

(** A second run of [deactivate_preset] finds nothing to do. *)
Lemma deactivate_again cfg name_ fs st items b :
  discover_mods cfg fs = inr items →
  deactivate_preset cfg name_ fs st = inr b →
  (∀ m, m ∈ items → installed m = true →
     name m ∈ default [] (load_presets st !! name_) →
     ∀ k, lstat fs (dest m) ≠ Some (k, Dir)) →
  deactivate_preset cfg name_ (world b) st = inr (batch_start (world b)).
Proof.
  intros Hd Hb Hreal. pose proof Hb as Hb'.
  unfold deactivate_preset in Hb'. rewrite Hd in Hb'. injection Hb' as Hb'.
  assert (world b ⊆ fs) as Hsub
    by (rewrite <-Hb'; apply deactivate_loop_sub).
  unfold deactivate_preset.
  destruct (discover_mods cfg (world b)) as [e|items2] eqn:Hd2.
  { destruct (discover_mods_inl _ _ _ Hd2) as (d & nd & Hs & Hnd).
    rewrite (discover_mods_not_dir cfg fs d nd) in Hd;
      [discriminate Hd|by eapply stat_mono|exact Hnd]. }
  f_equal.
  assert (∀ nm, nm ∈ default [] (load_presets st !! name_) →
            ∀ b0, world b0 = world b →
              deactivate_preset_step (mods_by_name items2) b0 nm = b0) as Hid.
  { intros nm Hnm b0 Hw. unfold deactivate_preset_step.
    destruct (mods_by_name items2 !! nm) as [m2|] eqn:Hm2; [|done].
    destruct (installed m2) eqn:Hi2; [exfalso|done].
    apply mods_by_name_Some in Hm2 as [Hin2 Hn2].
    destruct (catalogue_mono cfg _ _ _ _ m2 Hsub Hd2 Hd Hin2)
      as (m1 & Hin1 & Hn1).
    destruct (discover_entry _ _ _ _ Hd2 Hin2) as (Hdst2 & Hp2 & _).
    destruct (discover_entry _ _ _ _ Hd Hin1) as (Hdst1 & Hp1 & _).
    assert (dest m1 = dest m2) as Hdd by congruence.
    rewrite Hi2 in Hp2. symmetry in Hp2.
    apply dest_present_lstat in Hp2 as [r Hr].
    assert (installed m1 = true) as Hi1.
    { rewrite Hp1. apply dest_present_lstat. exists r. rewrite Hdd.
      exact (lstat_Some_sub _ _ _ _ Hsub Hr). }
    assert (name m1 ∈ default [] (load_presets st !! name_)) as Hmem
      by congruence.
    assert (lstat (world b) (dest m1) = None) as Hgone.
    { rewrite <-Hb'.
      eapply (deactivate_loop_gone (mods_by_name items) fs);
        [reflexivity|exact Hmem| |exact Hi1|exact (Hreal m1 Hin1 Hi1 Hmem)].
      apply mods_by_name_unique; [by eapply NoDup_discover_names|done..]. }
    rewrite Hdd in Hgone. congruence. }
  assert (∀ l b0,
            (∀ nm, nm ∈ l → nm ∈ default [] (load_presets st !! name_)) →
            world b0 = world b →
            foldl (deactivate_preset_step (mods_by_name items2)) b0 l = b0)
    as Hloop.
  { induction l as [|nm l IH]; intros b0 Hl Hw; [done|].
    cbn [foldl]. rewrite (Hid nm (Hl nm (list_elem_of_here _ _)) b0 Hw).
    apply IH; [|exact Hw].
    intros nm' Hnm'. apply Hl. by apply list_elem_of_further. }
  apply Hloop; [by intros nm Hnm|reflexivity].
Qed.

(** X25: [deactivate_preset] run a second time on what the first run
    left does nothing at all: no entry is touched, nothing is counted and
    nothing is logged, the members being either gone from the catalogue or
    listed in it as not installed.  This holds when no real directory stands
    at the destination of a member that was listed as installed. *)
Theorem deactivate_preset_twice cfg name_ fs st items b :
  discover_mods cfg fs = inr items →
  deactivate_preset cfg name_ fs st = inr b →
  (∀ m, m ∈ items → installed m = true →
     name m ∈ default [] (load_presets st !! name_) →
     ∀ k, lstat fs (dest m) ≠ Some (k, Dir)) →
  deactivate_preset cfg name_ (world b) st = inr (batch_start (world b)) ∧
  ok (batch_start (world b)) = 0 ∧ fail (batch_start (world b)) = 0 ∧
  msgs (batch_start (world b)) = [].
Proof.
  intros Hd Hb Hreal. split; [|done].
  exact (deactivate_again cfg name_ fs st items b Hd Hb Hreal).
Qed.

Lemma deactivate_preset_twice_witness :
  ∃ b, deactivate_preset cfg_esp "both" fs_linked store_both = inr b ∧
       deactivate_preset cfg_esp "both" (world b) store_both =
         inr (batch_start (world b)).
Proof.
  pose (mA := {| name := "ModA"; src := ["mods"; "ModA"];
                 dest := ["game"; "ModA"]; is_dir := true;
                 installed := true |}).
  pose (mb := {| name := "modb.esp"; src := ["mods"; "modb.esp"];
                 dest := ["game"; "modb.esp"]; is_dir := false;
                 installed := true |}).
  assert (discover_mods cfg_esp fs_linked = inr [mA; mb]) as Hd
    by (vm_compute; reflexivity).
  destruct (deactivate_preset cfg_esp "both" fs_linked store_both)
    as [e|b] eqn:Hb.
  { exfalso. revert Hb. unfold deactivate_preset. rewrite Hd. discriminate. }
  exists b. split; [reflexivity|].
  apply (deactivate_preset_twice cfg_esp "both" fs_linked store_both
           [mA; mb] b Hd Hb).
  intros m Hm _ _ k.
  apply elem_of_cons in Hm as [->|Hm].
  { vm_compute. discriminate. }
  apply list_elem_of_singleton in Hm as ->. vm_compute. discriminate.
Defined.

(** A second run of [apply_preset] finds every member installed. *)
Lemma apply_again run cfg name_ fs st items d b :
  discover_mods cfg fs = inr items →
  stat fs (game_mods_dir cfg) = Some (d, Dir) →
  apply_preset false run cfg name_ fs st = inr b →
  (∀ nm, nm ∈ default [] (load_presets st !! name_) →
     ∃ m, m ∈ items ∧ name m = nm) →
  apply_preset false run cfg name_ (world b) st = inr (batch_start (world b)).
Proof.
  intros Hd Hg Hb Hall. pose proof Hb as Hb'.
  unfold apply_preset in Hb'. rewrite Hd in Hb'. injection Hb' as Hb'.
  assert (fs ⊆ world b) as Hsub
    by (rewrite <-Hb'; apply (apply_loop_sub _ _ _ (batch_start fs))).
  destruct (default [] (load_presets st !! name_)) as [|nm0 l0] eqn:Hmem.
  { cbn [foldl] in Hb'. subst b. unfold apply_preset.
    cbn [world batch_start]. by rewrite Hd, Hmem. }
  rewrite <-Hmem in Hall, Hb'.
  assert (∃ ds, stat fs (mods_source_dir cfg) = Some (ds, Dir)) as [ds Hs].
  { destruct (Hall nm0) as (m & Hin & _);
      [rewrite Hmem; apply list_elem_of_here|].
    destruct (discover_mods_inr _ _ _ Hd) as [[_ ->]|(ds & Hs & _)];
      [exfalso; exact (not_elem_of_nil _ Hin)|eauto]. }
  pose proof (discover_mods_dir cfg (world b) ds
                (stat_mono _ _ _ _ Hsub Hs)) as Hd2.
  unfold apply_preset. rewrite Hd2. f_equal.
  set (items2 := omap _ _) in *.
  assert (∀ nm, nm ∈ default [] (load_presets st !! name_) →
            ∀ b0, apply_preset_step false run (mods_by_name items2) b0 nm
                  = b0) as Hid.
  { intros nm Hnm b0. destruct (Hall nm Hnm) as (m1 & Hin1 & Hn1).
    destruct (catalogue_mono cfg _ _ _ _ m1 Hsub Hd Hd2 Hin1)
      as (m2 & Hin2 & Hn2).
    assert (mods_by_name items2 !! nm = Some m2) as Hm2.
    { apply mods_by_name_unique;
        [by eapply NoDup_discover_names|exact Hin2|congruence]. }
    apply (apply_step_installed false run _ b0 nm m2 Hm2).
    destruct (discover_entry _ _ _ _ Hd2 Hin2) as (Hdst2 & Hp2 & _).
    destruct (discover_entry _ _ _ _ Hd Hin1) as (Hdst1 & Hp1 & Hsrc).
    assert (dest m2 = dest m1) as Hdd by congruence.
    rewrite Hp2, Hdd. apply dest_present_lstat.
    destruct (installed m1) eqn:Hi1.
    - symmetry in Hp1. apply dest_present_lstat in Hp1 as [r Hr].
      exists r. exact (lstat_Some_sub _ _ _ _ Hsub Hr).
    - rewrite <-Hb'.
      eapply (apply_loop_present run (mods_by_name items)
                (game_mods_dir cfg) d _ (batch_start fs) nm m1);
        [exact Hnm| |exact Hi1|congruence|exact Hg|exact Hsrc].
      apply mods_by_name_unique; [by eapply NoDup_discover_names|done..]. }
  assert (∀ l b0,
            (∀ nm, nm ∈ l → nm ∈ default [] (load_presets st !! name_)) →
            foldl (apply_preset_step false run (mods_by_name items2)) b0 l
            = b0) as Hloop.
  { induction l as [|nm l IH]; intros b0 Hl; [done|].
    cbn [foldl]. rewrite (Hid nm (Hl nm (list_elem_of_here _ _)) b0).
    apply IH. intros nm' Hnm'. apply Hl. by apply list_elem_of_further. }
  apply Hloop. by intros nm Hnm.
Qed.

(** X26: where links are made by [os.symlink] and the game directory
    resolves to a directory, [apply_preset] run a second time on what the
    first run left does nothing at all when every member of the preset is
    in the catalogue: the new scan lists every member as installed, so no
    link is attempted, nothing is counted and nothing is logged. *)
Theorem apply_preset_twice run cfg name_ fs st items d b :
  discover_mods cfg fs = inr items →
  stat fs (game_mods_dir cfg) = Some (d, Dir) →
  apply_preset false run cfg name_ fs st = inr b →
  (∀ nm, nm ∈ default [] (load_presets st !! name_) →
     ∃ m, m ∈ items ∧ name m = nm) →
  apply_preset false run cfg name_ (world b) st = inr (batch_start (world b)) ∧
  ok (batch_start (world b)) = 0 ∧ fail (batch_start (world b)) = 0 ∧
  msgs (batch_start (world b)) = [].
Proof.
  intros Hd Hg Hb Hall. split; [|done].
  exact (apply_again run cfg name_ fs st items d b Hd Hg Hb Hall).
Qed.

Lemma apply_preset_twice_witness :
  ∃ b, apply_preset false no_tool cfg_esp "both" fs_two store_both = inr b ∧
       apply_preset false no_tool cfg_esp "both" (world b) store_both =
         inr (batch_start (world b)).
Proof.
  assert (discover_mods cfg_esp fs_two = inr [item_ModA; item_modb]) as Hd
    by (vm_compute; reflexivity).
  destruct (apply_preset false no_tool cfg_esp "both" fs_two store_both)
    as [e|b] eqn:Hb.
  { exfalso. revert Hb. unfold apply_preset. rewrite Hd. discriminate. }
  exists b. split; [reflexivity|].
  apply (apply_preset_twice no_tool cfg_esp "both" fs_two store_both
           [item_ModA; item_modb] ["game"] b Hd).
  - vm_compute. reflexivity.
  - exact Hb.
  - intros nm Hnm.
    apply elem_of_cons in Hnm as [->|Hnm].
    { exists item_ModA. split; [apply list_elem_of_here|reflexivity]. }
    apply list_elem_of_singleton in Hnm as ->.
    exists item_modb.
    split; [apply list_elem_of_further, list_elem_of_here|reflexivity].
Defined.

(** X27: in the presets menu the marks are those of the scan made before
    the answer is read, but each toggle scans again.  Where links are made
    by [os.symlink], the game directory resolves to a directory, every
    member of the preset is in the catalogue and no real directory stands
    at the destination of an installed member, choosing the number of a
    preset twice in one answer therefore does not toggle it back and does
    not fail either: the second
    turn takes the same direction as the first and finds nothing to do, so
    that the filesystem is as after choosing the number once and the second
    report counts no success, no error and holds no message. *)
Theorem preset_chosen_twice run cfg name_ fs st items d :
  discover_mods cfg fs = inr items →
  stat fs (game_mods_dir cfg) = Some (d, Dir) →
  (∀ nm, nm ∈ default [] (load_presets st !! name_) →
     ∃ m, m ∈ items ∧ name m = nm) →
  (∀ m, m ∈ items → installed m = true →
     name m ∈ default [] (load_presets st !! name_) →
     ∀ k, lstat fs (dest m) ≠ Some (k, Dir)) →
  ∃ r,
    menu_presets_toggle false run cfg [name_] fs st =
      inr (world (report_batch r), [r]) ∧
    menu_presets_toggle false run cfg [name_; name_] fs st =
      inr (world (report_batch r),
           [r;
            match r with
            | Deactivated _ => Deactivated (batch_start (world (report_batch r)))
            | Installed _ => Installed (batch_start (world (report_batch r)))
            end]).
Proof.
  intros Hd Hg Hall Hreal. unfold menu_presets_toggle. rewrite Hd.
  cbn [foldl]. unfold toggle_preset.
  destruct (all_on _ _).
  - destruct (deactivate_preset cfg name_ fs st) as [e|b] eqn:Hb.
    { exfalso. revert Hb. unfold deactivate_preset. by rewrite Hd. }
    exists (Deactivated b). cbn [report_of report_batch app].
    split; [done|].
    by rewrite (deactivate_again cfg name_ fs st items b Hd Hb Hreal).
  - destruct (apply_preset false run cfg name_ fs st) as [e|b] eqn:Hb.
    { exfalso. revert Hb. unfold apply_preset. by rewrite Hd. }
    exists (Installed b). cbn [report_of report_batch app].
    split; [done|].
    by rewrite (apply_again run cfg name_ fs st items d b Hd Hg Hb Hall).
Qed.

Lemma preset_chosen_twice_witness :
  ∃ r,
    menu_presets_toggle false no_tool cfg_esp ["both"; "both"] fs_two
      store_both =
      inr (world (report_batch r),
           [r; Installed (batch_start (world (report_batch r)))]) ∧
    ok (report_batch r) = 2.
Proof.
  destruct (preset_chosen_twice no_tool cfg_esp "both" fs_two store_both
              [item_ModA; item_modb] ["game"]) as (r & H1 & H2).
  - vm_compute. reflexivity.
  - vm_compute. reflexivity.
  - intros nm Hnm.
    apply elem_of_cons in Hnm as [->|Hnm].
    { exists item_ModA. split; [apply list_elem_of_here|reflexivity]. }
    apply list_elem_of_singleton in Hnm as ->.
    exists item_modb.
    split; [apply list_elem_of_further, list_elem_of_here|reflexivity].
  - intros m Hm Hi. exfalso.
    apply elem_of_cons in Hm as [->|Hm]; [discriminate Hi|].
    apply list_elem_of_singleton in Hm as ->. discriminate Hi.
  - assert (match menu_presets_toggle false no_tool cfg_esp ["both"] fs_two
                    store_both with
            | inr (_, [Installed b]) => ok b = 2
            | _ => False
            end) as Hr by (vm_compute; reflexivity).
    rewrite H1 in Hr. destruct r as [b|b]; [destruct Hr|].
    exists (Installed b). split; [exact H2|exact Hr].
Defined.

(** ** A preset saved and deleted *)

(** X28: deleting a preset right after it was saved under a name that was
    not in use gives back the collection of presets as it was: the one
    name is counted as removed, none is reported missing, and every other
    preset is stored as before. *)
Theorem save_then_delete cfg name_ fs st st' msg :
  load_presets st !! name_ = None →
  save_preset_from_installed cfg name_ fs st = inr (st', (true, msg)) →
  ∃ st'',
    delete_presets_by_names [name_] st' = inr (st'', (1, [])) ∧
    load_presets st'' = load_presets st.
Proof.
  intros Hfree. unfold save_preset_from_installed.
  destruct (list_installed_mods cfg fs) as [e|inst]; [by intros [=]|].
  case_bool_decide; [by intros [=]|].
  unfold save_presets. destruct (writable st); [|by intros [=]].
  intros [= <- _].
  unfold delete_presets_by_names, load_presets at 1. cbn [content foldl].
  unfold delete_presets_step.
  rewrite bool_decide_true by (rewrite lookup_insert_eq; eauto).
  unfold save_presets. cbn [writable].
  eexists. split; [reflexivity|].
  unfold load_presets at 1. cbn [content].
  by apply delete_insert_id.
Qed.

Lemma save_then_delete_witness :
  ∃ st' msg st'',
    save_preset_from_installed cfg_esp "new" fs_linked store_ok =
      inr (st', (true, msg)) ∧
    delete_presets_by_names ["new"] st' = inr (st'', (1, [])) ∧
    load_presets st'' = load_presets store_ok.
Proof.
  assert (∃ st' msg, save_preset_from_installed cfg_esp "new" fs_linked
                       store_ok = inr (st', (true, msg))) as (st' & msg & Hs)
    by (eexists _, _; vm_compute; reflexivity).
  destruct (save_then_delete cfg_esp "new" fs_linked store_ok st' msg)
    as (st'' & Hdel & Heq).
  - vm_compute. reflexivity.
  - exact Hs.
  - exists st', msg, st''. split; [exact Hs|]. split; [exact Hdel|exact Heq].
Defined.
